(** * Matomo tracker client: a shallow embedding and its verified properties

    The repository ships the same client twice:

    - [index.ts], the TypeScript port of the node tracker ([assert]-based
      validation, [track] accepts a string or a mapping), embedded below as
      module [Legacy];
    - [src/index.ts], the packaged SDK ([tiny-invariant]-based validation,
      low-level [track] plus [trackUrl], [trackEvent], [trackContent]),
      embedded below as module [Sdk].

    Both files end with the same helper [optionValuesToString]; it is
    embedded once.  Platform services the sources call but do not define
    ([Number], [String], [URLSearchParams], [JSON.stringify], [fetch], the
    event emitter) are modelled after their standards in the first part of
    the file.

    Listeners and callbacks first appear as recorders that return.  The
    module [Live] runs [track] and [trackBulk] of both files again among
    listeners and callbacks that may throw, listeners registered with
    [once], and a listener table that changes while a call is suspended;
    [recorders_are_the_placid_case] relates the two. *)

From Stdlib Require Import ZArith String Ascii List Bool Lia.
From stdpp Require Import base option list sets strings pretty.

Set Warnings "-clear-no-such-hyp".

Local Open Scope string_scope.
Local Open Scope list_scope.
Local Open Scope Z_scope.

(** ** JavaScript values *)

(** The [number] type.  Site identifiers and the numeric tracking options
    are integral; the model covers the integers and [NaN] (the result of
    coercing a non-numeric string).  Fractions, infinities and integers
    beyond the exactly representable ones (2^53 and more in magnitude) are
    outside the model. *)
Inductive number : Type :=
  | NaN
  | Num (z : Z).

(** The values an option mapping holds: [number | string | undefined]. *)
Inductive value : Type :=
  | VUndefined
  | VNumber (n : number)
  | VString (s : string).

(** The values of arbitrary type the (untyped) callers of the constructor
    pass in the test suites; only [typeof] and truthiness are observed of
    the reference types. *)
Inductive jsval : Type :=
  | JUndefined
  | JNull
  | JBoolean (b : bool)
  | JNumber (n : number)
  | JString (s : string)
  | JObject
  | JArray
  | JFunction.

Inductive jstype : Type :=
  | TUndefined | TObject | TBoolean | TNumber | TString | TFunction.

Definition typeof (v : jsval) : jstype :=
  match v with
  | JUndefined => TUndefined
  | JNull | JObject | JArray => TObject
  | JBoolean _ => TBoolean
  | JNumber _ => TNumber
  | JString _ => TString
  | JFunction => TFunction
  end.

Definition jstype_eqb (a b : jstype) : bool :=
  match a, b with
  | TUndefined, TUndefined | TObject, TObject | TBoolean, TBoolean
  | TNumber, TNumber | TString, TString | TFunction, TFunction => true
  | _, _ => false
  end.

Definition string_nonempty (s : string) : bool :=
  match s with EmptyString => false | String _ _ => true end.

Definition number_truthy (n : number) : bool :=
  match n with
  | NaN => false
  | Num z => negb (z =? 0)
  end.

(** [ToBoolean] on option values and on arbitrary values. *)
Definition truthy (v : value) : bool :=
  match v with
  | VUndefined => false
  | VNumber n => number_truthy n
  | VString s => string_nonempty s
  end.

Definition js_truthy (v : jsval) : bool :=
  match v with
  | JUndefined | JNull => false
  | JBoolean b => b
  | JNumber n => number_truthy n
  | JString s => string_nonempty s
  | JObject | JArray | JFunction => true
  end.

(** [String(value)]. *)
Definition number_to_string (n : number) : string :=
  match n with
  | NaN => "NaN"
  | Num z => pretty z
  end.

Definition js_String (v : value) : string :=
  match v with
  | VUndefined => "undefined"
  | VNumber n => number_to_string n
  | VString s => s
  end.

(** [Number(value)] on strings, for the literals of the model: surrounding
    white space is dropped, the empty string is 0, an optionally signed run
    of decimal digits is its value, a text that is no numeric literal is
    [NaN].  Literals with a fraction, an exponent or a radix prefix and
    [Infinity] denote numbers the model does not have; they are taken to
    [NaN] as well. *)
Definition is_space (c : ascii) : bool :=
  let n := N_of_ascii c in
  ((9 <=? n) && (n <=? 13))%N || (n =? 32)%N.

Fixpoint trim_left (s : string) : string :=
  match s with
  | String c r => if is_space c then trim_left r else s
  | EmptyString => EmptyString
  end.

Definition trim (s : string) : string :=
  String.rev (trim_left (String.rev (trim_left s))).

Definition digit_of (c : ascii) : option Z :=
  let n := N_of_ascii c in
  if ((48 <=? n) && (n <=? 57))%N then Some (Z.of_N n - 48) else None.

Fixpoint digits_value (acc : Z) (s : string) : option Z :=
  match s with
  | EmptyString => Some acc
  | String c r =>
      match digit_of c with
      | Some d => digits_value (10 * acc + d) r
      | None => None
      end
  end.

Definition unsigned_value (s : string) : option Z :=
  match s with
  | EmptyString => None
  | String _ _ => digits_value 0 s
  end.

Definition StringToNumber (s : string) : number :=
  match trim s with
  | EmptyString => Num 0
  | String "+" r => from_option Num NaN (unsigned_value r)
  | String "-" r => from_option (fun z => Num (- z)) NaN (unsigned_value r)
  | t => from_option Num NaN (unsigned_value t)
  end.

(** [Number(siteId)] for the two argument types the constructor lets
    through; the other types never reach the coercion. *)
Definition Number (v : jsval) : number :=
  match v with
  | JNumber n => n
  | JString s => StringToNumber s
  | JBoolean b => Num (if b then 1 else 0)
  | JNull => Num 0
  | JUndefined | JObject | JArray | JFunction => NaN
  end.

(** ** Objects

    An object is the sequence of its own properties in the order
    [Object.entries] enumerates them (for the string keys of an option
    mapping: the order of creation).  A property may be present with the
    value [undefined].  The keys of an object are pairwise distinct;
    statements that need this say [NoDup (keys o)]. *)
Abbreviation props V := (list (string * V)).
Abbreviation object := (list (string * value)).

Fixpoint obj_lookup {V} (k : string) (o : props V) : option V :=
  match o with
  | [] => None
  | (k', v) :: r => if String.eqb k k' then Some v else obj_lookup k r
  end.

(** [o.k]: reading a property that is not there gives [undefined]. *)
Definition obj_get (k : string) (o : object) : value :=
  from_option id VUndefined (obj_lookup k o).

(** [o[k] = v]: an existing property keeps its place, a new one goes to
    the end. *)
Fixpoint obj_set {V} (k : string) (v : V) (o : props V) : props V :=
  match o with
  | [] => [(k, v)]
  | (k', v') :: r =>
      if String.eqb k k' then (k, v) :: r else (k', v') :: obj_set k v r
  end.

Definition Object_entries {V} (o : props V) : list (string * V) := o.

Definition keys {V} (o : props V) : list string := o.*1.

(** ** [optionValuesToString]  (index.ts 240-247, src/index.ts 364-371) *)
Definition optionValuesToString (options : object) : props string :=
  fold_left
    (fun acc '(key, value) =>
       match value with
       | VUndefined => acc
       | _ => obj_set key (js_String value) acc
       end)
    (Object_entries options) [].

(** ** [URLSearchParams]

    [new URLSearchParams(record)] takes the record's pairs in order;
    [toString()] is the application/x-www-form-urlencoded serializer:
    a space becomes [+], the bytes [* - . _ 0-9 A-Z a-z] stay, every other
    byte becomes [%XX] with upper-case hexadecimal digits. *)
Definition urlencoded_keep (c : ascii) : bool :=
  let n := N_of_ascii c in
  ((n =? 42) || (n =? 45) || (n =? 46) || (n =? 95)
   || ((48 <=? n) && (n <=? 57))
   || ((65 <=? n) && (n <=? 90))
   || ((97 <=? n) && (n <=? 122)))%N.

Definition hex_digit (n : N) : ascii :=
  ascii_of_N (if (n <? 10)%N then 48 + n else 55 + n)%N.

Definition percent_encode (c : ascii) : string :=
  let n := N_of_ascii c in
  String "%" (String (hex_digit (n / 16)) (String (hex_digit (n mod 16)) EmptyString)).

Definition urlencoded_byte (c : ascii) : string :=
  if (N_of_ascii c =? 32)%N then "+"
  else if urlencoded_keep c then String c EmptyString
  else percent_encode c.

Fixpoint urlencoded (s : string) : string :=
  match s with
  | EmptyString => EmptyString
  | String c r => urlencoded_byte c +:+ urlencoded r
  end.

Definition URLSearchParams (record : props string) : list (string * string) :=
  record.

Definition URLSearchParams_toString (params : list (string * string)) : string :=
  String.concat "&"
    (map (fun '(name, v) => urlencoded name +:+ "=" +:+ urlencoded v) params).

(** The query string of an option mapping, as both [track] and
    [trackBulk] build it. *)
Definition query_string (options : object) : string :=
  URLSearchParams_toString (URLSearchParams (optionValuesToString options)).


(** ** [JSON.stringify]

    Only strings, arrays and objects are serialized by the client. *)
#[warnings="-register-all"] Inductive json : Type :=
  | JsonString (s : string)
  | JsonArray (l : list json)
  | JsonObject (l : list (string * json)).

Definition dquote : string := String (ascii_of_N 34) EmptyString.
Definition backslash : string := String (ascii_of_N 92) EmptyString.

Definition lower_hex_digit (n : N) : ascii :=
  ascii_of_N (if (n <? 10)%N then 48 + n else 87 + n)%N.

Definition json_escape_byte (c : ascii) : string :=
  let n := N_of_ascii c in
  if (n =? 34)%N then backslash +:+ dquote
  else if (n =? 92)%N then backslash +:+ backslash
  else if (n =? 8)%N then backslash +:+ "b"
  else if (n =? 9)%N then backslash +:+ "t"
  else if (n =? 10)%N then backslash +:+ "n"
  else if (n =? 12)%N then backslash +:+ "f"
  else if (n =? 13)%N then backslash +:+ "r"
  else if (n <? 32)%N then
    backslash +:+ "u00" +:+
    String (lower_hex_digit (n / 16)) (String (lower_hex_digit (n mod 16)) EmptyString)
  else String c EmptyString.

Fixpoint json_escape (s : string) : string :=
  match s with
  | EmptyString => EmptyString
  | String c r => json_escape_byte c +:+ json_escape r
  end.

Definition QuoteJSONString (s : string) : string :=
  dquote +:+ json_escape s +:+ dquote.

Fixpoint JSON_stringify (j : json) : string :=
  match j with
  | JsonString s => QuoteJSONString s
  | JsonArray l => "[" +:+ String.concat "," (map JSON_stringify l) +:+ "]"
  | JsonObject l =>
      "{" +:+
      String.concat ","
        (map (fun '(k, v) => QuoteJSONString k +:+ ":" +:+ JSON_stringify v) l)
      +:+ "}"
  end.

(** ** Errors and completions *)

Inductive error_kind : Type :=
  | InvalidArgument   (* a failed [assert] / [invariant] *)
  | TypeError         (* a property access on a non-object *)
  | FetchFailure      (* [fetch] or a body read rejected *)
  | UnhandledError.   (* [emit('error')] without a listener *)

Record exn : Type := Error { kind : error_kind; message : string }.

(** How a call ends: normally with a value, or by throwing.  For an
    [async] function the two are the fulfilled and the rejected promise. *)
Inductive completion (A : Type) : Type :=
  | Normal (a : A)
  | Throw (e : exn).
Arguments Normal {A} a.
Arguments Throw {A} e.

(** ** The network *)

Inductive method : Type := GET | POST.

Record Request : Type := {
  req_url : string;
  req_method : method;
  req_headers : list (string * string);
  req_body : option string
}.

Record Response : Type := {
  status : Z;
  text : completion string
}.

Definition ok (r : Response) : bool := (200 <=? status r) && (status r <=? 299).

(** ** The world a call runs in

    [heap] holds the option mappings the caller has created, addressed by
    reference, so that a mutation made by the client is seen by the
    caller.  [subscribers] is the tracker's listener table.  [server] is
    what the network will answer; [fetched], [delivered] and [called_back]
    record, oldest first, the requests made, the payloads handed to
    listeners and the bulk callback invocations. *)
Abbreviation loc := nat.

Record World : Type := {
  heap : list object;
  subscribers : list (string * nat);
  server : Request -> completion Response;
  fetched : list Request;
  delivered : list (nat * value);
  called_back : list (nat * string)
}.

Definition set_heap (h : list object) (w : World) : World :=
  {| heap := h; subscribers := subscribers w; server := server w;
     fetched := fetched w; delivered := delivered w; called_back := called_back w |}.

Definition set_subscribers (s : list (string * nat)) (w : World) : World :=
  {| heap := heap w; subscribers := s; server := server w;
     fetched := fetched w; delivered := delivered w; called_back := called_back w |}.

Definition set_fetched (f : list Request) (w : World) : World :=
  {| heap := heap w; subscribers := subscribers w; server := server w;
     fetched := f; delivered := delivered w; called_back := called_back w |}.

Definition set_delivered (d : list (nat * value)) (w : World) : World :=
  {| heap := heap w; subscribers := subscribers w; server := server w;
     fetched := fetched w; delivered := d; called_back := called_back w |}.

Definition set_called_back (c : list (nat * string)) (w : World) : World :=
  {| heap := heap w; subscribers := subscribers w; server := server w;
     fetched := fetched w; delivered := delivered w; called_back := c |}.

#[global] Instance completion_ret : MRet completion := fun _ a => Normal a.
#[global] Instance completion_bind : MBind completion := fun _ _ f m =>
  match m with
  | Normal a => f a
  | Throw e => Throw e
  end.
#[global] Instance completion_throw : MThrow exn completion := fun _ e => Throw e.

(** A computation that reads and changes the world. *)
Definition M (A : Type) : Type := World -> completion A * World.

#[global] Instance M_ret : MRet M := fun _ a w => (Normal a, w).
#[global] Instance M_bind : MBind M := fun _ _ f m w =>
  match m w with
  | (Normal a, w') => f a w'
  | (Throw e, w') => (Throw e, w')
  end.
#[global] Instance M_throw : MThrow exn M := fun _ e w => (Throw e, w).

(** [try { body } catch (err) { handler }] *)
Definition try_catch {A} (body : M A) (handler : exn -> M A) : M A := fun w =>
  match body w with
  | (Normal a, w') => (Normal a, w')
  | (Throw e, w') => handler e w'
  end.

(** [if (cond) { body }], and [cond && body] used as a statement. *)
Definition when {A} (cond : bool) (body : M A) : M unit :=
  if cond then _ ← body; mret tt else mret tt.

(** [invariant(cond, msg)] of tiny-invariant and [assert.ok(cond, msg)],
    [assert.fail(msg)] of node; the error carries the message it was
    given (tiny-invariant puts "Invariant failed: " before it). *)
Definition invariant `{!MRet m, !MThrow exn m} (cond : bool) (msg : string) : m unit :=
  if cond then mret tt else mthrow (Error InvalidArgument msg).

Definition assert_ok `{!MRet m, !MThrow exn m} (cond : bool) (msg : string) : m unit :=
  if cond then mret tt else mthrow (Error InvalidArgument msg).

Definition assert_fail `{!MThrow exn m} {A} (msg : string) : m A :=
  mthrow (Error InvalidArgument msg).

(** *** References *)

(** What a call may receive where the signature asks for a mapping. *)
Inductive arg : Type :=
  | AUndefined
  | AString (s : string)
  | ARef (l : loc).

Definition arg_truthy (a : arg) : bool :=
  match a with
  | AUndefined => false
  | AString s => string_nonempty s
  | ARef _ => true
  end.

Definition not_an_object : exn :=
  Error TypeError "Cannot access a property of a non-object".

(** An object literal: a fresh object, at a fresh reference. *)
Definition alloc (o : object) : M loc := fun w =>
  (Normal (length (heap w)), set_heap (heap w ++ [o]) w).

(** A reference the heap does not hold stands for a value that is not an
    object. *)
Definition deref (l : loc) : M object := fun w =>
  match heap w !! l with
  | Some o => (Normal o, w)
  | None => (Throw not_an_object, w)
  end.

Definition store (l : loc) (o : object) : M unit := fun w =>
  (Normal tt, set_heap (<[l := o]> (heap w)) w).

(** [target.k]: [undefined] has no properties; the option keys are not
    properties of a primitive string. *)
Definition member (target : arg) (k : string) : M value :=
  match target with
  | AUndefined => mthrow not_an_object
  | AString _ => mret VUndefined
  | ARef l => o ← deref l; mret (obj_get k o)
  end.

(** [target.k = v] in module (strict) code: only an object takes it. *)
Definition assign (target : arg) (k : string) (v : value) : M unit :=
  match target with
  | AUndefined | AString _ => mthrow not_an_object
  | ARef l => o ← deref l; store l (obj_set k v o)
  end.

(** [Object.entries(target)] of a call argument. *)
Definition string_entries (s : string) : object :=
  imap (fun i c => (pretty i, VString (String c EmptyString)))
       (list_ascii_of_string s).

Definition entries_of (target : arg) : M object :=
  match target with
  | AUndefined => mthrow not_an_object
  | AString s => mret (string_entries s)
  | ARef l => deref l
  end.

(** *** [fetch] *)
Definition fetch (r : Request) : M Response := fun w =>
  (server w r, set_fetched (fetched w ++ [r]) w).

(** [fetch(url)]: a GET without headers or body. *)
Definition fetch_get (url : string) : Request :=
  {| req_url := url; req_method := GET; req_headers := []; req_body := None |}.

(** [await response.text()] *)
Definition read_text (r : Response) : M string := fun w => (text r, w).

(** *** The event emitter

    A listener is known by a number and records what it is handed.  In
    this world it returns when it is called, it was registered with [on]
    and stays on the table; the statements on what happens when a
    listener throws, was registered with [once], or is subscribed while a
    call is suspended are made in the module [Live] below, of which this
    world is the placid case. *)
Definition listeners_of (ev : string) (subs : list (string * nat)) : list nat :=
  omap (fun '(e, h) => if String.eqb e ev then Some h else None) subs.

Definition listeners (ev : string) : M (list nat) := fun w =>
  (Normal (listeners_of ev (subscribers w)), w).

(** [emit(ev, payload)]: every listener of [ev] receives the payload, in
    registration order; an ['error'] event nobody listens to is thrown. *)
Definition emit (ev : string) (payload : value) : M bool :=
  hs ← listeners ev;
  match hs with
  | [] =>
      if String.eqb ev "error"
      then mthrow (Error UnhandledError "Unhandled error.")
      else mret false
  | _ => fun w =>
      (Normal true,
       set_delivered (delivered w ++ map (fun h => (h, payload)) hs) w)
  end.

(** [matomo.on(ev, h)] *)
Definition on (ev : string) (h : nat) : M unit := fun w =>
  (Normal tt, set_subscribers (subscribers w ++ [(ev, h)]) w).

(** [callback?.(data)]; a callback, too, is a recorder known by a number,
    and returns; [Live.call_back] is the callback that may throw. *)
Definition call_back (callback : option nat) (data : string) : M unit := fun w =>
  match callback with
  | None => (Normal tt, w)
  | Some c => (Normal tt, set_called_back (called_back w ++ [(c, data)]) w)
  end.

(** [n] used as a condition. *)
Definition nonzero (n : nat) : bool := negb (Nat.eqb n 0).

(** *** Strings *)

(** [s.endsWith(suffix)] and [s.startsWith(prefix)]. *)
Definition endsWith (s suffix : string) : bool :=
  let n := String.length s in
  let m := String.length suffix in
  Nat.leb m n && String.eqb (String.substring (n - m) m s) suffix.

Definition startsWith (s prefix : string) : bool := String.prefix prefix s.

(** A value whose [typeof] was checked to be ['string']. *)
Definition the_string (v : jsval) : string :=
  match v with
  | JString s => s
  | _ => EmptyString
  end.

(** [v !== undefined && v !== null] *)
Definition specified (v : jsval) : bool :=
  match v with
  | JUndefined | JNull => false
  | _ => true
  end.

(** The messages of the sources. *)
Definition siteId_required : string := "Matomo siteId required.".
Definition trackerUrl_required : string :=
  "Matomo tracker URL required, e.g. http://example.com/matomo.php".
Definition trackerUrl_suffix : string :=
  "A tracker URL must end with " +:+ dquote +:+ "matomo.php" +:+ dquote
  +:+ " or " +:+ dquote +:+ "piwik.php" +:+ dquote.
Definition url_required : string := "URL to be tracked must be specified.".
Definition events_required : string := "Events require at least one.".
Definition siteId_unspecified : string := "siteId must be specified.".
Definition event_required : string := "Event category and action must be specified.".
Definition content_required : string := "Content name and piece must be specified.".

(** * [index.ts] *)
Module Legacy.

Record Tracker : Type := {
  siteId : number;
  trackerUrl : string;
  usesHTTPS : bool
}.

(** index.ts 25-41 *)
Definition MatomoTracker (siteId trackerUrl noURLValidation : jsval)
  : completion Tracker :=
  assert_ok (js_truthy siteId
             && (jstype_eqb (typeof siteId) TNumber
                 || jstype_eqb (typeof siteId) TString)) siteId_required;;
  assert_ok (js_truthy trackerUrl && jstype_eqb (typeof trackerUrl) TString)
    trackerUrl_required;;
  (if negb (js_truthy noURLValidation)
   then assert_ok (endsWith (the_string trackerUrl) "matomo.php"
                   || endsWith (the_string trackerUrl) "piwik.php")
          trackerUrl_suffix
   else mret tt);;
  mret {| siteId := Number siteId;
          trackerUrl := the_string trackerUrl;
          usesHTTPS := startsWith (the_string trackerUrl) "https" |}.

(** index.ts 52-86 *)
Definition track (this : Tracker) (options : arg) : M (option Response) :=
  options ← match options with
            | AString s => l ← alloc [("url", VString s)]; mret (ARef l)
            | _ => mret options
            end;
  has_url ← (if arg_truthy options
             then url ← member options "url"; mret (truthy url)
             else mret false);
  if negb has_url
  then assert_fail url_required
  else
    assign options "idsite" (VNumber (siteId this));;
    assign options "rec" (VNumber (Num 1));;
    entries ← entries_of options;
    let requestUrl :=
      trackerUrl this +:+ "?" +:+
      URLSearchParams_toString (URLSearchParams (optionValuesToString entries)) in
    try_catch
      (response ← fetch (fetch_get requestUrl);
       if negb (ok response)
       then
         (hs ← listeners "error";
          when (nonzero (length hs))
            (emit "error" (VNumber (Num (status response)))));;
         mret None
       else mret (Some response))
      (fun err =>
         hs ← listeners "error";
         when (nonzero (length hs)) (emit "error" (VString (message err)));;
         mret None).

(** index.ts 90-125 *)
Definition trackBulk (this : Tracker) (eventItems : option (list loc))
    (callback : option nat) : M (option Response) :=
  assert_ok (match eventItems with
             | Some items => Nat.ltb 0 (length items)
             | None => false
             end) events_required;;
  assert_ok (specified (JNumber (siteId this))) siteId_unspecified;;
  requests ← mapM (fun query =>
                     assign (ARef query) "idsite" (VNumber (siteId this));;
                     assign (ARef query) "rec" (VNumber (Num 1));;
                     entries ← entries_of (ARef query);
                     mret ("?" +:+
                           URLSearchParams_toString
                             (URLSearchParams (optionValuesToString entries))))
                  (default [] eventItems);
  let body :=
    JSON_stringify (JsonObject [("requests", JsonArray (map JsonString requests))]) in
  try_catch
    (response ← fetch {| req_url := trackerUrl this;
                         req_method := POST;
                         req_headers := [("Content-Type", "application/json")];
                         req_body := Some body |};
     if negb (ok response)
     then
       (hs ← listeners "error";
        when (nonzero (length hs))
          (emit "error" (VNumber (Num (status response)))));;
       mret None
     else
       responseData ← read_text response;
       call_back callback responseData;;
       mret None)
    (fun err =>
       hs ← listeners "error";
       when (nonzero (length hs)) (emit "error" (VString (message err)));;
       mret None).

End Legacy.

(** * [src/index.ts] *)
Module Sdk.

Record Tracker : Type := {
  siteId : number;
  trackerUrl : string
}.

(** src/index.ts 22-35 *)
Definition MatomoTracker (siteId trackerUrl noURLValidation : jsval)
  : completion Tracker :=
  invariant (js_truthy siteId
             && (jstype_eqb (typeof siteId) TNumber
                 || jstype_eqb (typeof siteId) TString)) siteId_required;;
  invariant (js_truthy trackerUrl && jstype_eqb (typeof trackerUrl) TString)
    trackerUrl_required;;
  (if negb (js_truthy noURLValidation)
   then invariant (endsWith (the_string trackerUrl) "matomo.php"
                   || endsWith (the_string trackerUrl) "piwik.php")
          trackerUrl_suffix
   else mret tt);;
  mret {| siteId := Number siteId; trackerUrl := the_string trackerUrl |}.

(** src/index.ts 48-72 *)
Definition track (this : Tracker) (options : arg) : M (option Response) :=
  assign options "idsite" (VNumber (siteId this));;
  assign options "rec" (VNumber (Num 1));;
  entries ← entries_of options;
  let requestUrl :=
    trackerUrl this +:+ "?" +:+
    URLSearchParams_toString (URLSearchParams (optionValuesToString entries)) in
  try_catch
    (response ← fetch (fetch_get requestUrl);
     if negb (ok response)
     then
       (hs ← listeners "error";
        when (nonzero (length hs))
          (emit "error" (VNumber (Num (status response)))));;
       mret None
     else mret (Some response))
    (fun err =>
       hs ← listeners "error";
       when (nonzero (length hs)) (emit "error" (VString (message err)));;
       mret None).

(** src/index.ts 80-89 *)
Definition trackUrl (this : Tracker) (options : arg) : M (option Response) :=
  options ← match options with
            | AString s => l ← alloc [("url", VString s)]; mret (ARef l)
            | _ => mret options
            end;
  has_url ← (if arg_truthy options
             then url ← member options "url"; mret (truthy url)
             else mret false);
  invariant has_url url_required;;
  track this options.

(** [{...options, ca: 1}] *)
Definition spread_with_ca (options : arg) : M arg :=
  entries ← match options with
            | AUndefined => mret []
            | _ => entries_of options
            end;
  l ← alloc (obj_set "ca" (VNumber (Num 1)) entries);
  mret (ARef l).

(** [options && options.a && options.b] *)
Definition both_present (options : arg) (a b : string) : M bool :=
  if arg_truthy options
  then va ← member options a;
       if truthy va then vb ← member options b; mret (truthy vb) else mret false
  else mret false.

(** src/index.ts 99-106 *)
Definition trackEvent (this : Tracker) (options : arg) : M (option Response) :=
  present ← both_present options "e_c" "e_a";
  invariant present event_required;;
  delegated ← spread_with_ca options;
  track this delegated.

(** src/index.ts 116-123 *)
Definition trackContent (this : Tracker) (options : arg) : M (option Response) :=
  present ← both_present options "c_n" "c_p";
  invariant present content_required;;
  delegated ← spread_with_ca options;
  track this delegated.

(** src/index.ts 126-162 *)
Definition trackBulk (this : Tracker) (eventItems : option (list loc))
  : M (option Response) :=
  invariant (match eventItems with
             | Some items => Nat.ltb 0 (length items)
             | None => false
             end) events_required;;
  invariant (specified (JNumber (siteId this))) siteId_unspecified;;
  requests ← mapM (fun query =>
                     assign (ARef query) "idsite" (VNumber (siteId this));;
                     assign (ARef query) "rec" (VNumber (Num 1));;
                     entries ← entries_of (ARef query);
                     mret ("?" +:+
                           URLSearchParams_toString
                             (URLSearchParams (optionValuesToString entries))))
                  (default [] eventItems);
  let body :=
    JSON_stringify (JsonObject [("requests", JsonArray (map JsonString requests))]) in
  try_catch
    (response ← fetch {| req_url := trackerUrl this;
                         req_method := POST;
                         req_headers := [("Content-Type", "application/json")];
                         req_body := Some body |};
     if negb (ok response)
     then
       (hs ← listeners "error";
        when (nonzero (length hs))
          (emit "error" (VNumber (Num (status response)))));;
       mret None
     else mret (Some response))
    (fun err =>
       hs ← listeners "error";
       when (nonzero (length hs)) (emit "error" (VString (message err)));;
       mret None).

End Sdk.

(** * The calls among throwing listeners

    In the world above a listener and a callback are recorders: they take
    what they are handed and return, and the listener table changes only
    through [on].  The module [Live] drops these simplifications, for the
    statements that depend on them:
    - a listener, and the bulk callback, may throw what it likes when it
      is called ([throws], [callback_throws]); [emit] calls the listeners
      in registration order and a listener's exception leaves [emit] at
      once, the later listeners not being called;
    - a listener registered with [once] is taken off the table just before
      it is called;
    - while a call is suspended in an [await], other code runs and may
      subscribe and unsubscribe listeners: [meanwhile n] is what the
      [n]-th suspension does to the table.
    What a listener does besides returning or throwing is not part of the
    client and is not recorded. *)
Module Live.

Record State : Type := {
  base : World;
  throws : nat → value → option exn;
  once : nat → bool;
  callback_throws : nat → string → option exn;
  meanwhile : nat → list (string * nat) → list (string * nat);
  awaited : nat
}.

Definition set_base (b : World) (s : State) : State :=
  {| base := b; throws := throws s; once := once s;
     callback_throws := callback_throws s; meanwhile := meanwhile s;
     awaited := awaited s |}.

(** The state in which a suspended call goes on. *)
Definition resume (s : State) : State :=
  {| base := set_subscribers (meanwhile s (awaited s) (subscribers (base s))) (base s);
     throws := throws s; once := once s;
     callback_throws := callback_throws s; meanwhile := meanwhile s;
     awaited := S (awaited s) |}.

Definition LM (A : Type) : Type := State → completion A * State.

#[global] Instance LM_ret : MRet LM := fun _ a s => (Normal a, s).
#[global] Instance LM_bind : MBind LM := fun _ _ f m s =>
  match m s with
  | (Normal a, s') => f a s'
  | (Throw e, s') => (Throw e, s')
  end.
#[global] Instance LM_throw : MThrow exn LM := fun _ e s => (Throw e, s).

(** A step that concerns the world only, such as a read or a write of
    the caller's mapping. *)
Definition lift {A} (m : M A) : LM A := fun s =>
  match m (base s) with
  | (r, b) => (r, set_base b s)
  end.

(** [try { body } catch (err) { handler }] *)
Definition try_catch {A} (body : LM A) (handler : exn → LM A) : LM A := fun s =>
  match body s with
  | (Normal a, s') => (Normal a, s')
  | (Throw e, s') => handler e s'
  end.

(** [if (cond) { body }], and [cond && body] used as a statement. *)
Definition when {A} (cond : bool) (body : LM A) : LM unit :=
  if cond then _ ← body; mret tt else mret tt.

(** [await fetch(r)]: the request leaves, the call is suspended, and goes
    on with the answer or the failure. *)
Definition fetch (r : Request) : LM Response := fun s =>
  (server (base s) r, resume (set_base (set_fetched (fetched (base s) ++ [r]) (base s)) s)).

(** [await response.text()] *)
Definition read_text (r : Response) : LM string := fun s => (text r, resume s).

Definition listeners (ev : string) : LM (list nat) := fun s =>
  (Normal (listeners_of ev (subscribers (base s))), s).

(** [removeListener] of one registration. *)
Fixpoint unsubscribe (ev : string) (h : nat) (subs : list (string * nat))
  : list (string * nat) :=
  match subs with
  | [] => []
  | (e, h') :: rest =>
      if String.eqb e ev && Nat.eqb h' h then rest
      else (e, h') :: unsubscribe ev h rest
  end.

(** The state after listener [h] was called with [payload]: a [once]
    listener is off the table, the call is on record. *)
Definition hand (ev : string) (payload : value) (h : nat) (s : State) : State :=
  set_base
    (set_delivered (delivered (base s) ++ [(h, payload)])
       (set_subscribers
          (if once s h then unsubscribe ev h (subscribers (base s))
           else subscribers (base s))
          (base s)))
    s.

(** The loop of [emit] over the listeners it found. *)
Fixpoint call_all (ev : string) (payload : value) (hs : list nat) (s : State)
  : completion unit * State :=
  match hs with
  | [] => (Normal tt, s)
  | h :: rest =>
      match throws s h payload with
      | Some e => (Throw e, hand ev payload h s)
      | None => call_all ev payload rest (hand ev payload h s)
      end
  end.

(** [emit(ev, payload)] *)
Definition emit (ev : string) (payload : value) : LM bool :=
  hs ← listeners ev;
  match hs with
  | [] =>
      if String.eqb ev "error"
      then mthrow (Error UnhandledError "Unhandled error.")
      else mret false
  | _ => call_all ev payload hs;; mret true
  end.

(** [callback?.(data)] *)
Definition call_back (callback : option nat) (data : string) : LM unit := fun s =>
  match callback with
  | None => (Normal tt, s)
  | Some c =>
      (match callback_throws s c data with
       | Some e => Throw e
       | None => Normal tt
       end,
       set_base (set_called_back (called_back (base s) ++ [(c, data)]) (base s)) s)
  end.

End Live.

(** ** [index.ts], lines 52-125 *)
Module LiveLegacy.

(** index.ts 52-86 *)
Definition track (this : Legacy.Tracker) (options : arg) : Live.LM (option Response) :=
  options ← Live.lift (match options with
                       | AString s => l ← alloc [("url", VString s)]; mret (ARef l)
                       | _ => mret options
                       end);
  has_url ← Live.lift (if arg_truthy options
                       then url ← member options "url"; mret (truthy url)
                       else mret false);
  if negb has_url
  then assert_fail url_required
  else
    Live.lift (assign options "idsite" (VNumber (Legacy.siteId this)));;
    Live.lift (assign options "rec" (VNumber (Num 1)));;
    entries ← Live.lift (entries_of options);
    let requestUrl :=
      Legacy.trackerUrl this +:+ "?" +:+
      URLSearchParams_toString (URLSearchParams (optionValuesToString entries)) in
    Live.try_catch
      (response ← Live.fetch (fetch_get requestUrl);
       if negb (ok response)
       then
         (hs ← Live.listeners "error";
          Live.when (nonzero (length hs))
            (Live.emit "error" (VNumber (Num (status response)))));;
         mret None
       else mret (Some response))
      (fun err =>
         hs ← Live.listeners "error";
         Live.when (nonzero (length hs)) (Live.emit "error" (VString (message err)));;
         mret None).

(** index.ts 90-125 *)
Definition trackBulk (this : Legacy.Tracker) (eventItems : option (list loc))
    (callback : option nat) : Live.LM (option Response) :=
  assert_ok (match eventItems with
             | Some items => Nat.ltb 0 (length items)
             | None => false
             end) events_required;;
  assert_ok (specified (JNumber (Legacy.siteId this))) siteId_unspecified;;
  requests ← Live.lift
                (mapM (fun query =>
                         assign (ARef query) "idsite" (VNumber (Legacy.siteId this));;
                         assign (ARef query) "rec" (VNumber (Num 1));;
                         entries ← entries_of (ARef query);
                         mret ("?" +:+
                               URLSearchParams_toString
                                 (URLSearchParams (optionValuesToString entries))))
                      (default [] eventItems));
  let body :=
    JSON_stringify (JsonObject [("requests", JsonArray (map JsonString requests))]) in
  Live.try_catch
    (response ← Live.fetch {| req_url := Legacy.trackerUrl this;
                              req_method := POST;
                              req_headers := [("Content-Type", "application/json")];
                              req_body := Some body |};
     if negb (ok response)
     then
       (hs ← Live.listeners "error";
        Live.when (nonzero (length hs))
          (Live.emit "error" (VNumber (Num (status response)))));;
       mret None
     else
       responseData ← Live.read_text response;
       Live.call_back callback responseData;;
       mret None)
    (fun err =>
       hs ← Live.listeners "error";
       Live.when (nonzero (length hs)) (Live.emit "error" (VString (message err)));;
       mret None).

End LiveLegacy.

(** ** [src/index.ts], lines 48-72 and 126-162 *)
Module LiveSdk.

(** src/index.ts 48-72 *)
Definition track (this : Sdk.Tracker) (options : arg) : Live.LM (option Response) :=
  Live.lift (assign options "idsite" (VNumber (Sdk.siteId this)));;
  Live.lift (assign options "rec" (VNumber (Num 1)));;
  entries ← Live.lift (entries_of options);
  let requestUrl :=
    Sdk.trackerUrl this +:+ "?" +:+
    URLSearchParams_toString (URLSearchParams (optionValuesToString entries)) in
  Live.try_catch
    (response ← Live.fetch (fetch_get requestUrl);
     if negb (ok response)
     then
       (hs ← Live.listeners "error";
        Live.when (nonzero (length hs))
          (Live.emit "error" (VNumber (Num (status response)))));;
       mret None
     else mret (Some response))
    (fun err =>
       hs ← Live.listeners "error";
       Live.when (nonzero (length hs)) (Live.emit "error" (VString (message err)));;
       mret None).

(** src/index.ts 126-162 *)
Definition trackBulk (this : Sdk.Tracker) (eventItems : option (list loc))
  : Live.LM (option Response) :=
  invariant (match eventItems with
             | Some items => Nat.ltb 0 (length items)
             | None => false
             end) events_required;;
  invariant (specified (JNumber (Sdk.siteId this))) siteId_unspecified;;
  requests ← Live.lift
                (mapM (fun query =>
                         assign (ARef query) "idsite" (VNumber (Sdk.siteId this));;
                         assign (ARef query) "rec" (VNumber (Num 1));;
                         entries ← entries_of (ARef query);
                         mret ("?" +:+
                               URLSearchParams_toString
                                 (URLSearchParams (optionValuesToString entries))))
                      (default [] eventItems));
  let body :=
    JSON_stringify (JsonObject [("requests", JsonArray (map JsonString requests))]) in
  Live.try_catch
    (response ← Live.fetch {| req_url := Sdk.trackerUrl this;
                              req_method := POST;
                              req_headers := [("Content-Type", "application/json")];
                              req_body := Some body |};
     if negb (ok response)
     then
       (hs ← Live.listeners "error";
        Live.when (nonzero (length hs))
          (Live.emit "error" (VNumber (Num (status response)))));;
       mret None
     else mret (Some response))
    (fun err =>
       hs ← Live.listeners "error";
       Live.when (nonzero (length hs)) (Live.emit "error" (VString (message err)));;
       mret None).

End LiveSdk.

(** * Vocabulary of the statements *)

(** What the sources do around every [emit('error', ...)]. *)
Definition emit_if_listened (payload : value) : M unit :=
  hs ← listeners "error";
  when (nonzero (length hs)) (emit "error" payload).

(** The [try]/[catch] block that ends [track] and [trackBulk] in both
    files: dispatch, then report a non-success status or a failure to the
    ['error'] listeners.  [on_success] is what the caller does with a
    successful response, inside the [try]. *)
Definition dispatch {A} (r : Request) (on_success : Response -> M (option A))
  : M (option A) :=
  try_catch
    (response ← fetch r;
     if negb (ok response)
     then emit_if_listened (VNumber (Num (status response)));; mret None
     else on_success response)
    (fun err => emit_if_listened (VString (message err));; mret None).

(** The request of [trackBulk] for the given fragments. *)
Definition bulk_request (endpoint : string) (fragments : list string) : Request :=
  {| req_url := endpoint;
     req_method := POST;
     req_headers := [("Content-Type", "application/json")];
     req_body :=
       Some (JSON_stringify
               (JsonObject [("requests", JsonArray (map JsonString fragments))])) |}.

(** The callback of [eventItems.map] in [trackBulk], the same in both
    files. *)
Definition bulk_fragment (site : number) (query : loc) : M string :=
  assign (ARef query) "idsite" (VNumber site);;
  assign (ARef query) "rec" (VNumber (Num 1));;
  entries ← entries_of (ARef query);
  mret ("?" +:+
        URLSearchParams_toString (URLSearchParams (optionValuesToString entries))).


(** The pairs the helper is expected to produce: the entries whose value
    is defined, in order, with the value turned into a string. *)
Definition defined_entries (o : object) : props string :=
  omap (fun '(k, v) =>
          match v with
          | VUndefined => None
          | _ => Some (k, js_String v)
          end) o.

(** The mapping a call serializes: the caller's with the two base fields
    assigned, [idsite] first. *)
Definition with_site (site : number) (o : object) : object :=
  obj_set "rec" (VNumber (Num 1)) (obj_set "idsite" (VNumber site) o).

Definition error_listeners (w : World) : list nat :=
  listeners_of "error" (subscribers w).

(** The world after the listeners of ['error'] were handed [payload]. *)
Definition notify (payload : value) (w : World) : World :=
  set_delivered (delivered w ++ map (fun h => (h, payload)) (error_listeners w)) w.

(** The request [track] sends for the mapping it serializes. *)
Definition track_request (endpoint : string) (serialized : object) : Request :=
  fetch_get (endpoint +:+ "?" +:+ query_string serialized).

Definition fragment_of (site : number) (h : list object) (l : loc) : string :=
  "?" +:+ query_string (with_site site (default [] (h !! l))).

(** The heap after the callback ran on every item. *)
Definition injected_heap (site : number) (items : list loc) (h : list object)
  : list object :=
  imap (fun i o => if bool_decide (i ∈ items) then with_site site o else o) h.

(** What "the two base fields were injected into [o], giving [s]" means:
    [idsite] and [rec] hold the site and 1, every other key reads as in
    the caller's mapping. *)
Definition base_fields_injected (site : number) (o s : object) : Prop :=
  obj_lookup "idsite" s = Some (VNumber site)
  ∧ obj_lookup "rec" s = Some (VNumber (Num 1))
  ∧ ∀ k, k ≠ "idsite" → k ≠ "rec" → obj_lookup k s = obj_lookup k o.

(** A world to run examples in: no object yet, no listener, a network
    that answers every request with the given status and an empty body. *)
Definition quiet_world (st : Z) : World :=
  {| heap := []; subscribers := [];
     server := fun _ => Normal {| status := st; text := Normal EmptyString |};
     fetched := []; delivered := []; called_back := [] |}.

Definition sdk_example : Sdk.Tracker :=
  {| Sdk.siteId := Num 1; Sdk.trackerUrl := "http://example.com/matomo.php" |}.

Definition legacy_example : Legacy.Tracker :=
  {| Legacy.siteId := Num 1;
     Legacy.trackerUrl := "http://example.com/matomo.php";
     Legacy.usesHTTPS := false |}.

(** The parts of the world a call must not change before it dispatches. *)
Definition same_io (w w1 : World) : Prop :=
  subscribers w1 = subscribers w ∧ server w1 = server w
  ∧ fetched w1 = fetched w ∧ delivered w1 = delivered w.

(** A world with one mapping [{url: ...}], one ['error'] listener (number
    7) and a network that behaves as given. *)
Definition listened_world (net : Request → completion Response) : World :=
  {| heap := [[("url", VString "http://mywebsite.com/")]];
     subscribers := [("error", 7%nat)];
     server := net;
     fetched := []; delivered := []; called_back := [] |}.

Definition not_found : Request → completion Response :=
  fun _ => Normal {| status := 404; text := Normal EmptyString |}.

Definition unreachable : Request → completion Response :=
  fun _ => Throw (Error FetchFailure "getaddrinfo ENOTFOUND example.com").

(** The bulk example of the README: two events of one visitor. *)
Definition readme_events : list object :=
  [[("_id", VString "AA814767-7B1F-5C81-8F1D-8E47AD7D2982");
    ("cdt", VString "2018-03-22T02:32:22.867Z");
    ("e_c", VString "Buy"); ("e_a", VString "rightButton"); ("e_v", VString "2")];
   [("_id", VString "AA814767-7B1F-5C81-8F1D-8E47AD7D2982");
    ("cdt", VString "2018-03-22T02:33:52.962Z");
    ("e_c", VString "Buy"); ("e_a", VString "leftButton"); ("e_v", VString "4")]].

Definition readme_body : string :=
  "{" +:+ dquote +:+ "requests" +:+ dquote +:+ ":[" +:+ dquote +:+
  "?_id=AA814767-7B1F-5C81-8F1D-8E47AD7D2982&cdt=2018-03-22T02%3A32%3A22.867Z&e_c=Buy&e_a=rightButton&e_v=2&idsite=1&rec=1"
  +:+ dquote +:+ "," +:+ dquote +:+
  "?_id=AA814767-7B1F-5C81-8F1D-8E47AD7D2982&cdt=2018-03-22T02%3A33%3A52.962Z&e_c=Buy&e_a=leftButton&e_v=4&idsite=1&rec=1"
  +:+ dquote +:+ "]}".

(** The condition under which the constructors throw. *)
Definition rejects (siteId trackerUrl noURLValidation : jsval) : bool :=
  negb (js_truthy siteId)
  || negb (jstype_eqb (typeof siteId) TNumber || jstype_eqb (typeof siteId) TString)
  || match trackerUrl with
     | JString url => negb (string_nonempty url)
     | _ => true
     end
  || negb (js_truthy noURLValidation)
     && match trackerUrl with
        | JString url => negb (endsWith url "matomo.php" || endsWith url "piwik.php")
        | _ => true
        end.

(** The condition as C6 words it: the site identifier is missing or not
    a number/string, or the endpoint is missing or not a non-empty string,
    or the bypass flag is falsy and the endpoint has neither suffix. *)
Definition claimed_rejects (siteId trackerUrl noURLValidation : jsval) : bool :=
  match siteId with JUndefined => true | _ => false end
  || negb (jstype_eqb (typeof siteId) TNumber || jstype_eqb (typeof siteId) TString)
  || match trackerUrl with
     | JString url => negb (string_nonempty url)
     | _ => true
     end
  || negb (js_truthy noURLValidation)
     && match trackerUrl with
        | JString url => negb (endsWith url "matomo.php" || endsWith url "piwik.php")
        | _ => true
        end.

(** ** Vocabulary of the further properties *)

(** The two ways a call can end.  Rejected: an argument error (or a
    property access on a non-object), with nothing sent, nothing emitted,
    no callback called.  Resolved: exactly one request was sent.  Either
    way the listener table and the network are as before. *)
Definition rejected_before_io {A} (w : World) (run : completion A * World) : Prop :=
  ∃ e, run.1 = Throw e
       ∧ (kind e = InvalidArgument ∨ kind e = TypeError)
       ∧ fetched run.2 = fetched w
       ∧ delivered run.2 = delivered w
       ∧ called_back run.2 = called_back w
       ∧ subscribers run.2 = subscribers w.

Definition resolved_after_one_request {A} (w : World) (run : completion A * World)
  : Prop :=
  ∃ a r, run.1 = Normal a
         ∧ fetched run.2 = fetched w ++ [r]
         ∧ subscribers run.2 = subscribers w.

Definition settles {A} (w : World) (run : completion A * World) : Prop :=
  rejected_before_io w run ∨ resolved_after_one_request w run.

(** Between [w] and [w1] nothing was sent, emitted or called back, and
    the listener table and the network are the same. *)
Definition io_unchanged (w w1 : World) : Prop :=
  same_io w w1 ∧ called_back w1 = called_back w.


(** Every byte of [s] passes [p]. *)
Fixpoint string_forallb (p : ascii → bool) (s : string) : bool :=
  match s with
  | EmptyString => true
  | String c r => p c && string_forallb p r
  end.

(** The bytes a query string is made of: the ones the serializer keeps,
    and [%], [&], [+], [=]. *)
Definition query_char (c : ascii) : bool :=
  let n := N_of_ascii c in
  urlencoded_keep c || (n =? 37)%N || (n =? 38)%N || (n =? 43)%N || (n =? 61)%N.

(** The bytes of a bulk fragment: those of a query string, and [?]. *)
Definition fragment_char (c : ascii) : bool :=
  query_char c || (N_of_ascii c =? 63)%N.

(** What [optionValuesToString] makes of one value: nothing of
    [undefined], its string form of any other. *)
Definition stringified (v : value) : option string :=
  match v with
  | VUndefined => None
  | _ => Some (js_String v)
  end.

(** ** Vocabulary of the statements about throwing listeners *)

(** What the sources do around every [emit('error', ...)]. *)
Definition live_emit_if_listened (payload : value) : Live.LM unit :=
  hs ← Live.listeners "error";
  Live.when (nonzero (length hs)) (Live.emit "error" payload).

(** The [try]/[catch] block that ends [track] and [trackBulk]. *)
Definition live_dispatch {A} (r : Request) (on_success : Response → Live.LM (option A))
  : Live.LM (option A) :=
  Live.try_catch
    (response ← Live.fetch r;
     if negb (ok response)
     then live_emit_if_listened (VNumber (Num (status response)));; mret None
     else on_success response)
    (fun err => live_emit_if_listened (VString (message err));; mret None).

(** The state after each of [hs] was called with [payload] and returned. *)
Definition handed (payload : value) (hs : list nat) (s : Live.State) : Live.State :=
  foldl (fun s h => Live.hand "error" payload h s) s hs.

(** Each of the listeners [hs] returns when it is called with [payload]. *)
Definition returns (s : Live.State) (payload : value) (hs : list nat) : Prop :=
  Forall (fun h => Live.throws s h payload = None) hs.

(** The ['error'] listeners on the table when a call started in [s] goes
    on after its first [await], and after its second. *)
Definition listeners_at_failure (s : Live.State) : list nat :=
  error_listeners (Live.base (Live.resume s)).

Definition listeners_after_text (s : Live.State) : list nat :=
  error_listeners (Live.base (Live.resume (Live.resume s))).

(** A call started in [s] ended by reporting [payload] to the listeners
    [hs]: provided each of them returns, the call has no result and does
    not throw, and [payload] was handed to each of [hs], to nobody if
    there is none. *)
Definition reported_to {A} (hs : list nat) (s : Live.State)
    (run : completion (option A) * Live.State) (payload : value) : Prop :=
  returns s payload hs →
  run.1 = Normal None
  ∧ delivered (Live.base run.2)
    = delivered (Live.base s) ++ map (fun h => (h, payload)) hs
  ∧ (delivered (Live.base run.2) ≠ delivered (Live.base s) ↔ hs ≠ []).

(** How a call that sent [req] from the state [s] must end when the
    delivery fails: the status code, respectively the failure's message,
    is reported to the ['error'] listeners that are on the table when the
    failure is handled. *)
Definition live_reports_failure {A} (s : Live.State)
    (run : completion (option A) * Live.State) (req : Request) : Prop :=
  (∀ resp, server (Live.base s) req = Normal resp → ok resp = false →
     reported_to (listeners_at_failure s) s run (VNumber (Num (status resp))))
  ∧ (∀ e, server (Live.base s) req = Throw e →
     reported_to (listeners_at_failure s) s run (VString (message e))).

(** Everything but the heap is the same in [s] and [s1]. *)
Definition same_setting (s s1 : Live.State) : Prop :=
  same_io (Live.base s) (Live.base s1)
  ∧ Live.throws s1 = Live.throws s
  ∧ Live.once s1 = Live.once s
  ∧ Live.callback_throws s1 = Live.callback_throws s
  ∧ Live.meanwhile s1 = Live.meanwhile s
  ∧ Live.awaited s1 = Live.awaited s.

(** A state around a world: listeners and callback behave as given, and
    nothing else touches the table. *)
Definition among (w : World) (listener : nat → value → option exn)
    (callback : nat → string → option exn) : Live.State :=
  {| Live.base := w; Live.throws := listener; Live.once := fun _ => false;
     Live.callback_throws := callback;
     Live.meanwhile := fun _ subs => subs; Live.awaited := 0%nat |}.

(** Listeners and callbacks that return, and one that throws. *)
Definition returning {X} : nat → X → option exn := fun _ _ => None.

Definition boom : exn := Error UnhandledError "listener failed".

Definition throwing {X} : nat → X → option exn := fun _ _ => Some boom.

(** While the call waits for the network, listener 7 is unsubscribed and
    listener 9 subscribed. *)
Definition resubscribed (w : World) : Live.State :=
  {| Live.base := w; Live.throws := returning; Live.once := fun _ => false;
     Live.callback_throws := returning;
     Live.meanwhile := fun _ subs => Live.unsubscribe "error" 7%nat subs ++ [("error", 9%nat)];
     Live.awaited := 0%nat |}.

(** Nothing throws, nothing is registered with [once], and the table is
    not touched while a call is suspended. *)
Definition placid (s : Live.State) : Prop :=
  (∀ h p, Live.throws s h p = None)
  ∧ (∀ h, Live.once s h = false)
  ∧ (∀ c d, Live.callback_throws s c d = None)
  ∧ (∀ n subs, Live.meanwhile s n subs = subs).

(** A call among throwing listeners ends as the call among recorders
    does, and leaves the same world, whenever it starts placid. *)
Definition agrees {A} (live : Live.LM A) (plain : M A) : Prop :=
  ∀ s, placid s →
    (live s).1 = (plain (Live.base s)).1
    ∧ Live.base (live s).2 = (plain (Live.base s)).2
    ∧ placid (live s).2.

(** * Properties *)

Example query_string_example :
  query_string [("url", VString "http://mywebsite.com/");
                ("idsite", VNumber (Num 1)); ("rec", VNumber (Num 1))]
  = "url=http%3A%2F%2Fmywebsite.com%2F&idsite=1&rec=1".
Proof. reflexivity. Qed.

(** ** Objects *)
Section object_lemmas.
Context {V : Type}.
Implicit Types (o : props V) (k : string) (v : V).

Lemma obj_lookup_set_eq k v o : obj_lookup k (obj_set k v o) = Some v.
Proof.
  induction o as [|[k' v'] r IH]; simpl.
  - by rewrite String.eqb_refl.
  - destruct (String.eqb_spec k k') as [->|Hne]; simpl.
    + by rewrite String.eqb_refl.
    + by destruct (String.eqb_spec k k').
Qed.

Lemma obj_lookup_set_ne k k' v o :
  k ≠ k' → obj_lookup k' (obj_set k v o) = obj_lookup k' o.
Proof.
  intros Hne. induction o as [|[k0 v0] r IH]; simpl.
  - by destruct (String.eqb_spec k' k) as [->|_].
  - destruct (String.eqb_spec k k0) as [->|Hk]; simpl.
    + by destruct (String.eqb_spec k' k0) as [->|_].
    + by rewrite IH.
Qed.

Lemma obj_set_same k v o : obj_lookup k o = Some v → obj_set k v o = o.
Proof.
  induction o as [|[k0 v0] r IH]; simpl; [done|].
  destruct (String.eqb_spec k k0) as [->|Hk]; intros H.
  - by simplify_eq.
  - by rewrite IH.
Qed.

Lemma obj_lookup_None k o : obj_lookup k o = None ↔ k ∉ keys o.
Proof.
  unfold keys. induction o as [|[k0 v0] r IH]; simpl.
  - split; [intros _; apply not_elem_of_nil | done].
  - rewrite not_elem_of_cons.
    destruct (String.eqb_spec k k0) as [->|Hk].
    + split; [done | by intros [? _]].
    + rewrite IH. tauto.
Qed.

Lemma obj_lookup_elem k v o : obj_lookup k o = Some v → (k, v) ∈ o.
Proof.
  induction o as [|[k0 v0] r IH]; simpl; [done|].
  destruct (String.eqb_spec k k0) as [->|Hk]; intros H.
  - simplify_eq. apply list_elem_of_here.
  - apply list_elem_of_further; auto.
Qed.

Lemma obj_set_fresh k v o : k ∉ keys o → obj_set k v o = o ++ [(k, v)].
Proof.
  unfold keys. induction o as [|[k0 v0] r IH]; simpl; [done|].
  rewrite not_elem_of_cons. intros [Hk Hr].
  destruct (String.eqb_spec k k0); [done|]. by rewrite IH.
Qed.

Lemma keys_obj_set_present k v o : k ∈ keys o → keys (obj_set k v o) = keys o.
Proof.
  unfold keys. induction o as [|[k0 v0] r IH]; simpl.
  - by intros ?%elem_of_nil.
  - destruct (String.eqb_spec k k0) as [->|Hk]; [done|].
    rewrite elem_of_cons. intros [?|Hin]; [done|].
    rewrite !fmap_cons. by rewrite IH.
Qed.

Lemma NoDup_keys_obj_set k v o : NoDup (keys o) → NoDup (keys (obj_set k v o)).
Proof.
  intros Hnd. destruct (decide (k ∈ keys o)) as [Hin|Hout].
  - by rewrite keys_obj_set_present.
  - rewrite obj_set_fresh by done. unfold keys in *. rewrite fmap_app. simpl.
    apply NoDup_app. split_and!; [done| |apply NoDup_singleton].
    intros x Hx ->%list_elem_of_singleton. done.
Qed.
End object_lemmas.

(** ** [optionValuesToString] *)

Lemma keys_defined_entries_subseteq o : keys (defined_entries o) ⊆ keys o.
Proof.
  unfold keys, defined_entries. induction o as [|[k v] r IH]; simpl; [done|].
  destruct v; simpl; set_solver.
Qed.

Lemma NoDup_keys_defined_entries o :
  NoDup (keys o) → NoDup (keys (defined_entries o)).
Proof.
  unfold keys, defined_entries. induction o as [|[k v] r IH]; simpl; [done|].
  rewrite NoDup_cons. intros [Hk Hr].
  pose proof (keys_defined_entries_subseteq r) as Hsub.
  unfold keys, defined_entries in Hsub.
  destruct v; simpl; [by apply IH|..]; apply NoDup_cons; split; auto.
Qed.

Lemma obj_lookup_defined_entries (o : object) k v :
  obj_lookup k o = Some v → v ≠ VUndefined →
  obj_lookup k (defined_entries o) = Some (js_String v).
Proof.
  unfold defined_entries. induction o as [|[k0 v0] r IH]; simpl; [done|].
  destruct (String.eqb_spec k k0) as [->|Hk]; intros H Hv.
  - simplify_eq. destruct v; [done|..]; simpl; by rewrite String.eqb_refl.
  - destruct v0; simpl; [by apply IH|..];
      (destruct (String.eqb_spec k k0); [done|by apply IH]).
Qed.

Lemma obj_lookup_fresh {V} k (v : V) (o : props V) :
  NoDup (keys o) → (k, v) ∈ o → obj_lookup k o = Some v.
Proof.
  unfold keys. induction o as [|[k0 v0] r IH]; simpl.
  - by intros _ ?%elem_of_nil.
  - rewrite NoDup_cons, elem_of_cons. intros [Hk0 Hr] [Heq|Hin].
    + simplify_eq. by rewrite String.eqb_refl.
    + destruct (String.eqb_spec k k0) as [->|Hk]; [|by apply IH].
      exfalso. apply Hk0. apply list_elem_of_fmap. by exists (k0, v).
Qed.

Lemma defined_entries_lookup (o : object) k s :
  NoDup (keys o) → (k, s) ∈ defined_entries o →
  ∃ v, obj_lookup k o = Some v ∧ v ≠ VUndefined ∧ s = js_String v.
Proof.
  intros Hnd Hin. unfold defined_entries in Hin.
  apply list_elem_of_omap in Hin as ([k' v] & Hin & Hsome).
  exists v. destruct v; simplify_eq; (split; [by apply obj_lookup_fresh|done]).
Qed.

Lemma optionValuesToString_fold (o : object) (acc : props string) :
  NoDup (keys o) →
  (∀ k, k ∈ keys o → k ∉ keys acc) →
  fold_left
    (fun acc '(key, value) =>
       match value with
       | VUndefined => acc
       | _ => obj_set key (js_String value) acc
       end) o acc
  = acc ++ defined_entries o.
Proof.
  revert acc. induction o as [|[k v] r IH]; intros acc Hnd Hdisj; simpl.
  - by rewrite app_nil_r.
  - unfold keys in Hnd. simpl in Hnd. apply NoDup_cons in Hnd as [Hk Hr].
    assert (k ∉ keys acc) as Hacc by (apply Hdisj; unfold keys; simpl; set_solver).
    assert (∀ k', k' ∈ keys r → k' ∉ keys acc) as Hdisj'
        by (intros k' Hk'; apply Hdisj; unfold keys in *; simpl; set_solver).
    destruct v as [|n|s]; simpl.
    + by apply IH.
    + rewrite IH; [|done|].
      * rewrite obj_set_fresh by done. by rewrite <- app_assoc.
      * intros k' Hk'. rewrite obj_set_fresh by done.
        unfold keys in *. rewrite fmap_app. simpl. set_solver.
    + rewrite IH; [|done|].
      * rewrite obj_set_fresh by done. by rewrite <- app_assoc.
      * intros k' Hk'. rewrite obj_set_fresh by done.
        unfold keys in *. rewrite fmap_app. simpl. set_solver.
Qed.

Lemma optionValuesToString_defined_entries (o : object) :
  NoDup (keys o) → optionValuesToString o = defined_entries o.
Proof.
  intros Hnd. unfold optionValuesToString, Object_entries.
  rewrite optionValuesToString_fold; [done|done|].
  intros k _. unfold keys. simpl. apply not_elem_of_nil.
Qed.

(** ** Running the primitives *)

Lemma with_site_idsite site o :
  obj_lookup "idsite" (with_site site o) = Some (VNumber site).
Proof.
  unfold with_site. rewrite obj_lookup_set_ne by done. apply obj_lookup_set_eq.
Qed.

Lemma with_site_rec site o :
  obj_lookup "rec" (with_site site o) = Some (VNumber (Num 1)).
Proof. apply obj_lookup_set_eq. Qed.

Lemma with_site_other site o k :
  k ≠ "idsite" → k ≠ "rec" → obj_lookup k (with_site site o) = obj_lookup k o.
Proof.
  intros H1 H2. unfold with_site. by rewrite !obj_lookup_set_ne.
Qed.

Lemma with_site_idemp site o : with_site site (with_site site o) = with_site site o.
Proof.
  unfold with_site at 1.
  rewrite (obj_set_same "idsite") by apply with_site_idsite.
  apply obj_set_same, with_site_rec.
Qed.

Lemma NoDup_keys_with_site site o : NoDup (keys o) → NoDup (keys (with_site site o)).
Proof. intros H. by do 2 apply NoDup_keys_obj_set. Qed.

Lemma bind_normal {A B} (m : M A) (f : A → M B) w a w' :
  m w = (Normal a, w') → (m ≫= f) w = f a w'.
Proof. intros H. unfold mbind, M_bind. by rewrite H. Qed.

Lemma bind_throw {A B} (m : M A) (f : A → M B) w e w' :
  m w = (Throw e, w') → (m ≫= f) w = (Throw e, w').
Proof. intros H. unfold mbind, M_bind. by rewrite H. Qed.

Lemma set_heap_id w : set_heap (heap w) w = w.
Proof. by destruct w. Qed.

Lemma notify_no_listener p w : error_listeners w = [] → notify p w = w.
Proof.
  unfold notify. intros ->. simpl. rewrite app_nil_r. by destruct w.
Qed.

Lemma emit_if_listened_run p w : emit_if_listened p w = (Normal tt, notify p w).
Proof.
  unfold emit_if_listened. erewrite bind_normal; [|reflexivity]. cbv beta.
  fold (error_listeners w).
  destruct (error_listeners w) as [|h hs] eqn:E.
  - by rewrite notify_no_listener.
  - unfold when, nonzero. cbn [length Nat.eqb negb].
    unfold emit. erewrite bind_normal.
    2:{ erewrite bind_normal; [|reflexivity]. cbv beta.
        fold (error_listeners w). rewrite E. reflexivity. }
    unfold notify. by rewrite E.
Qed.

Section dispatch_lemmas.
Context {A : Type}.
Implicit Types (r : Request) (k : Response → M (option A)).

Lemma dispatch_not_ok r k w resp :
  server w r = Normal resp → ok resp = false →
  dispatch r k w
  = (Normal None,
     notify (VNumber (Num (status resp))) (set_fetched (fetched w ++ [r]) w)).
Proof.
  intros Hs Hok.
  unfold dispatch, try_catch, fetch, mbind, M_bind, mret, M_ret.
  rewrite Hs, Hok. simpl. by rewrite emit_if_listened_run.
Qed.

Lemma dispatch_failed r k w e :
  server w r = Throw e →
  dispatch r k w
  = (Normal None,
     notify (VString (message e)) (set_fetched (fetched w ++ [r]) w)).
Proof.
  intros Hs.
  unfold dispatch, try_catch, fetch, mbind, M_bind, mret, M_ret.
  rewrite Hs. by rewrite emit_if_listened_run.
Qed.

Lemma dispatch_ok_return r w resp :
  server w r = Normal resp → ok resp = true →
  dispatch (A := Response) r (fun response => mret (Some response)) w
  = (Normal (Some resp), set_fetched (fetched w ++ [r]) w).
Proof.
  intros Hs Hok.
  unfold dispatch, try_catch, fetch, mbind, M_bind, mret, M_ret.
  by rewrite Hs, Hok.
Qed.

(** Whatever the network does, a dispatch logs exactly its request and
    leaves the heap, the listener table and the network alone. *)
Lemma dispatch_fetched r k w :
  (∀ resp w1, fetched (k resp w1).2 = fetched w1) →
  fetched (dispatch r k w).2 = fetched w ++ [r].
Proof.
  intros Hk.
  unfold dispatch, try_catch, fetch, mbind, M_bind, mret, M_ret.
  destruct (server w r) as [resp|e] eqn:Hs.
  - destruct (ok resp); simpl.
    + specialize (Hk resp (set_fetched (fetched w ++ [r]) w)).
      destruct (k resp _) as [[a|e] w2]; simpl in *.
      * done.
      * by rewrite emit_if_listened_run.
    + by rewrite emit_if_listened_run.
  - by rewrite emit_if_listened_run.
Qed.
End dispatch_lemmas.

Lemma assign_run l k v o w :
  heap w !! l = Some o →
  assign (ARef l) k v w = (Normal tt, set_heap (<[l := obj_set k v o]> (heap w)) w).
Proof.
  intros H. unfold assign, deref, store, mbind, M_bind. cbv beta. by rewrite H.
Qed.

Lemma assign_dangling l k v w :
  heap w !! l = None → assign (ARef l) k v w = (Throw not_an_object, w).
Proof.
  intros H. unfold assign, deref, store, mbind, M_bind. cbv beta. by rewrite H.
Qed.

(** The three statements that open the serialization in [track] and in
    the [trackBulk] callback, run on an allocated mapping. *)
Lemma inject_run {B} site l o (K : object → M B) w :
  heap w !! l = Some o →
  (assign (ARef l) "idsite" (VNumber site);;
   assign (ARef l) "rec" (VNumber (Num 1));;
   s ← entries_of (ARef l); K s) w
  = K (with_site site o) (set_heap (<[l := with_site site o]> (heap w)) w).
Proof.
  intros H. pose proof (lookup_lt_Some _ _ _ H) as Hlt.
  unfold mbind at 1. unfold M_bind at 1.
  rewrite (assign_run _ _ _ o) by done.
  unfold mbind at 1. unfold M_bind at 1.
  rewrite (assign_run _ _ _ (obj_set "idsite" (VNumber site) o))
    by (simpl; by apply list_lookup_insert_eq).
  unfold mbind at 1. unfold M_bind at 1.
  unfold entries_of, deref. simpl.
  rewrite list_insert_insert_eq.
  rewrite list_lookup_insert_eq by done. done.
Qed.

(** ** Running [track] *)

Lemma member_run l k (o : object) w :
  heap w !! l = Some o → member (ARef l) k w = (Normal (obj_get k o), w).
Proof.
  intros H. unfold member, deref, mbind, M_bind, mret, M_ret. cbv beta.
  by rewrite H.
Qed.

Lemma insert_fresh_slot {X} (h : list X) (x y : X) :
  <[length h := y]> (h ++ [x]) = h ++ [y].
Proof.
  rewrite insert_app_r_alt by lia. by rewrite Nat.sub_diag.
Qed.

Lemma Sdk_track_run this l (o : object) w :
  heap w !! l = Some o →
  Sdk.track this (ARef l) w
  = dispatch (track_request (Sdk.trackerUrl this) (with_site (Sdk.siteId this) o))
      (fun response => mret (Some response))
      (set_heap (<[l := with_site (Sdk.siteId this) o]> (heap w)) w).
Proof.
  intros H. unfold Sdk.track.
  by rewrite (inject_run (Sdk.siteId this) l o) by done.
Qed.

Lemma Legacy_track_run this l (o : object) w :
  heap w !! l = Some o → truthy (obj_get "url" o) = true →
  Legacy.track this (ARef l) w
  = dispatch (track_request (Legacy.trackerUrl this) (with_site (Legacy.siteId this) o))
      (fun response => mret (Some response))
      (set_heap (<[l := with_site (Legacy.siteId this) o]> (heap w)) w).
Proof.
  intros H Hurl. unfold Legacy.track.
  erewrite bind_normal; [|reflexivity]. cbv beta.
  erewrite bind_normal;
    [|cbn [arg_truthy]; erewrite bind_normal; [reflexivity | by apply member_run]].
  cbv beta. rewrite Hurl. cbn [negb].
  by rewrite (inject_run (Legacy.siteId this) l o) by done.
Qed.

Lemma Legacy_track_reject_ref this l (o : object) w :
  heap w !! l = Some o → truthy (obj_get "url" o) = false →
  Legacy.track this (ARef l) w = (Throw (Error InvalidArgument url_required), w).
Proof.
  intros H Hurl. unfold Legacy.track.
  erewrite bind_normal; [|reflexivity]. cbv beta.
  erewrite bind_normal;
    [|cbn [arg_truthy]; erewrite bind_normal; [reflexivity | by apply member_run]].
  cbv beta. by rewrite Hurl.
Qed.

Lemma Legacy_track_reject_undefined this w :
  Legacy.track this AUndefined w = (Throw (Error InvalidArgument url_required), w).
Proof. reflexivity. Qed.

Lemma Legacy_track_run_string this u w :
  string_nonempty u = true →
  Legacy.track this (AString u) w
  = dispatch
      (track_request (Legacy.trackerUrl this)
         (with_site (Legacy.siteId this) [("url", VString u)]))
      (fun response => mret (Some response))
      (set_heap (heap w ++ [with_site (Legacy.siteId this) [("url", VString u)]]) w).
Proof.
  intros Hu.
  transitivity (Legacy.track this (ARef (length (heap w)))
                  (set_heap (heap w ++ [[("url", VString u)]]) w));
    [reflexivity|].
  rewrite (Legacy_track_run this _ [("url", VString u)]); simpl heap.
  - by rewrite insert_fresh_slot.
  - rewrite lookup_app_r by lia. by rewrite Nat.sub_diag.
  - done.
Qed.

Lemma Sdk_trackUrl_run this l (o : object) w :
  heap w !! l = Some o → truthy (obj_get "url" o) = true →
  Sdk.trackUrl this (ARef l) w = Sdk.track this (ARef l) w.
Proof.
  intros H Hurl. unfold Sdk.trackUrl.
  erewrite bind_normal; [|reflexivity]. cbv beta.
  erewrite bind_normal;
    [|cbn [arg_truthy]; erewrite bind_normal; [reflexivity | by apply member_run]].
  cbv beta. by rewrite Hurl.
Qed.

Lemma Sdk_trackUrl_reject_ref this l (o : object) w :
  heap w !! l = Some o → truthy (obj_get "url" o) = false →
  Sdk.trackUrl this (ARef l) w = (Throw (Error InvalidArgument url_required), w).
Proof.
  intros H Hurl. unfold Sdk.trackUrl.
  erewrite bind_normal; [|reflexivity]. cbv beta.
  erewrite bind_normal;
    [|cbn [arg_truthy]; erewrite bind_normal; [reflexivity | by apply member_run]].
  cbv beta. by rewrite Hurl.
Qed.

Lemma Sdk_trackUrl_reject_undefined this w :
  Sdk.trackUrl this AUndefined w = (Throw (Error InvalidArgument url_required), w).
Proof. reflexivity. Qed.

Lemma Sdk_trackUrl_run_string this u w :
  string_nonempty u = true →
  Sdk.trackUrl this (AString u) w
  = dispatch
      (track_request (Sdk.trackerUrl this)
         (with_site (Sdk.siteId this) [("url", VString u)]))
      (fun response => mret (Some response))
      (set_heap (heap w ++ [with_site (Sdk.siteId this) [("url", VString u)]]) w).
Proof.
  intros Hu.
  transitivity (Sdk.trackUrl this (ARef (length (heap w)))
                  (set_heap (heap w ++ [[("url", VString u)]]) w));
    [reflexivity|].
  assert ((set_heap (heap w ++ [[("url", VString u)]]) w).(heap) !! length (heap w)
          = Some [("url", VString u)]) as Hl.
  { simpl. rewrite lookup_app_r by lia. by rewrite Nat.sub_diag. }
  rewrite (Sdk_trackUrl_run this _ _ _ Hl) by done.
  rewrite (Sdk_track_run this _ _ _ Hl). simpl heap.
  by rewrite insert_fresh_slot.
Qed.

(** ** Running [trackEvent] and [trackContent] *)

Lemma both_present_run l a b (o : object) w :
  heap w !! l = Some o →
  Sdk.both_present (ARef l) a b w
  = (Normal (truthy (obj_get a o) && truthy (obj_get b o)), w).
Proof.
  intros H. unfold Sdk.both_present. cbn [arg_truthy].
  erewrite bind_normal by (by apply member_run). cbv beta.
  destruct (truthy (obj_get a o)); [|done].
  by erewrite bind_normal by (by apply member_run).
Qed.

Lemma spread_with_ca_run l (o : object) w :
  heap w !! l = Some o →
  Sdk.spread_with_ca (ARef l) w
  = (Normal (ARef (length (heap w))),
     set_heap (heap w ++ [obj_set "ca" (VNumber (Num 1)) o]) w).
Proof.
  intros H. unfold Sdk.spread_with_ca.
  erewrite bind_normal; [|unfold entries_of, deref; by rewrite H].
  reflexivity.
Qed.

(** ** Running the [trackBulk] callback over the items *)

Lemma injected_heap_lookup site items h i :
  injected_heap site items h !! i
  = (fun o => if bool_decide (i ∈ items) then with_site site o else o) <$> h !! i.
Proof. unfold injected_heap. by rewrite list_lookup_imap. Qed.

Lemma injected_heap_length site items h :
  length (injected_heap site items h) = length h.
Proof. unfold injected_heap. by rewrite length_imap. Qed.

Lemma injected_heap_nil site h : injected_heap site [] h = h.
Proof.
  apply list_eq. intros i. rewrite injected_heap_lookup.
  by destruct (h !! i).
Qed.

Lemma injected_heap_cons site l items h (o : object) :
  h !! l = Some o →
  injected_heap site items (<[l := with_site site o]> h)
  = injected_heap site (l :: items) h.
Proof.
  intros H. apply list_eq. intros i. rewrite !injected_heap_lookup.
  destruct (decide (i = l)) as [->|Hne].
  - rewrite list_lookup_insert_eq by (by eapply lookup_lt_Some).
    rewrite H. simpl.
    rewrite (bool_decide_eq_true_2 (l ∈ l :: items)) by set_solver.
    case_bool_decide; [by rewrite with_site_idemp | done].
  - rewrite list_lookup_insert_ne by done.
    destruct (h !! i) as [oi|]; simpl; [|done].
    f_equal. repeat case_bool_decide; set_solver.
Qed.

Lemma fragment_of_insert site l (o : object) h l' :
  h !! l = Some o →
  fragment_of site (<[l := with_site site o]> h) l' = fragment_of site h l'.
Proof.
  intros H. unfold fragment_of.
  destruct (decide (l' = l)) as [->|Hne].
  - rewrite list_lookup_insert_eq by (by eapply lookup_lt_Some).
    rewrite H. simpl. by rewrite with_site_idemp.
  - by rewrite list_lookup_insert_ne.
Qed.

Lemma bulk_fragment_run site l (o : object) w :
  heap w !! l = Some o →
  bulk_fragment site l w
  = (Normal (fragment_of site (heap w) l),
     set_heap (<[l := with_site site o]> (heap w)) w).
Proof.
  intros H. unfold bulk_fragment.
  rewrite (inject_run site l o) by done.
  unfold fragment_of, query_string. by rewrite H.
Qed.

Lemma mapM_bulk_fragment_run site items w :
  Forall (fun l => is_Some (heap w !! l)) items →
  mapM (bulk_fragment site) items w
  = (Normal (map (fragment_of site (heap w)) items),
     set_heap (injected_heap site items (heap w)) w).
Proof.
  revert w. induction items as [|l items IH]; intros w Hall.
  - simpl. unfold mret, M_ret. by rewrite injected_heap_nil, set_heap_id.
  - apply Forall_cons in Hall as [[o Ho] Hall].
    cbn [mapM].
    erewrite bind_normal by (by apply bulk_fragment_run). cbv beta.
    erewrite bind_normal.
    2:{ apply IH. simpl heap. eapply Forall_impl; [exact Hall|].
        intros l' [o' Ho']. simpl.
        destruct (decide (l' = l)) as [->|Hne].
        - rewrite list_lookup_insert_eq by (by eapply lookup_lt_Some). eauto.
        - rewrite list_lookup_insert_ne by done. eauto. }
    cbv beta. unfold mret, M_ret. simpl heap.
    rewrite (injected_heap_cons site l items (heap w) o) by done.
    do 2 f_equal. simpl. f_equal.
    apply map_ext. intros l'. by apply fragment_of_insert.
Qed.

(** * The claims *)

Lemma with_site_injected site o : base_fields_injected site o (with_site site o).
Proof.
  split_and!; [apply with_site_idsite | apply with_site_rec |].
  intros k ??. by apply with_site_other.
Qed.

Lemma track_dispatch_fetched r w :
  fetched (dispatch (A := Response) r (fun response => mret (Some response)) w).2
  = fetched w ++ [r].
Proof. by apply dispatch_fetched. Qed.

(** C1. Whenever [track] serializes a mapping (index.ts: the caller's
    mapping has a truthy [url], or the argument is a non-empty string that
    becomes [{url: ...}]; src/index.ts: any mapping given to [track], and
    the string case through [trackUrl]), the request URL is built from the
    mapping after [idsite] was set to the client's site id and [rec] to 1,
    whatever the caller had put there, and every other field is read as
    the caller supplied it. *)
Theorem track_serializes_injected_mapping :
  (∀ (this : Sdk.Tracker) (l : loc) (o : object) (w : World),
     heap w !! l = Some o →
     base_fields_injected (Sdk.siteId this) o (with_site (Sdk.siteId this) o)
     ∧ fetched (Sdk.track this (ARef l) w).2
       = fetched w ++
         [fetch_get (Sdk.trackerUrl this +:+ "?" +:+
            URLSearchParams_toString
              (URLSearchParams
                 (optionValuesToString (with_site (Sdk.siteId this) o))))])
  ∧ (∀ (this : Sdk.Tracker) (u : string) (w : World),
       string_nonempty u = true →
       base_fields_injected (Sdk.siteId this) [("url", VString u)]
         (with_site (Sdk.siteId this) [("url", VString u)])
       ∧ fetched (Sdk.trackUrl this (AString u) w).2
         = fetched w ++
           [fetch_get (Sdk.trackerUrl this +:+ "?" +:+
              URLSearchParams_toString
                (URLSearchParams
                   (optionValuesToString
                      (with_site (Sdk.siteId this) [("url", VString u)]))))])
  ∧ (∀ (this : Legacy.Tracker) (l : loc) (o : object) (w : World),
       heap w !! l = Some o → truthy (obj_get "url" o) = true →
       base_fields_injected (Legacy.siteId this) o (with_site (Legacy.siteId this) o)
       ∧ fetched (Legacy.track this (ARef l) w).2
         = fetched w ++
           [fetch_get (Legacy.trackerUrl this +:+ "?" +:+
              URLSearchParams_toString
                (URLSearchParams
                   (optionValuesToString (with_site (Legacy.siteId this) o))))])
  ∧ (∀ (this : Legacy.Tracker) (u : string) (w : World),
       string_nonempty u = true →
       base_fields_injected (Legacy.siteId this) [("url", VString u)]
         (with_site (Legacy.siteId this) [("url", VString u)])
       ∧ fetched (Legacy.track this (AString u) w).2
         = fetched w ++
           [fetch_get (Legacy.trackerUrl this +:+ "?" +:+
              URLSearchParams_toString
                (URLSearchParams
                   (optionValuesToString
                      (with_site (Legacy.siteId this) [("url", VString u)]))))]).
Proof.
  split_and!.
  - intros this l o w H. split; [apply with_site_injected|].
    rewrite (Sdk_track_run this l o) by done. by rewrite track_dispatch_fetched.
  - intros this u w Hu. split; [apply with_site_injected|].
    rewrite Sdk_trackUrl_run_string by done. by rewrite track_dispatch_fetched.
  - intros this l o w H Hurl. split; [apply with_site_injected|].
    rewrite (Legacy_track_run this l o) by done. by rewrite track_dispatch_fetched.
  - intros this u w Hu. split; [apply with_site_injected|].
    rewrite Legacy_track_run_string by done. by rewrite track_dispatch_fetched.
Qed.

(** A caller's mapping that already carries [idsite] and [rec]: both are
    overwritten, [url] and [action_name] are kept. *)
Lemma track_serializes_injected_mapping_witness :
  let o := [("idsite", VNumber (Num 9)); ("url", VString "http://a.b/");
            ("rec", VString "no"); ("action_name", VString "Home")] in
  let w := set_heap [o] (quiet_world 200) in
  fetched (Sdk.track sdk_example (ARef 0%nat) w).2
  = [fetch_get
       "http://example.com/matomo.php?idsite=1&url=http%3A%2F%2Fa.b%2F&rec=1&action_name=Home"]
  ∧ fetched (Sdk.trackUrl sdk_example (AString "http://a.b/") w).2
    = [fetch_get "http://example.com/matomo.php?url=http%3A%2F%2Fa.b%2F&idsite=1&rec=1"]
  ∧ fetched (Legacy.track legacy_example (ARef 0%nat) w).2
    = [fetch_get
         "http://example.com/matomo.php?idsite=1&url=http%3A%2F%2Fa.b%2F&rec=1&action_name=Home"]
  ∧ fetched (Legacy.track legacy_example (AString "http://a.b/") w).2
    = [fetch_get "http://example.com/matomo.php?url=http%3A%2F%2Fa.b%2F&idsite=1&rec=1"].
Proof.
  intros o w.
  destruct track_serializes_injected_mapping as (Hsdk & Hurl & Hleg & Hstr).
  split_and!.
  - exact (proj2 (Hsdk sdk_example 0%nat o w eq_refl)).
  - exact (proj2 (Hurl sdk_example "http://a.b/" w eq_refl)).
  - exact (proj2 (Hleg legacy_example 0%nat o w eq_refl eq_refl)).
  - exact (proj2 (Hstr legacy_example "http://a.b/" w eq_refl)).
Defined.

(** C5. A client constructed with [(1, "http://example.com/matomo.php")]
    that is asked to track the string ["http://mywebsite.com/"] issues
    exactly one GET request, to the endpoint followed by
    [?url=http%3A%2F%2Fmywebsite.com%2F&idsite=1&rec=1]: through [track]
    in index.ts, through [trackUrl] in src/index.ts. *)
Theorem track_mywebsite_request :
  Legacy.MatomoTracker (JNumber (Num 1)) (JString "http://example.com/matomo.php")
    JUndefined = Normal legacy_example
  ∧ Sdk.MatomoTracker (JNumber (Num 1)) (JString "http://example.com/matomo.php")
      JUndefined = Normal sdk_example
  ∧ ∀ w : World,
      fetched (Legacy.track legacy_example (AString "http://mywebsite.com/") w).2
      = fetched w ++
        [{| req_url :=
              "http://example.com/matomo.php?url=http%3A%2F%2Fmywebsite.com%2F&idsite=1&rec=1";
            req_method := GET; req_headers := []; req_body := None |}]
      ∧ fetched (Sdk.trackUrl sdk_example (AString "http://mywebsite.com/") w).2
        = fetched w ++
          [{| req_url :=
                "http://example.com/matomo.php?url=http%3A%2F%2Fmywebsite.com%2F&idsite=1&rec=1";
              req_method := GET; req_headers := []; req_body := None |}].
Proof.
  split_and!; [reflexivity | reflexivity |].
  intros w. split.
  - rewrite Legacy_track_run_string by done. by rewrite track_dispatch_fetched.
  - rewrite Sdk_trackUrl_run_string by done. by rewrite track_dispatch_fetched.
Qed.

(** C7. For a mapping (its keys pairwise distinct), a key whose value is
    [undefined] is not a parameter of the query string at all, be it with
    an empty value or with the text "undefined"; a key with a number or
    string value is a parameter whose value is the string form of that
    value; the parameters are exactly the defined entries, in order. *)
Theorem optionValuesToString_omits_undefined (o : object) :
  NoDup (keys o) →
  (∀ k, obj_lookup k o = Some VUndefined →
        ∀ s, (k, s) ∉ URLSearchParams (optionValuesToString o))
  ∧ (∀ k n, obj_lookup k o = Some (VNumber n) →
        obj_lookup k (optionValuesToString o) = Some (number_to_string n))
  ∧ (∀ k s, obj_lookup k o = Some (VString s) →
        obj_lookup k (optionValuesToString o) = Some s)
  ∧ query_string o
    = String.concat "&"
        (map (fun '(name, v) => urlencoded name +:+ "=" +:+ urlencoded v)
             (defined_entries o)).
Proof.
  intros Hnd. unfold query_string.
  rewrite (optionValuesToString_defined_entries o Hnd).
  split_and!.
  - intros k Hk s Hin. unfold URLSearchParams in Hin.
    apply (defined_entries_lookup o k s Hnd) in Hin as (v & Hv & Hdef & _).
    rewrite Hk in Hv. by simplify_eq.
  - intros k n Hk. by apply (obj_lookup_defined_entries o k (VNumber n)).
  - intros k s Hk. by apply (obj_lookup_defined_entries o k (VString s)).
  - reflexivity.
Qed.

Lemma example_keys_NoDup :
  NoDup (keys [("cvar", VUndefined); ("h", VNumber (Num 12));
               ("action_name", VString "My page")]).
Proof. unfold keys. simpl. repeat constructor; set_solver. Qed.

Lemma optionValuesToString_omits_undefined_witness :
  let o := [("cvar", VUndefined); ("h", VNumber (Num 12));
            ("action_name", VString "My page")] in
  (∀ s, ("cvar", s) ∉ URLSearchParams (optionValuesToString o))
  ∧ obj_lookup "h" (optionValuesToString o) = Some "12"
  ∧ obj_lookup "action_name" (optionValuesToString o) = Some "My page"
  ∧ query_string o = "h=12&action_name=My+page".
Proof.
  intros o.
  destruct (optionValuesToString_omits_undefined o example_keys_NoDup)
    as (Hundef & Hnum & Hstr & Hq).
  split_and!.
  - exact (Hundef "cvar" eq_refl).
  - exact (Hnum "h" (Num 12) eq_refl).
  - exact (Hstr "action_name" "My page" eq_refl).
  - exact Hq.
Defined.

(** ** Delivery failures *)

Lemma same_io_refl w : same_io w w.
Proof. by repeat split. Qed.

Lemma same_io_set_heap h w : same_io w (set_heap h w).
Proof. by repeat split. Qed.

Lemma same_io_trans w w1 w2 : same_io w w1 → same_io w1 w2 → same_io w w2.
Proof.
  intros (?&?&?&?) (?&?&?&?). repeat split; congruence.
Qed.

Lemma app_singleton_ne {X} (l : list X) x : l ≠ l ++ [x].
Proof.
  intros H. apply (f_equal length) in H. rewrite length_app in H. simpl in H. lia.
Qed.

Lemma app_map_ne_iff {X Y} (l : list Y) (f : X → Y) (hs : list X) :
  l ++ map f hs ≠ l ↔ hs ≠ [].
Proof.
  split.
  - intros H ->. simpl in H. by rewrite app_nil_r in H.
  - intros H Heq. apply (f_equal length) in Heq.
    rewrite length_app, length_map in Heq. destruct hs; simpl in *; [done|lia].
Qed.

Lemma bulk_fragment_frame site l w : same_io w (bulk_fragment site l w).2.
Proof.
  destruct (heap w !! l) as [o|] eqn:H.
  - rewrite (bulk_fragment_run site l o) by done. apply same_io_set_heap.
  - unfold bulk_fragment.
    erewrite bind_throw by (by apply assign_dangling). apply same_io_refl.
Qed.

Lemma mapM_bulk_fragment_frame site items w :
  same_io w (mapM (bulk_fragment site) items w).2.
Proof.
  revert w. induction items as [|l items IH]; intros w; [apply same_io_refl|].
  cbn [mapM]. pose proof (bulk_fragment_frame site l w) as Hl.
  destruct (bulk_fragment site l w) as [[frag|e] w1] eqn:E1; simpl in Hl.
  - erewrite bind_normal by done. cbv beta.
    specialize (IH w1).
    destruct (mapM (bulk_fragment site) items w1) as [[frags|e] w2] eqn:E2;
      simpl in IH.
    + erewrite bind_normal by done. by eapply same_io_trans.
    + erewrite bind_throw by done. by eapply same_io_trans.
  - by erewrite bind_throw by done.
Qed.

Lemma Sdk_track_dangling this l w :
  heap w !! l = None → Sdk.track this (ARef l) w = (Throw not_an_object, w).
Proof.
  intros H. unfold Sdk.track. by erewrite bind_throw by (by apply assign_dangling).
Qed.

Lemma Legacy_track_dangling this l w :
  heap w !! l = None → Legacy.track this (ARef l) w = (Throw not_an_object, w).
Proof.
  intros H. unfold Legacy.track.
  erewrite bind_normal; [|reflexivity]. cbv beta.
  erewrite bind_throw; [done|]. cbn [arg_truthy].
  erewrite bind_throw; [done|]. unfold member, deref.
  erewrite bind_throw; [done|]. by rewrite H.
Qed.

Lemma Legacy_track_empty_string this w :
  Legacy.track this (AString EmptyString) w
  = (Throw (Error InvalidArgument url_required),
     set_heap (heap w ++ [[("url", VString EmptyString)]]) w).
Proof.
  transitivity (Legacy.track this (ARef (length (heap w)))
                  (set_heap (heap w ++ [[("url", VString EmptyString)]]) w));
    [reflexivity|].
  apply (Legacy_track_reject_ref this _ [("url", VString EmptyString)]); [|done].
  simpl. rewrite lookup_app_r by lia. by rewrite Nat.sub_diag.
Qed.

Lemma Sdk_trackBulk_items this l items w :
  Sdk.trackBulk this (Some (l :: items)) w
  = (fragments ← mapM (bulk_fragment (Sdk.siteId this)) (l :: items);
     dispatch (bulk_request (Sdk.trackerUrl this) fragments)
       (fun response => mret (Some response))) w.
Proof. reflexivity. Qed.

Lemma Legacy_trackBulk_items this l items callback w :
  Legacy.trackBulk this (Some (l :: items)) callback w
  = (fragments ← mapM (bulk_fragment (Legacy.siteId this)) (l :: items);
     dispatch (A := Response) (bulk_request (Legacy.trackerUrl this) fragments)
       (fun response =>
          responseData ← read_text response;
          call_back callback responseData;;
          mret None)) w.
Proof. reflexivity. Qed.

Lemma text_callback_fetched callback (resp : Response) w :
  fetched ((responseData ← read_text resp;
            call_back callback responseData;;
            mret (M := M) (@None Response)) w).2 = fetched w.
Proof.
  unfold read_text, call_back, mbind, M_bind, mret, M_ret.
  destruct (text resp); [|done]. by destruct callback.
Qed.

(** The 404 test of the repository: the listener registered with [on]
    is handed 404; without a listener nothing is emitted; either way the
    call has no result. *)
Example track_404_listener_gate :
  let w := set_heap [[("url", VString "http://mywebsite.com/")]] (quiet_world 404) in
  Sdk.track sdk_example (ARef 0%nat) w
  = (Normal None,
     set_fetched
       [fetch_get
          "http://example.com/matomo.php?url=http%3A%2F%2Fmywebsite.com%2F&idsite=1&rec=1"]
       (set_heap [[("url", VString "http://mywebsite.com/");
                   ("idsite", VNumber (Num 1)); ("rec", VNumber (Num 1))]] w))
  ∧ delivered (Sdk.track sdk_example (ARef 0%nat) (on "error" 7%nat w).2).2
    = [(7%nat, VNumber (Num 404))]
  ∧ delivered (Legacy.track legacy_example (ARef 0%nat) (on "error" 7%nat w).2).2
    = [(7%nat, VNumber (Num 404))].
Proof. by split_and!. Qed.

(** ** Delivery failures among throwing listeners *)

Lemma live_bind_normal {A B} (m : Live.LM A) (f : A → Live.LM B) s a s' :
  m s = (Normal a, s') → (m ≫= f) s = f a s'.
Proof. intros H. unfold mbind, Live.LM_bind. by rewrite H. Qed.

Lemma live_bind_throw {A B} (m : Live.LM A) (f : A → Live.LM B) s e s' :
  m s = (Throw e, s') → (m ≫= f) s = (Throw e, s').
Proof. intros H. unfold mbind, Live.LM_bind. by rewrite H. Qed.

Lemma lift_run {A} (m : M A) s r b :
  m (Live.base s) = (r, b) → Live.lift m s = (r, Live.set_base b s).
Proof. intros H. unfold Live.lift. by rewrite H. Qed.

Lemma set_base_base s : Live.set_base (Live.base s) s = s.
Proof. by destruct s. Qed.

Lemma same_setting_refl s : same_setting s s.
Proof. split; [apply same_io_refl|done]. Qed.

Lemma same_setting_set_base s b :
  same_io (Live.base s) b → same_setting s (Live.set_base b s).
Proof. intros H. by split. Qed.

(** *** [emit] *)

Lemma call_all_returns p hs s :
  returns s p hs → Live.call_all "error" p hs s = (Normal tt, handed p hs s).
Proof.
  revert s. induction hs as [|h hs IH]; intros s H; [done|].
  apply Forall_cons in H as [Hh Hhs].
  cbn [Live.call_all]. rewrite Hh. by apply IH.
Qed.

Lemma handed_delivered p hs s :
  delivered (Live.base (handed p hs s))
  = delivered (Live.base s) ++ map (fun h => (h, p)) hs.
Proof.
  revert s. induction hs as [|h hs IH]; intros s; [by rewrite app_nil_r|].
  unfold handed in *. cbn [foldl]. rewrite IH. simpl. by rewrite <- app_assoc.
Qed.

Lemma handed_called_back p hs s :
  called_back (Live.base (handed p hs s)) = called_back (Live.base s).
Proof.
  revert s. induction hs as [|h hs IH]; intros s; [done|].
  unfold handed in *. cbn [foldl]. by rewrite IH.
Qed.

(** A listener that throws cuts the loop short; whatever happens, [emit]
    sends nothing and calls no callback. *)
Lemma call_all_quiet ev p hs s :
  fetched (Live.base (Live.call_all ev p hs s).2) = fetched (Live.base s)
  ∧ called_back (Live.base (Live.call_all ev p hs s).2) = called_back (Live.base s).
Proof.
  revert s. induction hs as [|h hs IH]; intros s; [done|].
  cbn [Live.call_all]. destruct (Live.throws s h p); [done|].
  destruct (IH (Live.hand ev p h s)) as [-> ->]. done.
Qed.

Lemma live_emit_if_listened_run p s :
  returns s p (error_listeners (Live.base s)) →
  live_emit_if_listened p s = (Normal tt, handed p (error_listeners (Live.base s)) s).
Proof.
  intros H. unfold live_emit_if_listened.
  erewrite live_bind_normal; [|reflexivity]. cbv beta.
  fold (error_listeners (Live.base s)).
  destruct (error_listeners (Live.base s)) as [|h hs] eqn:E; [done|].
  unfold Live.when, nonzero. cbn [length Nat.eqb negb].
  unfold Live.emit. erewrite live_bind_normal.
  2:{ erewrite live_bind_normal; [|reflexivity]. cbv beta.
      fold (error_listeners (Live.base s)). rewrite E.
      erewrite live_bind_normal; [reflexivity|]. by apply call_all_returns. }
  done.
Qed.

Lemma live_emit_if_listened_quiet p s :
  fetched (Live.base (live_emit_if_listened p s).2) = fetched (Live.base s)
  ∧ called_back (Live.base (live_emit_if_listened p s).2) = called_back (Live.base s).
Proof.
  unfold live_emit_if_listened.
  erewrite live_bind_normal; [|reflexivity]. cbv beta.
  fold (error_listeners (Live.base s)).
  destruct (error_listeners (Live.base s)) as [|h hs] eqn:E; [done|].
  unfold Live.when, nonzero. cbn [length Nat.eqb negb].
  unfold Live.emit.
  pose proof (call_all_quiet "error" p (h :: hs) s) as Hq.
  destruct (Live.call_all "error" p (h :: hs) s) as [[[]|e] s1] eqn:Ec; simpl in Hq.
  - erewrite live_bind_normal.
    2:{ erewrite live_bind_normal; [|reflexivity]. cbv beta.
        fold (error_listeners (Live.base s)). rewrite E.
        erewrite live_bind_normal; [reflexivity|]. exact Ec. }
    done.
  - erewrite live_bind_throw; [done|].
    erewrite live_bind_normal; [|reflexivity]. cbv beta.
    fold (error_listeners (Live.base s)). rewrite E.
    erewrite live_bind_throw; [reflexivity|]. exact Ec.
Qed.

(** *** The [try]/[catch] block *)

Section live_dispatch_lemmas.
Context {A : Type}.
Implicit Types (r : Request) (k : Response → Live.LM (option A)).

(** The state in which the call goes on after [await fetch(r)]. *)
Lemma live_dispatch_not_ok r k s resp :
  let s1 := Live.resume (Live.set_base (set_fetched (fetched (Live.base s) ++ [r])
                                          (Live.base s)) s) in
  server (Live.base s) r = Normal resp → ok resp = false →
  returns s (VNumber (Num (status resp))) (error_listeners (Live.base s1)) →
  live_dispatch r k s
  = (Normal None, handed (VNumber (Num (status resp))) (error_listeners (Live.base s1)) s1).
Proof.
  intros s1 Hs Hok Hret.
  unfold live_dispatch, Live.try_catch, Live.fetch.
  unfold mbind at 1. unfold Live.LM_bind at 1.
  rewrite Hs, Hok. cbn [negb]. fold s1.
  erewrite live_bind_normal; [|by apply live_emit_if_listened_run]. done.
Qed.

Lemma live_dispatch_failed r k s e :
  let s1 := Live.resume (Live.set_base (set_fetched (fetched (Live.base s) ++ [r])
                                          (Live.base s)) s) in
  server (Live.base s) r = Throw e →
  returns s (VString (message e)) (error_listeners (Live.base s1)) →
  live_dispatch r k s
  = (Normal None, handed (VString (message e)) (error_listeners (Live.base s1)) s1).
Proof.
  intros s1 Hs Hret.
  unfold live_dispatch, Live.try_catch, Live.fetch.
  unfold mbind at 1. unfold Live.LM_bind at 1.
  rewrite Hs. fold s1.
  erewrite live_bind_normal; [|by apply live_emit_if_listened_run]. done.
Qed.

Lemma live_dispatch_fetched r k s :
  (∀ resp s1, fetched (Live.base (k resp s1).2) = fetched (Live.base s1)) →
  fetched (Live.base (live_dispatch r k s).2) = fetched (Live.base s) ++ [r].
Proof.
  intros Hk.
  assert (∀ p s1, fetched (Live.base ((live_emit_if_listened p;;
                                       mret (M := Live.LM) (@None A)) s1).2)
                  = fetched (Live.base s1)) as Hemit.
  { intros p s1. pose proof (live_emit_if_listened_quiet p s1) as [Hq _].
    destruct (live_emit_if_listened p s1) as [[[]|e] s2] eqn:E; simpl in Hq.
    - by erewrite live_bind_normal by done.
    - by erewrite live_bind_throw by done. }
  unfold live_dispatch, Live.try_catch, Live.fetch.
  unfold mbind at 1. unfold Live.LM_bind at 1.
  set (s1 := Live.resume _).
  assert (fetched (Live.base s1) = fetched (Live.base s) ++ [r]) as Hs1 by done.
  destruct (server (Live.base s) r) as [resp|e] eqn:Hs.
  - destruct (ok resp); cbn [negb].
    + specialize (Hk resp s1).
      destruct (k resp s1) as [[a|e] s2]; simpl in Hk.
      * simpl. congruence.
      * rewrite Hemit. congruence.
    + pose proof (Hemit (VNumber (Num (status resp))) s1) as H1.
      destruct ((live_emit_if_listened _;; mret None) s1) as [[a|e] s2]; simpl in H1.
      * simpl. congruence.
      * rewrite Hemit. congruence.
  - rewrite Hemit. congruence.
Qed.
End live_dispatch_lemmas.

Lemma live_dispatch_reports {A} r (k : Response → Live.LM (option A)) s s1 req :
  same_setting s s1 →
  (∀ resp s2, fetched (Live.base (k resp s2).2) = fetched (Live.base s2)) →
  fetched (Live.base (live_dispatch r k s1).2) = fetched (Live.base s) ++ [req] →
  live_reports_failure s (live_dispatch r k s1) req.
Proof.
  intros ((Hsub & Hsrv & Hfe & Hd) & Hth & _ & _ & Hmw & Haw) Hk Hf.
  rewrite live_dispatch_fetched in Hf by done. rewrite Hfe in Hf.
  apply app_inj_tail in Hf as [_ ->].
  set (s2 := Live.resume (Live.set_base (set_fetched (fetched (Live.base s1) ++ [req])
                                           (Live.base s1)) s1)).
  assert (error_listeners (Live.base s2) = listeners_at_failure s) as Hls.
  { unfold listeners_at_failure, error_listeners. simpl. by rewrite Hmw, Haw, Hsub. }
  assert (∀ p, returns s p (listeners_at_failure s) →
               returns s1 p (error_listeners (Live.base s2))) as Hret.
  { intros p H. rewrite Hls. unfold returns. by rewrite Hth. }
  split.
  - intros resp Hresp Hok Hp. rewrite <- Hsrv in Hresp.
    rewrite (live_dispatch_not_ok _ _ _ resp) by auto. fold s2.
    cbn [fst snd]. rewrite handed_delivered, Hls. simpl. rewrite Hd.
    split_and!; [done|done|apply app_map_ne_iff].
  - intros e He Hp. rewrite <- Hsrv in He.
    rewrite (live_dispatch_failed _ _ _ e) by auto. fold s2.
    cbn [fst snd]. rewrite handed_delivered, Hls. simpl. rewrite Hd.
    split_and!; [done|done|apply app_map_ne_iff].
Qed.

(** A call that ended before it dispatched sent nothing. *)
Lemma live_nothing_sent_reports {A} (s : Live.State)
    (run : completion (option A) * Live.State) req :
  fetched (Live.base run.2) = fetched (Live.base s) →
  fetched (Live.base run.2) = fetched (Live.base s) ++ [req] →
  live_reports_failure s run req.
Proof.
  intros H1 H2. rewrite H1 in H2. by apply app_singleton_ne in H2.
Qed.

(** *** Running the four calls *)

Lemma live_inject_run {B} site l o (K : object → Live.LM B) s :
  heap (Live.base s) !! l = Some o →
  (Live.lift (assign (ARef l) "idsite" (VNumber site));;
   Live.lift (assign (ARef l) "rec" (VNumber (Num 1)));;
   e ← Live.lift (entries_of (ARef l)); K e) s
  = K (with_site site o)
      (Live.set_base (set_heap (<[l := with_site site o]> (heap (Live.base s)))
                        (Live.base s)) s).
Proof.
  intros H. pose proof (lookup_lt_Some _ _ _ H) as Hlt.
  erewrite live_bind_normal by (apply lift_run, (assign_run _ _ _ o); done).
  cbv beta.
  erewrite live_bind_normal
    by (apply lift_run, (assign_run _ _ _ (obj_set "idsite" (VNumber site) o));
        simpl; by apply list_lookup_insert_eq).
  cbv beta.
  erewrite live_bind_normal.
  2:{ apply lift_run. unfold entries_of, deref. simpl.
      rewrite list_insert_insert_eq.
      rewrite list_lookup_insert_eq by done. reflexivity. }
  simpl. by rewrite list_insert_insert_eq.
Qed.

Lemma LiveSdk_track_run this l (o : object) s :
  heap (Live.base s) !! l = Some o →
  LiveSdk.track this (ARef l) s
  = live_dispatch (track_request (Sdk.trackerUrl this) (with_site (Sdk.siteId this) o))
      (fun response => mret (Some response))
      (Live.set_base (set_heap (<[l := with_site (Sdk.siteId this) o]>
                                  (heap (Live.base s))) (Live.base s)) s).
Proof.
  intros H. unfold LiveSdk.track.
  by rewrite (live_inject_run (Sdk.siteId this) l o) by done.
Qed.

Lemma LiveSdk_track_dangling this l s :
  heap (Live.base s) !! l = None →
  LiveSdk.track this (ARef l) s = (Throw not_an_object, s).
Proof.
  intros H. unfold LiveSdk.track.
  erewrite live_bind_throw; [done|].
  rewrite <- (set_base_base s) at 2. by apply lift_run, assign_dangling.
Qed.

Lemma LiveLegacy_track_run this l (o : object) s :
  heap (Live.base s) !! l = Some o → truthy (obj_get "url" o) = true →
  LiveLegacy.track this (ARef l) s
  = live_dispatch
      (track_request (Legacy.trackerUrl this) (with_site (Legacy.siteId this) o))
      (fun response => mret (Some response))
      (Live.set_base (set_heap (<[l := with_site (Legacy.siteId this) o]>
                                  (heap (Live.base s))) (Live.base s)) s).
Proof.
  intros H Hurl. unfold LiveLegacy.track.
  erewrite live_bind_normal; [|reflexivity]. cbv beta.
  erewrite live_bind_normal.
  2:{ apply lift_run. cbn [arg_truthy].
      erewrite bind_normal; [reflexivity | by apply member_run]. }
  cbv beta. rewrite Hurl. cbn [negb].
  by rewrite (live_inject_run (Legacy.siteId this) l o) by done.
Qed.

Lemma LiveLegacy_track_reject_ref this l (o : object) s :
  heap (Live.base s) !! l = Some o → truthy (obj_get "url" o) = false →
  LiveLegacy.track this (ARef l) s = (Throw (Error InvalidArgument url_required), s).
Proof.
  intros H Hurl. unfold LiveLegacy.track.
  erewrite live_bind_normal; [|reflexivity]. cbv beta.
  erewrite live_bind_normal.
  2:{ apply lift_run. cbn [arg_truthy].
      erewrite bind_normal; [reflexivity | by apply member_run]. }
  cbv beta. rewrite Hurl. cbn [negb]. by rewrite !set_base_base.
Qed.

Lemma LiveLegacy_track_dangling this l s :
  heap (Live.base s) !! l = None →
  LiveLegacy.track this (ARef l) s = (Throw not_an_object, s).
Proof.
  intros H. unfold LiveLegacy.track.
  erewrite live_bind_normal; [|reflexivity]. cbv beta.
  erewrite live_bind_throw.
  2:{ apply lift_run. cbn [arg_truthy].
      erewrite bind_throw; [reflexivity|]. unfold member.
      erewrite bind_throw; [reflexivity|]. unfold deref. simpl. by rewrite H. }
  simpl. by rewrite !set_base_base.
Qed.

Lemma LiveLegacy_track_string this u s :
  LiveLegacy.track this (AString u) s
  = LiveLegacy.track this (ARef (length (heap (Live.base s))))
      (Live.set_base (set_heap (heap (Live.base s) ++ [[("url", VString u)]])
                        (Live.base s)) s).
Proof. reflexivity. Qed.

Lemma LiveSdk_track_reports this options s req :
  fetched (Live.base (LiveSdk.track this options s).2) = fetched (Live.base s) ++ [req] →
  live_reports_failure s (LiveSdk.track this options s) req.
Proof.
  destruct options as [|u|l]; [by apply live_nothing_sent_reports..|].
  destruct (heap (Live.base s) !! l) as [o|] eqn:H.
  - rewrite (LiveSdk_track_run this l o) by done.
    apply live_dispatch_reports; [|done].
    apply same_setting_set_base, same_io_set_heap.
  - rewrite LiveSdk_track_dangling by done. by apply live_nothing_sent_reports.
Qed.

Lemma LiveLegacy_track_ref_reports this l s s1 req :
  same_setting s s1 →
  fetched (Live.base (LiveLegacy.track this (ARef l) s1).2)
  = fetched (Live.base s) ++ [req] →
  live_reports_failure s (LiveLegacy.track this (ARef l) s1) req.
Proof.
  intros Hs.
  assert (fetched (Live.base s1) = fetched (Live.base s)) as Hf by apply Hs.
  destruct (heap (Live.base s1) !! l) as [o|] eqn:H.
  - destruct (truthy (obj_get "url" o)) eqn:Hurl.
    + rewrite (LiveLegacy_track_run this l o) by done.
      apply live_dispatch_reports; [|done].
      destruct Hs as (Hio & ?). split; [|done].
      eapply same_io_trans; [exact Hio | apply same_io_set_heap].
    + rewrite (LiveLegacy_track_reject_ref this l o) by done.
      by apply live_nothing_sent_reports.
  - rewrite LiveLegacy_track_dangling by done. by apply live_nothing_sent_reports.
Qed.

Lemma LiveLegacy_track_reports this options s req :
  fetched (Live.base (LiveLegacy.track this options s).2) = fetched (Live.base s) ++ [req] →
  live_reports_failure s (LiveLegacy.track this options s) req.
Proof.
  destruct options as [|u|l]; [by apply live_nothing_sent_reports| |].
  - rewrite LiveLegacy_track_string.
    apply LiveLegacy_track_ref_reports, same_setting_set_base, same_io_set_heap.
  - apply LiveLegacy_track_ref_reports, same_setting_refl.
Qed.

Lemma LiveSdk_trackBulk_items this l items s :
  LiveSdk.trackBulk this (Some (l :: items)) s
  = (fragments ← Live.lift (mapM (bulk_fragment (Sdk.siteId this)) (l :: items));
     live_dispatch (bulk_request (Sdk.trackerUrl this) fragments)
       (fun response => mret (Some response))) s.
Proof. reflexivity. Qed.

Lemma LiveLegacy_trackBulk_items this l items callback s :
  LiveLegacy.trackBulk this (Some (l :: items)) callback s
  = (fragments ← Live.lift (mapM (bulk_fragment (Legacy.siteId this)) (l :: items));
     live_dispatch (A := Response) (bulk_request (Legacy.trackerUrl this) fragments)
       (fun response =>
          responseData ← Live.read_text response;
          Live.call_back callback responseData;;
          mret None)) s.
Proof. reflexivity. Qed.

Lemma live_text_callback_fetched callback (resp : Response) s :
  fetched (Live.base ((responseData ← Live.read_text resp;
                       Live.call_back callback responseData;;
                       mret (M := Live.LM) (@None Response)) s).2)
  = fetched (Live.base s).
Proof.
  unfold Live.read_text, Live.call_back, mbind, Live.LM_bind, mret, Live.LM_ret.
  destruct (text resp) as [data|e]; [|done].
  destruct callback as [c|]; [|done].
  by destruct (Live.callback_throws _ c data).
Qed.

Lemma LiveSdk_trackBulk_reports this eventItems s req :
  fetched (Live.base (LiveSdk.trackBulk this eventItems s).2)
  = fetched (Live.base s) ++ [req] →
  live_reports_failure s (LiveSdk.trackBulk this eventItems s) req.
Proof.
  destruct eventItems as [[|l items]|]; [by apply live_nothing_sent_reports| |
                                         by apply live_nothing_sent_reports].
  rewrite LiveSdk_trackBulk_items.
  pose proof (mapM_bulk_fragment_frame (Sdk.siteId this) (l :: items) (Live.base s))
    as Hio.
  destruct (mapM (bulk_fragment (Sdk.siteId this)) (l :: items) (Live.base s))
    as [[frags|e] w1] eqn:E; simpl in Hio.
  - erewrite live_bind_normal by (by apply lift_run).
    apply live_dispatch_reports; [by apply same_setting_set_base | done].
  - erewrite live_bind_throw by (by apply lift_run).
    apply live_nothing_sent_reports. apply Hio.
Qed.

Lemma LiveLegacy_trackBulk_reports this eventItems callback s req :
  fetched (Live.base (LiveLegacy.trackBulk this eventItems callback s).2)
  = fetched (Live.base s) ++ [req] →
  live_reports_failure s (LiveLegacy.trackBulk this eventItems callback s) req.
Proof.
  destruct eventItems as [[|l items]|]; [by apply live_nothing_sent_reports| |
                                         by apply live_nothing_sent_reports].
  rewrite LiveLegacy_trackBulk_items.
  pose proof (mapM_bulk_fragment_frame (Legacy.siteId this) (l :: items) (Live.base s))
    as Hio.
  destruct (mapM (bulk_fragment (Legacy.siteId this)) (l :: items) (Live.base s))
    as [[frags|e] w1] eqn:E; simpl in Hio.
  - erewrite live_bind_normal by (by apply lift_run).
    apply live_dispatch_reports; [by apply same_setting_set_base|].
    intros. apply live_text_callback_fetched.
  - erewrite live_bind_throw by (by apply lift_run).
    apply live_nothing_sent_reports. apply Hio.
Qed.

(** A listener that returns when it is handed the failure's message, but
    throws on a status code: its exception is caught by the [catch] of
    the call, which hands it the exception's message, and the call has no
    result.  A throwing listener registered with [once] is off the table
    when the [catch] looks for listeners: nothing more is emitted. *)
Example catch_reports_the_listener :
  let s := {| Live.base := listened_world not_found;
              Live.throws := fun _ p => match p with
                                        | VNumber _ => Some boom
                                        | _ => None
                                        end;
              Live.once := fun _ => false; Live.callback_throws := returning;
              Live.meanwhile := fun _ subs => subs; Live.awaited := 0%nat |} in
  let s1 := {| Live.base := listened_world not_found;
               Live.throws := throwing;
               Live.once := fun _ => true; Live.callback_throws := returning;
               Live.meanwhile := fun _ subs => subs; Live.awaited := 0%nat |} in
  (let run := LiveSdk.track sdk_example (ARef 0%nat) s in
   run.1 = Normal None
   ∧ delivered (Live.base run.2)
     = [(7%nat, VNumber (Num 404)); (7%nat, VString "listener failed")])
  ∧ (let run := LiveLegacy.track legacy_example (ARef 0%nat) s1 in
     run.1 = Normal None
     ∧ delivered (Live.base run.2) = [(7%nat, VNumber (Num 404))]
     ∧ subscribers (Live.base run.2) = []).
Proof. by split_and!. Qed.

(** C2, refuted as stated.  With an ['error'] listener that throws, a
    call whose request was sent does not end normally: [track] of
    src/index.ts on a 404 hands the listener the status inside the [try],
    catches the listener's exception, hands it that exception's message,
    and is rejected with what the listener throws then; so is [trackBulk]
    of index.ts when the transport fails. *)
Lemma throwing_listener_rejects_the_call :
  (let run := LiveSdk.track sdk_example (ARef 0%nat)
                (among (listened_world not_found) throwing returning) in
   fetched (Live.base run.2)
   = [fetch_get
        "http://example.com/matomo.php?url=http%3A%2F%2Fmywebsite.com%2F&idsite=1&rec=1"]
   ∧ run.1 = Throw boom
   ∧ delivered (Live.base run.2)
     = [(7%nat, VNumber (Num 404)); (7%nat, VString "listener failed")])
  ∧ (let run := LiveLegacy.trackBulk legacy_example (Some [0%nat]) None
                  (among (listened_world unreachable) throwing returning) in
     length (fetched (Live.base run.2)) = 1%nat
     ∧ run.1 = Throw boom
     ∧ delivered (Live.base run.2)
       = [(7%nat, VString "getaddrinfo ENOTFOUND example.com")]).
Proof. by split_and!. Qed.

(** C2, amended.  For [track] and [trackBulk] of both files, whatever the
    argument: once the request is sent, and provided the ['error']
    listeners return when they are called, a response with a non-success
    status, and likewise a failure of the transport, ends the call
    normally and without a result; the ['error'] listeners that are on the
    table at that moment (when the call goes on after the [await], not
    when it was made) are handed the status code, respectively the
    failure's message, each once and in registration order; something is
    emitted if and only if there is such a listener. *)
Theorem failure_is_reported_when_listeners_return :
  (∀ (this : Sdk.Tracker) options s req,
     fetched (Live.base (LiveSdk.track this options s).2)
     = fetched (Live.base s) ++ [req] →
     live_reports_failure s (LiveSdk.track this options s) req)
  ∧ (∀ (this : Sdk.Tracker) eventItems s req,
       fetched (Live.base (LiveSdk.trackBulk this eventItems s).2)
       = fetched (Live.base s) ++ [req] →
       live_reports_failure s (LiveSdk.trackBulk this eventItems s) req)
  ∧ (∀ (this : Legacy.Tracker) options s req,
       fetched (Live.base (LiveLegacy.track this options s).2)
       = fetched (Live.base s) ++ [req] →
       live_reports_failure s (LiveLegacy.track this options s) req)
  ∧ (∀ (this : Legacy.Tracker) eventItems callback s req,
       fetched (Live.base (LiveLegacy.trackBulk this eventItems callback s).2)
       = fetched (Live.base s) ++ [req] →
       live_reports_failure s (LiveLegacy.trackBulk this eventItems callback s) req).
Proof.
  split_and!.
  - apply LiveSdk_track_reports.
  - apply LiveSdk_trackBulk_reports.
  - apply LiveLegacy_track_reports.
  - apply LiveLegacy_trackBulk_reports.
Qed.

Lemma failure_is_reported_when_listeners_return_witness :
  (let run := LiveSdk.track sdk_example (ARef 0%nat)
                (resubscribed (listened_world not_found)) in
   run.1 = Normal None ∧ delivered (Live.base run.2) = [(9%nat, VNumber (Num 404))])
  ∧ (let run := LiveSdk.trackBulk sdk_example (Some [0%nat])
                  (among (listened_world unreachable) returning returning) in
     run.1 = Normal None
     ∧ delivered (Live.base run.2)
       = [(7%nat, VString "getaddrinfo ENOTFOUND example.com")])
  ∧ (let run := LiveLegacy.track legacy_example (ARef 0%nat)
                  (resubscribed (listened_world unreachable)) in
     run.1 = Normal None
     ∧ delivered (Live.base run.2)
       = [(9%nat, VString "getaddrinfo ENOTFOUND example.com")])
  ∧ (let run := LiveLegacy.trackBulk legacy_example (Some [0%nat]) None
                  (among (listened_world not_found) returning returning) in
     run.1 = Normal None ∧ delivered (Live.base run.2) = [(7%nat, VNumber (Num 404))]).
Proof.
  destruct failure_is_reported_when_listeners_return
    as (Htrack & Hbulk & Hltrack & Hlbulk).
  split_and!.
  - destruct (Htrack sdk_example (ARef 0%nat) (resubscribed (listened_world not_found))
                _ eq_refl) as [Hstatus _].
    destruct (Hstatus _ eq_refl eq_refl ltac:(by repeat constructor))
      as (Hres & Hdel & _).
    exact (conj Hres Hdel).
  - destruct (Hbulk sdk_example (Some [0%nat])
                (among (listened_world unreachable) returning returning) _ eq_refl)
      as [_ Hfail].
    destruct (Hfail _ eq_refl ltac:(by repeat constructor)) as (Hres & Hdel & _).
    exact (conj Hres Hdel).
  - destruct (Hltrack legacy_example (ARef 0%nat)
                (resubscribed (listened_world unreachable)) _ eq_refl) as [_ Hfail].
    destruct (Hfail _ eq_refl ltac:(by repeat constructor)) as (Hres & Hdel & _).
    exact (conj Hres Hdel).
  - destruct (Hlbulk legacy_example (Some [0%nat]) None
                (among (listened_world not_found) returning returning) _ eq_refl)
      as [Hstatus _].
    destruct (Hstatus _ eq_refl eq_refl ltac:(by repeat constructor))
      as (Hres & Hdel & _).
    exact (conj Hres Hdel).
Defined.

(** *** The recorders are the placid case

    When nothing throws, no listener was registered with [once] and the
    table is left alone while a call is suspended, the four calls end as
    they do in the world of recorders, and leave the same world. *)

Lemma set_subscribers_id w : set_subscribers (subscribers w) w = w.
Proof. by destruct w. Qed.

Lemma agrees_lift {A} (m : M A) : agrees (Live.lift m) m.
Proof.
  intros s Hs. unfold Live.lift. by destruct (m (Live.base s)).
Qed.

Lemma agrees_ret {A} (a : A) : agrees (mret a) (mret a).
Proof. by intros s Hs. Qed.

Lemma agrees_throw {A} (e : exn) : agrees (A := A) (mthrow e) (mthrow e).
Proof. by intros s Hs. Qed.

Lemma agrees_bind {A B} (live : Live.LM A) (plain : M A)
    (f' : A → Live.LM B) (f : A → M B) :
  agrees live plain → (∀ a, agrees (f' a) (f a)) → agrees (live ≫= f') (plain ≫= f).
Proof.
  intros Hm Hf s Hs. destruct (Hm s Hs) as (H1 & H2 & H3).
  unfold mbind, Live.LM_bind, M_bind.
  destruct (live s) as [[a|e] s1], (plain (Live.base s)) as [[a0|e0] w1];
    simpl in *; try discriminate; simplify_eq; [by apply Hf | done].
Qed.

Lemma agrees_try_catch {A} (live : Live.LM A) (plain : M A)
    (h' : exn → Live.LM A) (h : exn → M A) :
  agrees live plain → (∀ e, agrees (h' e) (h e)) →
  agrees (Live.try_catch live h') (try_catch plain h).
Proof.
  intros Hm Hh s Hs. destruct (Hm s Hs) as (H1 & H2 & H3).
  unfold Live.try_catch, try_catch.
  destruct (live s) as [[a|e] s1], (plain (Live.base s)) as [[a0|e0] w1];
    simpl in *; try discriminate; simplify_eq; [done | by apply Hh].
Qed.

Lemma agrees_when {A} c (live : Live.LM A) (plain : M A) :
  agrees live plain → agrees (Live.when c live) (when c plain).
Proof.
  intros H. destruct c; [|apply agrees_ret].
  apply agrees_bind; [done|]. intros. apply agrees_ret.
Qed.

Lemma agrees_invariant c msg : agrees (invariant c msg) (invariant c msg).
Proof. destruct c; [apply agrees_ret | apply agrees_throw]. Qed.

Lemma agrees_assert_ok c msg : agrees (assert_ok c msg) (assert_ok c msg).
Proof. destruct c; [apply agrees_ret | apply agrees_throw]. Qed.

Lemma agrees_fetch r : agrees (Live.fetch r) (fetch r).
Proof.
  intros s Hs. pose proof Hs as (_ & _ & _ & Hmw).
  unfold Live.fetch, fetch. simpl. by rewrite Hmw.
Qed.

Lemma agrees_read_text r : agrees (Live.read_text r) (read_text r).
Proof.
  intros s Hs. pose proof Hs as (_ & _ & _ & Hmw).
  unfold Live.read_text, read_text. simpl. by rewrite Hmw, set_subscribers_id.
Qed.

Lemma agrees_listeners ev : agrees (Live.listeners ev) (listeners ev).
Proof. by intros s Hs. Qed.

Lemma call_all_placid ev p hs s :
  placid s →
  (Live.call_all ev p hs s).1 = Normal tt
  ∧ Live.base (Live.call_all ev p hs s).2
    = set_delivered (delivered (Live.base s) ++ map (fun h => (h, p)) hs) (Live.base s)
  ∧ placid (Live.call_all ev p hs s).2.
Proof.
  revert s. induction hs as [|h hs IH]; intros s Hs.
  - simpl. rewrite app_nil_r. by destruct s as [[]].
  - pose proof Hs as (Hth & Hon & _).
    cbn [Live.call_all]. rewrite Hth.
    destruct (IH (Live.hand ev p h s) Hs) as (-> & -> & H3).
    split_and!; [done| |done].
    simpl. rewrite Hon. by rewrite <- app_assoc.
Qed.

Lemma agrees_emit ev p : agrees (Live.emit ev p) (emit ev p).
Proof.
  intros s Hs. unfold Live.emit, emit.
  erewrite live_bind_normal; [|reflexivity].
  erewrite bind_normal; [|reflexivity]. cbv beta.
  destruct (listeners_of ev (subscribers (Live.base s))) as [|h hs] eqn:E.
  - by destruct (String.eqb ev "error").
  - destruct (call_all_placid ev p (h :: hs) s Hs) as (H1 & H2 & H3).
    unfold mbind, Live.LM_bind.
    destruct (Live.call_all ev p (h :: hs) s) as [[[]|e] s1]; simpl in *; [|done].
    by rewrite H2.
Qed.

Lemma agrees_call_back callback data :
  agrees (Live.call_back callback data) (call_back callback data).
Proof.
  intros s Hs. pose proof Hs as (_ & _ & Hcb & _).
  unfold Live.call_back, call_back. destruct callback as [c|]; [|done].
  by rewrite Hcb.
Qed.

Ltac agree :=
  repeat first
    [ apply agrees_lift | apply agrees_ret | apply agrees_throw
    | apply agrees_fetch | apply agrees_read_text | apply agrees_listeners
    | apply agrees_emit | apply agrees_call_back
    | apply agrees_invariant | apply agrees_assert_ok | apply agrees_when
    | apply agrees_try_catch; [|intros ?]
    | apply agrees_bind; [|intros ?]
    | match goal with
      | |- agrees (if negb ?c then _ else _) _ => destruct c; cbn [negb]
      end ].

Lemma recorders_are_the_placid_case :
  (∀ (this : Sdk.Tracker) options,
     agrees (LiveSdk.track this options) (Sdk.track this options))
  ∧ (∀ (this : Sdk.Tracker) eventItems,
       agrees (LiveSdk.trackBulk this eventItems) (Sdk.trackBulk this eventItems))
  ∧ (∀ (this : Legacy.Tracker) options,
       agrees (LiveLegacy.track this options) (Legacy.track this options))
  ∧ (∀ (this : Legacy.Tracker) eventItems callback,
       agrees (LiveLegacy.trackBulk this eventItems callback)
         (Legacy.trackBulk this eventItems callback)).
Proof.
  split_and!; intros.
  - unfold LiveSdk.track, Sdk.track. agree.
  - unfold LiveSdk.trackBulk, Sdk.trackBulk. agree.
  - unfold LiveLegacy.track, Legacy.track. agree.
  - unfold LiveLegacy.trackBulk, Legacy.trackBulk. agree.
Qed.

(** ** Bulk submission *)

Lemma fragments_Forall2 site (h : list object) items (objs : list object) :
  Forall2 (fun l o => h !! l = Some o) items objs →
  map (fragment_of site h) items
  = map (fun o => "?" +:+ query_string (with_site site o)) objs.
Proof.
  induction 1 as [|l o items objs Hl _ IH]; [done|].
  simpl. rewrite IH. f_equal. unfold fragment_of. by rewrite Hl.
Qed.

Lemma Forall2_allocated (h : list object) items (objs : list object) :
  Forall2 (fun l o => h !! l = Some o) items objs →
  Forall (fun l => is_Some (h !! l)) items.
Proof. induction 1; constructor; eauto. Qed.

(** C4. For a non-empty sequence of event items (each an allocated
    mapping), [trackBulk] of either file sends exactly one request: a POST
    to the endpoint, with the header [Content-Type: application/json] and
    as body the JSON object whose field [requests] is the array, in input
    order, of one fragment per item, each a [?] followed by the
    percent-encoded query string of the item after the same injection of
    [idsite] and [rec] as [track] performs. *)
Theorem trackBulk_posts_fragments :
  (∀ (this : Sdk.Tracker) (items : list loc) (objs : list object) (w : World),
     items ≠ [] →
     Forall2 (fun l o => heap w !! l = Some o) items objs →
     (∀ o, base_fields_injected (Sdk.siteId this) o (with_site (Sdk.siteId this) o))
     ∧ fetched (Sdk.trackBulk this (Some items) w).2
       = fetched w ++
         [{| req_url := Sdk.trackerUrl this;
             req_method := POST;
             req_headers := [("Content-Type", "application/json")];
             req_body :=
               Some (JSON_stringify
                       (JsonObject
                          [("requests",
                            JsonArray
                              (map JsonString
                                 (map (fun o =>
                                         "?" +:+
                                         URLSearchParams_toString
                                           (URLSearchParams
                                              (optionValuesToString
                                                 (with_site (Sdk.siteId this) o))))
                                      objs)))])) |}])
  ∧ (∀ (this : Legacy.Tracker) (items : list loc) (objs : list object) callback
       (w : World),
       items ≠ [] →
       Forall2 (fun l o => heap w !! l = Some o) items objs →
       (∀ o, base_fields_injected (Legacy.siteId this) o
               (with_site (Legacy.siteId this) o))
       ∧ fetched (Legacy.trackBulk this (Some items) callback w).2
         = fetched w ++
           [{| req_url := Legacy.trackerUrl this;
               req_method := POST;
               req_headers := [("Content-Type", "application/json")];
               req_body :=
                 Some (JSON_stringify
                         (JsonObject
                            [("requests",
                              JsonArray
                                (map JsonString
                                   (map (fun o =>
                                           "?" +:+
                                           URLSearchParams_toString
                                             (URLSearchParams
                                                (optionValuesToString
                                                   (with_site (Legacy.siteId this) o))))
                                        objs)))])) |}]).
Proof.
  split.
  - intros this items objs w Hne Hobjs. split; [intros; apply with_site_injected|].
    destruct items as [|l items]; [done|].
    rewrite Sdk_trackBulk_items.
    erewrite bind_normal
      by (apply mapM_bulk_fragment_run; by eapply Forall2_allocated).
    cbv beta. rewrite dispatch_fetched by done.
    cbn [fetched set_heap]. rewrite (fragments_Forall2 _ _ _ objs) by done.
    reflexivity.
  - intros this items objs callback w Hne Hobjs.
    split; [intros; apply with_site_injected|].
    destruct items as [|l items]; [done|].
    rewrite Legacy_trackBulk_items.
    erewrite bind_normal
      by (apply mapM_bulk_fragment_run; by eapply Forall2_allocated).
    cbv beta. rewrite dispatch_fetched by (intros; apply text_callback_fetched).
    cbn [fetched set_heap]. rewrite (fragments_Forall2 _ _ _ objs) by done.
    reflexivity.
Qed.

Lemma trackBulk_posts_fragments_witness :
  let w := set_heap readme_events (quiet_world 200) in
  fetched (Sdk.trackBulk sdk_example (Some [0; 1]%nat) w).2
  = [{| req_url := "http://example.com/matomo.php"; req_method := POST;
        req_headers := [("Content-Type", "application/json")];
        req_body := Some readme_body |}]
  ∧ fetched (Legacy.trackBulk legacy_example (Some [0; 1]%nat) None w).2
    = [{| req_url := "http://example.com/matomo.php"; req_method := POST;
          req_headers := [("Content-Type", "application/json")];
          req_body := Some readme_body |}].
Proof.
  intros w.
  destruct trackBulk_posts_fragments as [Hsdk Hlegacy].
  assert (Forall2 (fun l o => heap w !! l = Some o) [0; 1]%nat readme_events)
    as Hobjs by (repeat constructor).
  split.
  - exact (proj2 (Hsdk sdk_example [0; 1]%nat readme_events w
                    ltac:(discriminate) Hobjs)).
  - exact (proj2 (Hlegacy legacy_example [0; 1]%nat readme_events None w
                    ltac:(discriminate) Hobjs)).
Defined.

(** ** In-place mutation *)

Lemma notify_heap p w : heap (notify p w) = heap w.
Proof. reflexivity. Qed.

Lemma dispatch_heap {A} r (k : Response → M (option A)) w :
  (∀ resp w1, heap (k resp w1).2 = heap w1) →
  heap (dispatch r k w).2 = heap w.
Proof.
  intros Hk.
  unfold dispatch, try_catch, fetch, mbind, M_bind, mret, M_ret.
  destruct (server w r) as [resp|e] eqn:Hs.
  - destruct (ok resp); simpl.
    + specialize (Hk resp (set_fetched (fetched w ++ [r]) w)).
      destruct (k resp _) as [[a|e] w2]; simpl in *.
      * done.
      * by rewrite emit_if_listened_run.
    + by rewrite emit_if_listened_run.
  - by rewrite emit_if_listened_run.
Qed.

Lemma text_callback_heap callback (resp : Response) w :
  heap ((responseData ← read_text resp;
         call_back callback responseData;;
         mret (M := M) (@None Response)) w).2 = heap w.
Proof.
  unfold read_text, call_back, mbind, M_bind, mret, M_ret.
  destruct (text resp); [|done]. by destruct callback.
Qed.

Lemma Sdk_trackBulk_heap this items w :
  items ≠ [] → Forall (fun l => is_Some (heap w !! l)) items →
  heap (Sdk.trackBulk this (Some items) w).2
  = injected_heap (Sdk.siteId this) items (heap w).
Proof.
  intros Hne Hall. destruct items as [|l items]; [done|].
  rewrite Sdk_trackBulk_items.
  erewrite bind_normal by (by apply mapM_bulk_fragment_run).
  cbv beta. by rewrite dispatch_heap.
Qed.

Lemma Legacy_trackBulk_heap this items callback w :
  items ≠ [] → Forall (fun l => is_Some (heap w !! l)) items →
  heap (Legacy.trackBulk this (Some items) callback w).2
  = injected_heap (Legacy.siteId this) items (heap w).
Proof.
  intros Hne Hall. destruct items as [|l items]; [done|].
  rewrite Legacy_trackBulk_items.
  erewrite bind_normal by (by apply mapM_bulk_fragment_run).
  cbv beta. rewrite dispatch_heap; [done|]. intros. apply text_callback_heap.
Qed.

Lemma injected_heap_item site items (h : list object) l (o : object) :
  l ∈ items → h !! l = Some o →
  injected_heap site items h !! l = Some (with_site site o).
Proof.
  intros Hin Hl. rewrite injected_heap_lookup, Hl. simpl.
  by rewrite bool_decide_eq_true_2.
Qed.

(** C9, as stated, at a mapping without [url] given to [track] of
    index.ts: the call is rejected and the caller's object is left as it
    was, without [idsite] and without [rec]. *)
Lemma Legacy_track_rejected_leaves_mapping :
  let w := set_heap [[("action_name", VString "Home")]] (quiet_world 200) in
  let run := Legacy.track legacy_example (ARef 0%nat) w in
  run.1 = Throw (Error InvalidArgument url_required)
  ∧ heap run.2 !! 0%nat = Some [("action_name", VString "Home")]
  ∧ ¬ (∃ o, heap run.2 !! 0%nat = Some o
            ∧ obj_lookup "idsite" o = Some (VNumber (Legacy.siteId legacy_example))
            ∧ obj_lookup "rec" o = Some (VNumber (Num 1))).
Proof.
  intros w run. split_and!; [reflexivity..|].
  intros (o & Ho & Hid & _). vm_compute in Ho. by simplify_eq.
Qed.

(** C9, amended. Every call of [track] or [trackBulk] that gets past the
    argument checks (index.ts [track]: the mapping has a truthy [url];
    src/index.ts [track]: any mapping; [trackBulk]: a non-empty sequence
    of mappings) leaves, whatever the network answers, each mapping the
    caller passed with [idsite] set to the client's site id and [rec] set
    to 1, at the caller's own reference: no object is allocated for it. *)
Theorem track_mutates_in_place :
  (∀ (this : Sdk.Tracker) (l : loc) (o : object) (w : World),
     heap w !! l = Some o →
     heap (Sdk.track this (ARef l) w).2
     = <[l := with_site (Sdk.siteId this) o]> (heap w)
     ∧ heap (Sdk.track this (ARef l) w).2 !! l = Some (with_site (Sdk.siteId this) o)
     ∧ base_fields_injected (Sdk.siteId this) o (with_site (Sdk.siteId this) o))
  ∧ (∀ (this : Legacy.Tracker) (l : loc) (o : object) (w : World),
       heap w !! l = Some o → truthy (obj_get "url" o) = true →
       heap (Legacy.track this (ARef l) w).2
       = <[l := with_site (Legacy.siteId this) o]> (heap w)
       ∧ heap (Legacy.track this (ARef l) w).2 !! l
         = Some (with_site (Legacy.siteId this) o)
       ∧ base_fields_injected (Legacy.siteId this) o
           (with_site (Legacy.siteId this) o))
  ∧ (∀ (this : Sdk.Tracker) (items : list loc) (w : World),
       items ≠ [] → Forall (fun l => is_Some (heap w !! l)) items →
       length (heap (Sdk.trackBulk this (Some items) w).2) = length (heap w)
       ∧ ∀ l o, l ∈ items → heap w !! l = Some o →
           heap (Sdk.trackBulk this (Some items) w).2 !! l
           = Some (with_site (Sdk.siteId this) o)
           ∧ base_fields_injected (Sdk.siteId this) o
               (with_site (Sdk.siteId this) o))
  ∧ (∀ (this : Legacy.Tracker) (items : list loc) callback (w : World),
       items ≠ [] → Forall (fun l => is_Some (heap w !! l)) items →
       length (heap (Legacy.trackBulk this (Some items) callback w).2)
       = length (heap w)
       ∧ ∀ l o, l ∈ items → heap w !! l = Some o →
           heap (Legacy.trackBulk this (Some items) callback w).2 !! l
           = Some (with_site (Legacy.siteId this) o)
           ∧ base_fields_injected (Legacy.siteId this) o
               (with_site (Legacy.siteId this) o)).
Proof.
  split_and!.
  - intros this l o w H.
    rewrite (Sdk_track_run this l o) by done. rewrite dispatch_heap by done.
    cbn [heap set_heap]. split_and!; [done| |apply with_site_injected].
    apply list_lookup_insert_eq. by eapply lookup_lt_Some.
  - intros this l o w H Hurl.
    rewrite (Legacy_track_run this l o) by done. rewrite dispatch_heap by done.
    cbn [heap set_heap]. split_and!; [done| |apply with_site_injected].
    apply list_lookup_insert_eq. by eapply lookup_lt_Some.
  - intros this items w Hne Hall. rewrite Sdk_trackBulk_heap by done.
    split; [apply injected_heap_length|].
    intros l o Hin Hl. split; [by apply injected_heap_item|apply with_site_injected].
  - intros this items callback w Hne Hall. rewrite Legacy_trackBulk_heap by done.
    split; [apply injected_heap_length|].
    intros l o Hin Hl. split; [by apply injected_heap_item|apply with_site_injected].
Qed.

Lemma track_mutates_in_place_witness :
  let o := [("url", VString "http://mywebsite.com/")] in
  let s := [("url", VString "http://mywebsite.com/");
            ("idsite", VNumber (Num 1)); ("rec", VNumber (Num 1))] in
  heap (Sdk.track sdk_example (ARef 0%nat) (listened_world not_found)).2 = [s]
  ∧ heap (Legacy.track legacy_example (ARef 0%nat) (listened_world unreachable)).2 = [s]
  ∧ heap (Sdk.trackBulk sdk_example (Some [0%nat]) (listened_world not_found)).2 !! 0%nat
    = Some s
  ∧ heap (Legacy.trackBulk legacy_example (Some [0%nat]) None
            (listened_world unreachable)).2 !! 0%nat = Some s.
Proof.
  intros o s.
  destruct track_mutates_in_place as (Htrack & Hltrack & Hbulk & Hlbulk).
  assert (∀ net, Forall (fun l => is_Some (heap (listened_world net) !! l)) [0%nat])
    as Hall by (intros net; repeat constructor; by exists o).
  split_and!.
  - exact (proj1 (Htrack sdk_example 0%nat o (listened_world not_found) eq_refl)).
  - exact (proj1 (Hltrack legacy_example 0%nat o (listened_world unreachable)
                    eq_refl eq_refl)).
  - exact (proj1 (proj2 (Hbulk sdk_example [0%nat] (listened_world not_found)
                           ltac:(discriminate) (Hall _))
                    0%nat o ltac:(apply list_elem_of_here) eq_refl)).
  - exact (proj1 (proj2 (Hlbulk legacy_example [0%nat] None (listened_world unreachable)
                           ltac:(discriminate) (Hall _))
                    0%nat o ltac:(apply list_elem_of_here) eq_refl)).
Defined.

(** ** Construction *)

Lemma Sdk_constructor_cases siteId trackerUrl noURLValidation :
  if rejects siteId trackerUrl noURLValidation
  then ∃ msg, Sdk.MatomoTracker siteId trackerUrl noURLValidation
              = Throw (Error InvalidArgument msg)
  else ∃ url, trackerUrl = JString url
              ∧ Sdk.MatomoTracker siteId trackerUrl noURLValidation
                = Normal {| Sdk.siteId := Number siteId; Sdk.trackerUrl := url |}.
Proof.
  unfold rejects, Sdk.MatomoTracker, invariant.
  unfold mbind, completion_bind, mret, completion_ret, mthrow, completion_throw.
  destruct (js_truthy siteId); cbn [negb andb orb]; [|eauto].
  destruct (jstype_eqb (typeof siteId) TNumber || jstype_eqb (typeof siteId) TString);
    cbn [negb andb orb]; [|eauto].
  destruct trackerUrl as [| |b|n|url| | |]; cbn;
    rewrite ?andb_false_r, ?andb_true_r; eauto.
  destruct (string_nonempty url); cbn [negb andb orb]; [|eauto].
  destruct (js_truthy noURLValidation); cbn [negb andb orb]; [eauto|].
  destruct (endsWith url "matomo.php" || endsWith url "piwik.php");
    cbn [negb andb orb]; eauto.
Qed.

Lemma Legacy_constructor_cases siteId trackerUrl noURLValidation :
  if rejects siteId trackerUrl noURLValidation
  then ∃ msg, Legacy.MatomoTracker siteId trackerUrl noURLValidation
              = Throw (Error InvalidArgument msg)
  else ∃ url, trackerUrl = JString url
              ∧ Legacy.MatomoTracker siteId trackerUrl noURLValidation
                = Normal {| Legacy.siteId := Number siteId;
                            Legacy.trackerUrl := url;
                            Legacy.usesHTTPS := startsWith url "https" |}.
Proof.
  unfold rejects, Legacy.MatomoTracker, assert_ok.
  unfold mbind, completion_bind, mret, completion_ret, mthrow, completion_throw.
  destruct (js_truthy siteId); cbn [negb andb orb]; [|eauto].
  destruct (jstype_eqb (typeof siteId) TNumber || jstype_eqb (typeof siteId) TString);
    cbn [negb andb orb]; [|eauto].
  destruct trackerUrl as [| |b|n|url| | |]; cbn;
    rewrite ?andb_false_r, ?andb_true_r; eauto.
  destruct (string_nonempty url); cbn [negb andb orb]; [|eauto].
  destruct (js_truthy noURLValidation); cbn [negb andb orb]; [eauto|].
  destruct (endsWith url "matomo.php" || endsWith url "piwik.php");
    cbn [negb andb orb]; eauto.
Qed.

(** C6, as stated, at the site identifier 0: it is supplied and it is a
    number, the endpoint is well-formed, so the stated condition does not
    hold; both constructors throw all the same. *)
Lemma constructor_rejects_zero_site :
  claimed_rejects (JNumber (Num 0)) (JString "http://example.com/matomo.php")
    JUndefined = false
  ∧ Sdk.MatomoTracker (JNumber (Num 0)) (JString "http://example.com/matomo.php")
      JUndefined = Throw (Error InvalidArgument siteId_required)
  ∧ Legacy.MatomoTracker (JNumber (Num 0)) (JString "http://example.com/matomo.php")
      JUndefined = Throw (Error InvalidArgument siteId_required).
Proof. by split_and!. Qed.

(** C6, amended. The constructor of either file throws an invalid-argument
    error exactly when the site identifier is falsy (missing, [null], 0,
    [NaN], the empty string) or not a number/string, or the endpoint is
    not a non-empty string, or the bypass flag is falsy and the endpoint
    ends with neither [matomo.php] nor [piwik.php]; otherwise it succeeds
    with [siteId] the numeric coercion of the identifier and the endpoint
    stored unchanged. *)
Theorem constructor_rejects_iff (siteId trackerUrl noURLValidation : jsval) :
  (if rejects siteId trackerUrl noURLValidation
   then ∃ msg, Sdk.MatomoTracker siteId trackerUrl noURLValidation
               = Throw (Error InvalidArgument msg)
   else ∃ url, trackerUrl = JString url
               ∧ Sdk.MatomoTracker siteId trackerUrl noURLValidation
                 = Normal {| Sdk.siteId := Number siteId; Sdk.trackerUrl := url |})
  ∧ (if rejects siteId trackerUrl noURLValidation
     then ∃ msg, Legacy.MatomoTracker siteId trackerUrl noURLValidation
                 = Throw (Error InvalidArgument msg)
     else ∃ url, trackerUrl = JString url
                 ∧ Legacy.MatomoTracker siteId trackerUrl noURLValidation
                   = Normal {| Legacy.siteId := Number siteId;
                               Legacy.trackerUrl := url;
                               Legacy.usesHTTPS := startsWith url "https" |}).
Proof.
  split; [apply Sdk_constructor_cases | apply Legacy_constructor_cases].
Qed.

(** The constructor tests of the repository. *)
Example constructor_tests :
  rejects JUndefined JUndefined JUndefined = true
  ∧ rejects JNull JUndefined JUndefined = true
  ∧ rejects JObject JUndefined JUndefined = true
  ∧ rejects JArray JUndefined JUndefined = true
  ∧ rejects (JBoolean true) JUndefined JUndefined = true
  ∧ rejects JFunction JUndefined JUndefined = true
  ∧ rejects (JNumber (Num 1)) (JString "http://example.com/matomo.php") JUndefined = false
  ∧ rejects (JString "siteId") (JString "http://example.com/matomo.php") JUndefined = false
  ∧ rejects (JNumber (Num 1)) JUndefined JUndefined = true
  ∧ rejects (JNumber (Num 1)) (JString "http://example.com/index.php") JUndefined = true
  ∧ rejects (JNumber (Num 1)) (JString "http://example.com/index.php") (JBoolean true)
    = false.
Proof. by split_and!. Qed.

Lemma dispatch_normal {A} r (k : Response → M (option A)) w :
  ∃ a, (dispatch r k w).1 = Normal a.
Proof.
  unfold dispatch, try_catch, fetch, mbind, M_bind, mret, M_ret.
  destruct (server w r) as [resp|e].
  - destruct (ok resp); simpl.
    + destruct (k resp _) as [[a|e] w2]; simpl; [eauto|].
      rewrite emit_if_listened_run. eauto.
    + rewrite emit_if_listened_run. eauto.
  - rewrite emit_if_listened_run. eauto.
Qed.





(** ** Calls without a URL *)

(** Where the check is made, a call from which no URL can be determined
    is rejected with the URL error before anything is sent or changed:
    [track] of index.ts and [trackUrl] of src/index.ts. *)
Lemma url_check_rejects_before_io :
  (∀ (this : Legacy.Tracker) w,
     Legacy.track this AUndefined w
     = (Throw (Error InvalidArgument url_required), w))
  ∧ (∀ (this : Legacy.Tracker) l (o : object) w,
       heap w !! l = Some o → truthy (obj_get "url" o) = false →
       Legacy.track this (ARef l) w
       = (Throw (Error InvalidArgument url_required), w))
  ∧ (∀ (this : Sdk.Tracker) w,
       Sdk.trackUrl this AUndefined w
       = (Throw (Error InvalidArgument url_required), w))
  ∧ (∀ (this : Sdk.Tracker) l (o : object) w,
       heap w !! l = Some o → truthy (obj_get "url" o) = false →
       Sdk.trackUrl this (ARef l) w
       = (Throw (Error InvalidArgument url_required), w)).
Proof.
  split_and!.
  - apply Legacy_track_reject_undefined.
  - apply Legacy_track_reject_ref.
  - apply Sdk_trackUrl_reject_undefined.
  - apply Sdk_trackUrl_reject_ref.
Qed.

(** [track] of src/index.ts makes no such check: given a mapping, with
    or without [url], it sends its request and does not reject. *)
Lemma Sdk_track_sends_any_mapping (this : Sdk.Tracker) l (o : object) w :
  heap w !! l = Some o →
  (∃ result, (Sdk.track this (ARef l) w).1 = Normal result)
  ∧ fetched (Sdk.track this (ARef l) w).2
    = fetched w ++
      [track_request (Sdk.trackerUrl this) (with_site (Sdk.siteId this) o)].
Proof.
  intros H. rewrite (Sdk_track_run this l o) by done. split.
  - apply dispatch_normal.
  - by rewrite track_dispatch_fetched.
Qed.

(** C3 at [track({})] of src/index.ts: the call is not rejected; it sends
    a GET for [?idsite=1&rec=1] and resolves with the response. *)
Theorem Sdk_track_without_url_is_sent :
  let w := set_heap [[]] (quiet_world 200) in
  let run := Sdk.track sdk_example (ARef 0%nat) w in
  run.1 = Normal (Some {| status := 200; text := Normal EmptyString |})
  ∧ fetched run.2 = [fetch_get "http://example.com/matomo.php?idsite=1&rec=1"]
  ∧ heap run.2 = [[("idsite", VNumber (Num 1)); ("rec", VNumber (Num 1))]].
Proof. by split_and!. Qed.

(** ** [trackEvent] and [trackContent] *)

(** C8, as stated, at an event whose category is the empty string: both
    required fields are present in the mapping, yet [trackEvent] rejects
    instead of delegating; likewise [trackContent] with an empty name. *)
Lemma trackEvent_rejects_empty_category :
  let o := [("e_c", VString EmptyString); ("e_a", VString "Play");
            ("c_n", VString EmptyString); ("c_p", VString "banner.png")] in
  let w := set_heap [o] (quiet_world 200) in
  obj_lookup "e_c" o = Some (VString EmptyString)
  ∧ obj_lookup "e_a" o = Some (VString "Play")
  ∧ Sdk.trackEvent sdk_example (ARef 0%nat) w
    = (Throw (Error InvalidArgument event_required), w)
  ∧ obj_lookup "c_n" o = Some (VString EmptyString)
  ∧ obj_lookup "c_p" o = Some (VString "banner.png")
  ∧ Sdk.trackContent sdk_example (ARef 0%nat) w
    = (Throw (Error InvalidArgument content_required), w).
Proof. by split_and!. Qed.

Lemma Sdk_trackEvent_cases this l (o : object) w :
  heap w !! l = Some o →
  Sdk.trackEvent this (ARef l) w
  = if truthy (obj_get "e_c" o) && truthy (obj_get "e_a" o)
    then Sdk.track this (ARef (length (heap w)))
           (set_heap (heap w ++ [obj_set "ca" (VNumber (Num 1)) o]) w)
    else (Throw (Error InvalidArgument event_required), w).
Proof.
  intros H. unfold Sdk.trackEvent.
  erewrite bind_normal by (by apply both_present_run). cbv beta.
  destruct (truthy (obj_get "e_c" o) && truthy (obj_get "e_a" o)); [|done].
  erewrite bind_normal; [|reflexivity]. cbv beta.
  by erewrite bind_normal by (by apply spread_with_ca_run).
Qed.

Lemma Sdk_trackContent_cases this l (o : object) w :
  heap w !! l = Some o →
  Sdk.trackContent this (ARef l) w
  = if truthy (obj_get "c_n" o) && truthy (obj_get "c_p" o)
    then Sdk.track this (ARef (length (heap w)))
           (set_heap (heap w ++ [obj_set "ca" (VNumber (Num 1)) o]) w)
    else (Throw (Error InvalidArgument content_required), w).
Proof.
  intros H. unfold Sdk.trackContent.
  erewrite bind_normal by (by apply both_present_run). cbv beta.
  destruct (truthy (obj_get "c_n" o) && truthy (obj_get "c_p" o)); [|done].
  erewrite bind_normal; [|reflexivity]. cbv beta.
  by erewrite bind_normal by (by apply spread_with_ca_run).
Qed.

(** C8, amended. [trackEvent] rejects, with the world untouched, when
    [e_c] or [e_a] is absent or falsy (the empty string, 0, [NaN]), and so
    does [trackContent] for [c_n] and [c_p]; when both required fields are
    truthy, each is the call of [track] on a fresh copy of the mapping in
    which [ca] is 1 and every other field is the caller's. *)
Theorem trackEvent_trackContent_delegate
    (this : Sdk.Tracker) (l : loc) (o : object) (w : World) :
  heap w !! l = Some o →
  let delegated := obj_set "ca" (VNumber (Num 1)) o in
  (obj_lookup "ca" delegated = Some (VNumber (Num 1))
   ∧ ∀ k, k ≠ "ca" → obj_lookup k delegated = obj_lookup k o)
  ∧ (truthy (obj_get "e_c" o) && truthy (obj_get "e_a" o) = false →
     Sdk.trackEvent this (ARef l) w
     = (Throw (Error InvalidArgument event_required), w))
  ∧ (truthy (obj_get "e_c" o) && truthy (obj_get "e_a" o) = true →
     Sdk.trackEvent this (ARef l) w
     = Sdk.track this (ARef (length (heap w))) (set_heap (heap w ++ [delegated]) w))
  ∧ (truthy (obj_get "c_n" o) && truthy (obj_get "c_p" o) = false →
     Sdk.trackContent this (ARef l) w
     = (Throw (Error InvalidArgument content_required), w))
  ∧ (truthy (obj_get "c_n" o) && truthy (obj_get "c_p" o) = true →
     Sdk.trackContent this (ARef l) w
     = Sdk.track this (ARef (length (heap w))) (set_heap (heap w ++ [delegated]) w)).
Proof.
  intros H delegated. split_and!.
  - apply obj_lookup_set_eq.
  - intros k Hk. apply obj_lookup_set_ne. congruence.
  - intros Hf. by rewrite (Sdk_trackEvent_cases this l o), Hf.
  - intros Ht. by rewrite (Sdk_trackEvent_cases this l o), Ht.
  - intros Hf. by rewrite (Sdk_trackContent_cases this l o), Hf.
  - intros Ht. by rewrite (Sdk_trackContent_cases this l o), Ht.
Qed.

Lemma trackEvent_trackContent_delegate_witness :
  let event := [("e_c", VString "Videos"); ("e_a", VString "Play")] in
  let content := [("c_n", VString "Ad Foo Bar"); ("c_p", VString "banner.png")] in
  fetched (Sdk.trackEvent sdk_example (ARef 0%nat)
             (set_heap [event] (quiet_world 200))).2
  = [fetch_get "http://example.com/matomo.php?e_c=Videos&e_a=Play&ca=1&idsite=1&rec=1"]
  ∧ Sdk.trackContent sdk_example (ARef 0%nat) (set_heap [event] (quiet_world 200))
    = (Throw (Error InvalidArgument content_required),
       set_heap [event] (quiet_world 200))
  ∧ fetched (Sdk.trackContent sdk_example (ARef 0%nat)
               (set_heap [content] (quiet_world 200))).2
    = [fetch_get
         "http://example.com/matomo.php?c_n=Ad+Foo+Bar&c_p=banner.png&ca=1&idsite=1&rec=1"]
  ∧ Sdk.trackEvent sdk_example (ARef 0%nat) (set_heap [content] (quiet_world 200))
    = (Throw (Error InvalidArgument event_required),
       set_heap [content] (quiet_world 200)).
Proof.
  intros event content.
  destruct (trackEvent_trackContent_delegate sdk_example 0%nat event
              (set_heap [event] (quiet_world 200)) eq_refl)
    as (_ & _ & Hevent & Hno_content & _).
  destruct (trackEvent_trackContent_delegate sdk_example 0%nat content
              (set_heap [content] (quiet_world 200)) eq_refl)
    as (_ & Hno_event & _ & _ & Hcontent).
  split_and!.
  - rewrite (Hevent eq_refl). reflexivity.
  - exact (Hno_content eq_refl).
  - rewrite (Hcontent eq_refl). reflexivity.
  - exact (Hno_event eq_refl).
Defined.

(** * Further properties of the two files *)

(** ** Construction *)

(** X1. The checks of the constructor are made in order, and the first
    that fails names the error: an unusable site identifier gives "Matomo
    siteId required." whatever the other arguments are; with a usable
    identifier, an endpoint that is not a non-empty string gives the
    "tracker URL required" message whatever the flag is; the suffix
    message is left for a usable identifier and endpoint with a falsy
    flag. *)
Theorem constructor_error_precedence (siteId trackerUrl noURLValidation : jsval) :
  let site_ok :=
    js_truthy siteId
    && (jstype_eqb (typeof siteId) TNumber || jstype_eqb (typeof siteId) TString) in
  let url_ok := js_truthy trackerUrl && jstype_eqb (typeof trackerUrl) TString in
  let suffix_ok :=
    js_truthy noURLValidation
    || endsWith (the_string trackerUrl) "matomo.php"
    || endsWith (the_string trackerUrl) "piwik.php" in
  (site_ok = false →
   Sdk.MatomoTracker siteId trackerUrl noURLValidation
   = Throw (Error InvalidArgument siteId_required)
   ∧ Legacy.MatomoTracker siteId trackerUrl noURLValidation
     = Throw (Error InvalidArgument siteId_required))
  ∧ (site_ok = true → url_ok = false →
     Sdk.MatomoTracker siteId trackerUrl noURLValidation
     = Throw (Error InvalidArgument trackerUrl_required)
     ∧ Legacy.MatomoTracker siteId trackerUrl noURLValidation
       = Throw (Error InvalidArgument trackerUrl_required))
  ∧ (site_ok = true → url_ok = true → suffix_ok = false →
     Sdk.MatomoTracker siteId trackerUrl noURLValidation
     = Throw (Error InvalidArgument trackerUrl_suffix)
     ∧ Legacy.MatomoTracker siteId trackerUrl noURLValidation
       = Throw (Error InvalidArgument trackerUrl_suffix)).
Proof.
  intros site_ok url_ok suffix_ok. subst site_ok url_ok suffix_ok.
  unfold Sdk.MatomoTracker, Legacy.MatomoTracker, invariant, assert_ok.
  unfold mbind, completion_bind, mret, completion_ret, mthrow, completion_throw.
  split_and!.
  - intros ->. done.
  - intros -> ->. done.
  - intros -> -> Hs.
    apply orb_false_elim in Hs as [Hs Hp]. apply orb_false_elim in Hs as [Hb Hm].
    rewrite Hb. cbn [negb]. by rewrite Hm, Hp.
Qed.

Lemma constructor_error_precedence_witness :
  (Sdk.MatomoTracker JNull (JString "http://example.com/index.php") JUndefined
   = Throw (Error InvalidArgument siteId_required)
   ∧ Legacy.MatomoTracker JNull (JString "http://example.com/index.php") JUndefined
     = Throw (Error InvalidArgument siteId_required))
  ∧ (Sdk.MatomoTracker (JNumber (Num 1)) JUndefined JUndefined
     = Throw (Error InvalidArgument trackerUrl_required)
     ∧ Legacy.MatomoTracker (JNumber (Num 1)) JUndefined JUndefined
       = Throw (Error InvalidArgument trackerUrl_required))
  ∧ (Sdk.MatomoTracker (JNumber (Num 1)) (JString "http://example.com/index.php")
       JUndefined
     = Throw (Error InvalidArgument trackerUrl_suffix)
     ∧ Legacy.MatomoTracker (JNumber (Num 1)) (JString "http://example.com/index.php")
         JUndefined
       = Throw (Error InvalidArgument trackerUrl_suffix)).
Proof.
  exact (conj
    (proj1 (constructor_error_precedence JNull
              (JString "http://example.com/index.php") JUndefined) eq_refl)
    (conj
      (proj1 (proj2 (constructor_error_precedence (JNumber (Num 1)) JUndefined
                       JUndefined)) eq_refl eq_refl)
      (proj2 (proj2 (constructor_error_precedence (JNumber (Num 1))
                       (JString "http://example.com/index.php") JUndefined))
         eq_refl eq_refl eq_refl))).
Defined.

Lemma rejects_false siteId trackerUrl noURLValidation :
  rejects siteId trackerUrl noURLValidation = false →
  js_truthy siteId = true
  ∧ (typeof siteId = TNumber ∨ typeof siteId = TString)
  ∧ ∃ url, trackerUrl = JString url
           ∧ string_nonempty url = true
           ∧ (js_truthy noURLValidation = false →
              endsWith url "matomo.php" || endsWith url "piwik.php" = true).
Proof.
  unfold rejects. intros H.
  apply orb_false_elim in H as [H Hsuffix].
  apply orb_false_elim in H as [H Hurl].
  apply orb_false_elim in H as [Htruthy Htype].
  apply negb_false_iff in Htruthy, Htype.
  split; [done|]. split.
  - destruct siteId; simpl in *; auto; discriminate.
  - destruct trackerUrl as [| | | |url| | |]; try discriminate.
    exists url. apply negb_false_iff in Hurl. split_and!; [done|done|].
    intros Hflag. rewrite Hflag in Hsuffix. simpl in Hsuffix.
    by apply negb_false_iff in Hsuffix.
Qed.

(** X2. What holds of every tracker a constructor returned: the site
    identifier given was a truthy number or string and [siteId] is its
    numeric coercion; the endpoint given was a non-empty string and is
    stored as it is; unless the flag was truthy, the endpoint ends with
    [matomo.php] or [piwik.php]; in index.ts [usesHTTPS] tells whether the
    endpoint starts with [https]. *)
Theorem constructed_tracker_invariant :
  (∀ siteId trackerUrl noURLValidation (this : Sdk.Tracker),
     Sdk.MatomoTracker siteId trackerUrl noURLValidation = Normal this →
     js_truthy siteId = true
     ∧ (typeof siteId = TNumber ∨ typeof siteId = TString)
     ∧ Sdk.siteId this = Number siteId
     ∧ trackerUrl = JString (Sdk.trackerUrl this)
     ∧ string_nonempty (Sdk.trackerUrl this) = true
     ∧ (js_truthy noURLValidation = false →
        endsWith (Sdk.trackerUrl this) "matomo.php"
        || endsWith (Sdk.trackerUrl this) "piwik.php" = true))
  ∧ (∀ siteId trackerUrl noURLValidation (this : Legacy.Tracker),
       Legacy.MatomoTracker siteId trackerUrl noURLValidation = Normal this →
       js_truthy siteId = true
       ∧ (typeof siteId = TNumber ∨ typeof siteId = TString)
       ∧ Legacy.siteId this = Number siteId
       ∧ trackerUrl = JString (Legacy.trackerUrl this)
       ∧ string_nonempty (Legacy.trackerUrl this) = true
       ∧ (js_truthy noURLValidation = false →
          endsWith (Legacy.trackerUrl this) "matomo.php"
          || endsWith (Legacy.trackerUrl this) "piwik.php" = true)
       ∧ Legacy.usesHTTPS this = startsWith (Legacy.trackerUrl this) "https").
Proof.
  split.
  - intros siteId trackerUrl noURLValidation this Hnew.
    pose proof (Sdk_constructor_cases siteId trackerUrl noURLValidation) as Hc.
    destruct (rejects siteId trackerUrl noURLValidation) eqn:R.
    + destruct Hc as [msg Hmsg]. congruence.
    + destruct Hc as (url & -> & Hok). rewrite Hok in Hnew. simplify_eq.
      apply rejects_false in R as (Ht & Hty & url' & Hu & Hne & Hsuf).
      simplify_eq. simpl. by split_and!.
  - intros siteId trackerUrl noURLValidation this Hnew.
    pose proof (Legacy_constructor_cases siteId trackerUrl noURLValidation) as Hc.
    destruct (rejects siteId trackerUrl noURLValidation) eqn:R.
    + destruct Hc as [msg Hmsg]. congruence.
    + destruct Hc as (url & -> & Hok). rewrite Hok in Hnew. simplify_eq.
      apply rejects_false in R as (Ht & Hty & url' & Hu & Hne & Hsuf).
      simplify_eq. simpl. by split_and!.
Qed.

Lemma constructed_tracker_invariant_witness :
  (JString "https://example.com/piwik.php" = JString "https://example.com/piwik.php"
   ∧ endsWith "https://example.com/piwik.php" "matomo.php"
     || endsWith "https://example.com/piwik.php" "piwik.php" = true)
  ∧ startsWith "https://example.com/piwik.php" "https" = true.
Proof.
  destruct constructed_tracker_invariant as [Hsdk Hlegacy].
  destruct (Hsdk (JString "7") (JString "https://example.com/piwik.php") JUndefined
              {| Sdk.siteId := Num 7; Sdk.trackerUrl := "https://example.com/piwik.php" |}
              eq_refl) as (_ & _ & _ & Hurl & _ & Hsuffix).
  destruct (Hlegacy (JString "7") (JString "https://example.com/piwik.php") JUndefined
              {| Legacy.siteId := Num 7;
                 Legacy.trackerUrl := "https://example.com/piwik.php";
                 Legacy.usesHTTPS := true |}
              eq_refl) as (_ & _ & _ & _ & _ & _ & Hhttps).
  exact (conj (conj Hurl (Hsuffix eq_refl)) (eq_sym Hhttps)).
Defined.

(** ** [trackUrl] *)

Lemma Sdk_trackUrl_empty_string this w :
  Sdk.trackUrl this (AString EmptyString) w
  = (Throw (Error InvalidArgument url_required),
     set_heap (heap w ++ [[("url", VString EmptyString)]]) w).
Proof.
  transitivity (Sdk.trackUrl this (ARef (length (heap w)))
                  (set_heap (heap w ++ [[("url", VString EmptyString)]]) w));
    [reflexivity|].
  apply (Sdk_trackUrl_reject_ref this _ [("url", VString EmptyString)]); [|done].
  simpl. rewrite lookup_app_r by lia. by rewrite Nat.sub_diag.
Qed.

(** X3. [trackUrl] of src/index.ts is [track] behind a URL check: on a
    mapping whose [url] is truthy it is the call of [track] on that very
    mapping; on a mapping whose [url] is missing or falsy, and without an
    argument, it rejects with the URL message and leaves the world as it
    was; on the empty string it rejects with the URL message and sends
    nothing. *)
Theorem trackUrl_checks_then_tracks (this : Sdk.Tracker) (w : World) :
  (∀ l (o : object),
     heap w !! l = Some o →
     Sdk.trackUrl this (ARef l) w
     = if truthy (obj_get "url" o)
       then Sdk.track this (ARef l) w
       else (Throw (Error InvalidArgument url_required), w))
  ∧ Sdk.trackUrl this AUndefined w
    = (Throw (Error InvalidArgument url_required), w)
  ∧ (Sdk.trackUrl this (AString EmptyString) w).1
    = Throw (Error InvalidArgument url_required)
  ∧ fetched (Sdk.trackUrl this (AString EmptyString) w).2 = fetched w.
Proof.
  split_and!.
  - intros l o H. destruct (truthy (obj_get "url" o)) eqn:Hurl.
    + by apply (Sdk_trackUrl_run this l o).
    + by apply (Sdk_trackUrl_reject_ref this l o).
  - reflexivity.
  - by rewrite Sdk_trackUrl_empty_string.
  - by rewrite Sdk_trackUrl_empty_string.
Qed.

Lemma trackUrl_checks_then_tracks_witness :
  let w := set_heap [[("url", VString "http://a.b/")]; [("url", VNumber (Num 0))]]
             (quiet_world 200) in
  Sdk.trackUrl sdk_example (ARef 0%nat) w = Sdk.track sdk_example (ARef 0%nat) w
  ∧ Sdk.trackUrl sdk_example (ARef 1%nat) w
    = (Throw (Error InvalidArgument url_required), w).
Proof.
  intros w.
  destruct (trackUrl_checks_then_tracks sdk_example w) as (Href & _).
  exact (conj (Href 0%nat _ eq_refl) (Href 1%nat _ eq_refl)).
Defined.

(** ** Successful deliveries *)

Lemma dispatch_ok {A} r (k : Response → M (option A)) w resp :
  server w r = Normal resp → ok resp = true →
  dispatch r k w
  = try_catch (k resp)
      (fun err => emit_if_listened (VString (message err));; mret None)
      (set_fetched (fetched w ++ [r]) w).
Proof.
  intros Hs Hok.
  unfold dispatch, try_catch at 1, fetch.
  unfold mbind at 1. unfold M_bind at 1. cbv beta.
  rewrite Hs. cbv beta iota. rewrite Hok. cbn [negb]. reflexivity.
Qed.

(** X4. When the response has a success status, [track] of both files
    and [trackBulk] of src/index.ts resolve with that very response; the
    request is logged, the mapping carries the base fields, and nothing
    is emitted. *)
Theorem ok_response_is_returned :
  (∀ (this : Sdk.Tracker) l (o : object) w resp,
     heap w !! l = Some o →
     server w (track_request (Sdk.trackerUrl this) (with_site (Sdk.siteId this) o))
     = Normal resp →
     ok resp = true →
     Sdk.track this (ARef l) w
     = (Normal (Some resp),
        set_fetched
          (fetched w ++
           [track_request (Sdk.trackerUrl this) (with_site (Sdk.siteId this) o)])
          (set_heap (<[l := with_site (Sdk.siteId this) o]> (heap w)) w)))
  ∧ (∀ (this : Legacy.Tracker) l (o : object) w resp,
       heap w !! l = Some o → truthy (obj_get "url" o) = true →
       server w (track_request (Legacy.trackerUrl this)
                   (with_site (Legacy.siteId this) o))
       = Normal resp →
       ok resp = true →
       Legacy.track this (ARef l) w
       = (Normal (Some resp),
          set_fetched
            (fetched w ++
             [track_request (Legacy.trackerUrl this)
                (with_site (Legacy.siteId this) o)])
            (set_heap (<[l := with_site (Legacy.siteId this) o]> (heap w)) w)))
  ∧ (∀ (this : Sdk.Tracker) items (objs : list object) w resp,
       items ≠ [] →
       Forall2 (fun l o => heap w !! l = Some o) items objs →
       server w (bulk_request (Sdk.trackerUrl this)
                   (map (fun o => "?" +:+ query_string (with_site (Sdk.siteId this) o))
                        objs))
       = Normal resp →
       ok resp = true →
       (Sdk.trackBulk this (Some items) w).1 = Normal (Some resp)
       ∧ delivered (Sdk.trackBulk this (Some items) w).2 = delivered w).
Proof.
  split_and!.
  - intros this l o w resp H Hs Hok.
    rewrite (Sdk_track_run this l o) by done.
    by rewrite (dispatch_ok_return _ _ resp).
  - intros this l o w resp H Hurl Hs Hok.
    rewrite (Legacy_track_run this l o) by done.
    by rewrite (dispatch_ok_return _ _ resp).
  - intros this items objs w resp Hne Hobjs Hs Hok.
    destruct items as [|l items]; [done|].
    rewrite Sdk_trackBulk_items.
    erewrite bind_normal
      by (apply mapM_bulk_fragment_run; by eapply Forall2_allocated).
    cbv beta. rewrite (fragments_Forall2 _ _ _ objs) by done.
    by rewrite (dispatch_ok_return _ _ resp).
Qed.

Lemma ok_response_is_returned_witness :
  let w := set_heap [[("url", VString "http://a.b/")]] (quiet_world 204) in
  let resp := {| status := 204; text := Normal EmptyString |} in
  (Sdk.track sdk_example (ARef 0%nat) w).1 = Normal (Some resp)
  ∧ (Legacy.track legacy_example (ARef 0%nat) w).1 = Normal (Some resp)
  ∧ (Sdk.trackBulk sdk_example (Some [0%nat]) w).1 = Normal (Some resp).
Proof.
  intros w resp.
  destruct ok_response_is_returned as (Hsdk & Hlegacy & Hbulk).
  split_and!.
  - exact (f_equal fst (Hsdk sdk_example 0%nat _ w resp eq_refl eq_refl eq_refl)).
  - exact (f_equal fst
             (Hlegacy legacy_example 0%nat _ w resp eq_refl eq_refl eq_refl eq_refl)).
  - exact (proj1 (Hbulk sdk_example [0%nat] [[("url", VString "http://a.b/")]] w resp
                    ltac:(discriminate) ltac:(repeat constructor) eq_refl eq_refl)).
Defined.

Lemma live_dispatch_ok {A} r (k : Response → Live.LM (option A)) s resp :
  server (Live.base s) r = Normal resp → ok resp = true →
  live_dispatch r k s
  = Live.try_catch (k resp)
      (fun err => live_emit_if_listened (VString (message err));; mret None)
      (Live.resume (Live.set_base (set_fetched (fetched (Live.base s) ++ [r])
                                     (Live.base s)) s)).
Proof.
  intros Hs Hok.
  unfold live_dispatch, Live.try_catch at 1, Live.fetch.
  unfold mbind at 1. unfold Live.LM_bind at 1. cbv beta.
  rewrite Hs. cbv beta iota. rewrite Hok. cbn [negb]. reflexivity.
Qed.

(** What the [catch] does with an exception: whatever the listeners do,
    no callback is called; when they return, the call has no result and
    they were handed the message. *)
Lemma live_catch_run {A} (e : exn) s :
  let run := (live_emit_if_listened (VString (message e));;
              mret (M := Live.LM) (@None A)) s in
  called_back (Live.base run.2) = called_back (Live.base s)
  ∧ (returns s (VString (message e)) (error_listeners (Live.base s)) →
     run.1 = Normal None
     ∧ delivered (Live.base run.2)
       = delivered (Live.base s)
         ++ map (fun h => (h, VString (message e))) (error_listeners (Live.base s))).
Proof.
  intros run. subst run. split.
  - pose proof (live_emit_if_listened_quiet (VString (message e)) s) as [_ Hq].
    destruct (live_emit_if_listened _ s) as [[[]|e1] s1] eqn:E; simpl in Hq.
    + by erewrite live_bind_normal by done.
    + by erewrite live_bind_throw by done.
  - intros Hret.
    erewrite live_bind_normal by (by apply live_emit_if_listened_run).
    by rewrite <- handed_delivered.
Qed.

(** The [try] block of [trackBulk] of index.ts after a success status,
    with its [catch]. *)
Lemma live_text_callback_run callback (resp : Response) s :
  Live.try_catch
    (responseData ← Live.read_text resp;
     Live.call_back callback responseData;;
     mret (M := Live.LM) (@None Response))
    (fun err => live_emit_if_listened (VString (message err));; mret None) s
  = match text resp with
    | Normal data =>
        match callback with
        | None => (Normal None, Live.resume s)
        | Some c =>
            let s1 :=
              Live.set_base
                (set_called_back (called_back (Live.base (Live.resume s)) ++ [(c, data)])
                   (Live.base (Live.resume s)))
                (Live.resume s) in
            match Live.callback_throws (Live.resume s) c data with
            | None => (Normal None, s1)
            | Some e => (live_emit_if_listened (VString (message e));; mret None) s1
            end
        end
    | Throw e =>
        (live_emit_if_listened (VString (message e));; mret None) (Live.resume s)
    end.
Proof.
  unfold Live.try_catch, Live.read_text.
  unfold mbind at 1. unfold Live.LM_bind at 1.
  destruct (text resp) as [data|e]; [|done].
  destruct callback as [c|]; [|done].
  unfold Live.call_back, mbind, Live.LM_bind at 1. cbv beta zeta.
  by destruct (Live.callback_throws (Live.resume s) c data).
Qed.

(** X5. [trackBulk] of index.ts on a success status reads the body and
    calls the callback, both inside the [try].  When the body cannot be
    read, the callback is not called and the failure's message is
    reported to the ['error'] listeners of that moment.  When it can, the
    callback, if one was given, is called once with the text; if it
    returns, nothing is emitted and the call has no result; if it throws,
    the [catch] reports the message of what it threw to the ['error']
    listeners, like a failure of the transport. *)
Theorem Legacy_trackBulk_callback_is_inside_try
    (this : Legacy.Tracker) items (objs : list object) callback s resp :
  items ≠ [] →
  Forall2 (fun l o => heap (Live.base s) !! l = Some o) items objs →
  server (Live.base s)
    (bulk_request (Legacy.trackerUrl this)
       (map (fun o => "?" +:+ query_string (with_site (Legacy.siteId this) o)) objs))
  = Normal resp →
  ok resp = true →
  let run := LiveLegacy.trackBulk this (Some items) callback s in
  let nothing_emitted :=
    run.1 = Normal None ∧ delivered (Live.base run.2) = delivered (Live.base s) in
  match text resp with
  | Throw e =>
      called_back (Live.base run.2) = called_back (Live.base s)
      ∧ reported_to (listeners_after_text s) s run (VString (message e))
  | Normal data =>
      match callback with
      | None =>
          called_back (Live.base run.2) = called_back (Live.base s) ∧ nothing_emitted
      | Some c =>
          called_back (Live.base run.2) = called_back (Live.base s) ++ [(c, data)]
          ∧ match Live.callback_throws s c data with
            | None => nothing_emitted
            | Some e => reported_to (listeners_after_text s) s run (VString (message e))
            end
      end
  end.
Proof.
  intros Hne Hobjs Hs Hok run nothing_emitted. subst run nothing_emitted.
  destruct items as [|l items]; [done|].
  rewrite LiveLegacy_trackBulk_items.
  erewrite live_bind_normal
    by (apply lift_run, mapM_bulk_fragment_run; by eapply Forall2_allocated).
  cbv beta. rewrite (fragments_Forall2 _ _ _ objs) by done.
  rewrite (live_dispatch_ok _ _ _ resp) by done.
  rewrite live_text_callback_run.
  set (s2 := Live.resume (Live.resume _)).
  assert (error_listeners (Live.base s2) = listeners_after_text s) as Hls by done.
  destruct (text resp) as [data|e].
  - destruct callback as [c|]; [|done].
    cbv zeta.
    change (Live.callback_throws s2 c data) with (Live.callback_throws s c data).
    destruct (Live.callback_throws s c data) as [e|]; [|done].
    set (s3 := Live.set_base _ s2).
    destruct (live_catch_run (A := Response) e s3) as [Hcb Hrun].
    split; [by rewrite Hcb|].
    intros Hret. destruct (Hrun Hret) as [-> ->].
    split_and!; [done|done|apply app_map_ne_iff].
  - destruct (live_catch_run (A := Response) e s2) as [Hcb Hrun].
    split; [by rewrite Hcb|].
    intros Hret. destruct (Hrun Hret) as [-> ->].
    split_and!; [done|done|apply app_map_ne_iff].
Qed.

Lemma Legacy_trackBulk_callback_is_inside_try_witness :
  let w := set_subscribers [("error", 7%nat)]
             (set_heap [[("e_c", VString "Buy")]] (quiet_world 200)) in
  (let run := LiveLegacy.trackBulk legacy_example (Some [0%nat]) (Some 3%nat)
                (among w returning returning) in
   called_back (Live.base run.2) = [(3%nat, EmptyString)]
   ∧ run.1 = Normal None ∧ delivered (Live.base run.2) = [])
  ∧ (let run := LiveLegacy.trackBulk legacy_example (Some [0%nat]) (Some 3%nat)
                  (among w returning throwing) in
     called_back (Live.base run.2) = [(3%nat, EmptyString)]
     ∧ run.1 = Normal None
     ∧ delivered (Live.base run.2) = [(7%nat, VString "listener failed")]).
Proof.
  intros w. split.
  - exact (Legacy_trackBulk_callback_is_inside_try legacy_example [0%nat]
             [[("e_c", VString "Buy")]] (Some 3%nat) (among w returning returning)
             {| status := 200; text := Normal EmptyString |}
             ltac:(discriminate) ltac:(repeat constructor) eq_refl eq_refl).
  - destruct (Legacy_trackBulk_callback_is_inside_try legacy_example [0%nat]
                [[("e_c", VString "Buy")]] (Some 3%nat) (among w returning throwing)
                {| status := 200; text := Normal EmptyString |}
                ltac:(discriminate) ltac:(repeat constructor) eq_refl eq_refl)
      as [Hcb Hrep].
    destruct (Hrep ltac:(by repeat constructor)) as (Hres & Hdel & _).
    exact (conj Hcb (conj Hres Hdel)).
Defined.

(** ** How a call ends *)

Lemma io_unchanged_refl w : io_unchanged w w.
Proof. split; [apply same_io_refl | done]. Qed.

Lemma io_unchanged_set_heap h w w1 : io_unchanged w w1 → io_unchanged w (set_heap h w1).
Proof. intros [(?&?&?&?) ?]. by repeat split. Qed.

Lemma io_unchanged_trans w w1 w2 :
  io_unchanged w w1 → io_unchanged w1 w2 → io_unchanged w w2.
Proof.
  intros [H1 C1] [H2 C2]. split; [by eapply same_io_trans | congruence].
Qed.

Lemma rejected_here {A} w w1 (e : exn) :
  io_unchanged w w1 → kind e = InvalidArgument ∨ kind e = TypeError →
  settles (A := A) w (Throw e, w1).
Proof.
  intros [(Hsub & Hsrv & Hf & Hd) Hc] Hk. left. exists e. by split_and!.
Qed.

Lemma dispatch_subscribers {A} r (k : Response → M (option A)) w :
  (∀ resp w1, subscribers (k resp w1).2 = subscribers w1) →
  subscribers (dispatch r k w).2 = subscribers w.
Proof.
  intros Hk.
  unfold dispatch, try_catch, fetch, mbind, M_bind, mret, M_ret.
  destruct (server w r) as [resp|e] eqn:Hs.
  - destruct (ok resp); simpl.
    + specialize (Hk resp (set_fetched (fetched w ++ [r]) w)).
      destruct (k resp _) as [[a|e] w2]; simpl in *.
      * done.
      * by rewrite emit_if_listened_run.
    + by rewrite emit_if_listened_run.
  - by rewrite emit_if_listened_run.
Qed.

Lemma dispatch_resolves {A} r (k : Response → M (option A)) w w1 :
  io_unchanged w w1 →
  (∀ resp w2, fetched (k resp w2).2 = fetched w2) →
  (∀ resp w2, subscribers (k resp w2).2 = subscribers w2) →
  settles w (dispatch r k w1).
Proof.
  intros [(Hsub & Hsrv & Hf & Hd) Hc] Hkf Hks. right.
  destruct (dispatch_normal r k w1) as [a Ha].
  exists a, r. split_and!.
  - done.
  - rewrite dispatch_fetched by done. by rewrite Hf.
  - rewrite dispatch_subscribers by done. done.
Qed.

Lemma text_callback_subscribers callback (resp : Response) w :
  subscribers ((responseData ← read_text resp;
                call_back callback responseData;;
                mret (M := M) (@None Response)) w).2 = subscribers w.
Proof.
  unfold read_text, call_back, mbind, M_bind, mret, M_ret.
  destruct (text resp); [|done]. by destruct callback.
Qed.

Lemma Sdk_track_settles_from this options w w1 :
  io_unchanged w w1 → settles w (Sdk.track this options w1).
Proof.
  intros Hio. destruct options as [|u|l]; [by apply rejected_here; auto..|].
  destruct (heap w1 !! l) as [o|] eqn:H.
  - rewrite (Sdk_track_run this l o) by done.
    apply dispatch_resolves; [by apply io_unchanged_set_heap|done..].
  - rewrite Sdk_track_dangling by done. apply rejected_here; auto.
Qed.

Lemma Legacy_track_settles this options w : settles w (Legacy.track this options w).
Proof.
  destruct options as [|u|l].
  - apply rejected_here; [apply io_unchanged_refl | auto].
  - destruct u as [|c u].
    + rewrite Legacy_track_empty_string.
      apply rejected_here; [apply io_unchanged_set_heap, io_unchanged_refl | auto].
    + rewrite Legacy_track_run_string by done.
      apply dispatch_resolves;
        [apply io_unchanged_set_heap, io_unchanged_refl|done..].
  - destruct (heap w !! l) as [o|] eqn:H.
    + destruct (truthy (obj_get "url" o)) eqn:Hurl.
      * rewrite (Legacy_track_run this l o) by done.
        apply dispatch_resolves;
          [apply io_unchanged_set_heap, io_unchanged_refl|done..].
      * rewrite (Legacy_track_reject_ref this l o) by done.
        apply rejected_here; [apply io_unchanged_refl | auto].
    + rewrite Legacy_track_dangling by done.
      apply rejected_here; [apply io_unchanged_refl | auto].
Qed.

Lemma Sdk_trackUrl_dangling this l w :
  heap w !! l = None → Sdk.trackUrl this (ARef l) w = (Throw not_an_object, w).
Proof.
  intros H. unfold Sdk.trackUrl.
  erewrite bind_normal; [|reflexivity]. cbv beta.
  erewrite bind_throw; [done|]. cbn [arg_truthy].
  erewrite bind_throw; [done|]. unfold member, deref.
  erewrite bind_throw; [done|]. by rewrite H.
Qed.

Lemma Sdk_trackUrl_settles this options w : settles w (Sdk.trackUrl this options w).
Proof.
  destruct options as [|u|l].
  - apply rejected_here; [apply io_unchanged_refl | auto].
  - destruct u as [|c u].
    + rewrite Sdk_trackUrl_empty_string.
      apply rejected_here; [apply io_unchanged_set_heap, io_unchanged_refl | auto].
    + rewrite Sdk_trackUrl_run_string by done.
      apply dispatch_resolves;
        [apply io_unchanged_set_heap, io_unchanged_refl|done..].
  - destruct (heap w !! l) as [o|] eqn:H.
    + destruct (truthy (obj_get "url" o)) eqn:Hurl.
      * rewrite (Sdk_trackUrl_run this l o) by done.
        apply Sdk_track_settles_from, io_unchanged_refl.
      * rewrite (Sdk_trackUrl_reject_ref this l o) by done.
        apply rejected_here; [apply io_unchanged_refl | auto].
    + rewrite Sdk_trackUrl_dangling by done.
      apply rejected_here; [apply io_unchanged_refl | auto].
Qed.

Lemma both_present_string s a b w :
  Sdk.both_present (AString s) a b w = (Normal false, w).
Proof. by destruct s. Qed.

Lemma both_present_dangling l a b w :
  heap w !! l = None → Sdk.both_present (ARef l) a b w = (Throw not_an_object, w).
Proof.
  intros H. unfold Sdk.both_present. cbn [arg_truthy].
  erewrite bind_throw; [done|]. unfold member, deref.
  erewrite bind_throw; [done|]. by rewrite H.
Qed.

Lemma Sdk_trackEvent_settles this options w : settles w (Sdk.trackEvent this options w).
Proof.
  destruct options as [|s|l].
  - apply rejected_here; [apply io_unchanged_refl | auto].
  - unfold Sdk.trackEvent. erewrite bind_normal by apply both_present_string.
    apply rejected_here; [apply io_unchanged_refl | auto].
  - destruct (heap w !! l) as [o|] eqn:H.
    + rewrite (Sdk_trackEvent_cases this l o) by done.
      destruct (truthy (obj_get "e_c" o) && truthy (obj_get "e_a" o)).
      * apply Sdk_track_settles_from, io_unchanged_set_heap, io_unchanged_refl.
      * apply rejected_here; [apply io_unchanged_refl | auto].
    + unfold Sdk.trackEvent. erewrite bind_throw by (by apply both_present_dangling).
      apply rejected_here; [apply io_unchanged_refl | auto].
Qed.

Lemma Sdk_trackContent_settles this options w :
  settles w (Sdk.trackContent this options w).
Proof.
  destruct options as [|s|l].
  - apply rejected_here; [apply io_unchanged_refl | auto].
  - unfold Sdk.trackContent. erewrite bind_normal by apply both_present_string.
    apply rejected_here; [apply io_unchanged_refl | auto].
  - destruct (heap w !! l) as [o|] eqn:H.
    + rewrite (Sdk_trackContent_cases this l o) by done.
      destruct (truthy (obj_get "c_n" o) && truthy (obj_get "c_p" o)).
      * apply Sdk_track_settles_from, io_unchanged_set_heap, io_unchanged_refl.
      * apply rejected_here; [apply io_unchanged_refl | auto].
    + unfold Sdk.trackContent.
      erewrite bind_throw by (by apply both_present_dangling).
      apply rejected_here; [apply io_unchanged_refl | auto].
Qed.

Lemma bulk_fragment_outcome site l w :
  io_unchanged w (bulk_fragment site l w).2
  ∧ ∀ e, (bulk_fragment site l w).1 = Throw e → e = not_an_object.
Proof.
  destruct (heap w !! l) as [o|] eqn:H.
  - rewrite (bulk_fragment_run site l o) by done. split; [|done].
    apply io_unchanged_set_heap, io_unchanged_refl.
  - unfold bulk_fragment.
    erewrite bind_throw by (by apply assign_dangling).
    split; [apply io_unchanged_refl|]. simpl. congruence.
Qed.

Lemma mapM_bulk_fragment_outcome site items w :
  io_unchanged w (mapM (bulk_fragment site) items w).2
  ∧ ∀ e, (mapM (bulk_fragment site) items w).1 = Throw e → e = not_an_object.
Proof.
  revert w. induction items as [|l items IH]; intros w.
  { split; [apply io_unchanged_refl | done]. }
  cbn [mapM]. destruct (bulk_fragment_outcome site l w) as [Hio He].
  destruct (bulk_fragment site l w) as [[frag|e] w1] eqn:E1; simpl in Hio, He.
  - erewrite bind_normal by done. cbv beta.
    destruct (IH w1) as [Hio1 He1].
    destruct (mapM (bulk_fragment site) items w1) as [[frags|e] w2] eqn:E2;
      simpl in Hio1, He1.
    + erewrite bind_normal by done. split; [by eapply io_unchanged_trans | done].
    + erewrite bind_throw by done. split; [by eapply io_unchanged_trans | done].
  - erewrite bind_throw by done. simpl. split; [exact Hio|].
    intros e0 [= <-]. by apply He.
Qed.

Lemma Sdk_trackBulk_settles this eventItems w :
  settles w (Sdk.trackBulk this eventItems w).
Proof.
  destruct eventItems as [[|l items]|];
    [apply rejected_here; [apply io_unchanged_refl | auto]| |
     apply rejected_here; [apply io_unchanged_refl | auto]].
  rewrite Sdk_trackBulk_items.
  destruct (mapM_bulk_fragment_outcome (Sdk.siteId this) (l :: items) w) as [Hio He].
  destruct (mapM (bulk_fragment (Sdk.siteId this)) (l :: items) w)
    as [[frags|e] w1] eqn:E; simpl in Hio, He.
  - erewrite bind_normal by done. by apply dispatch_resolves.
  - erewrite bind_throw by done. rewrite (He e eq_refl).
    apply rejected_here; auto.
Qed.

Lemma Legacy_trackBulk_settles this eventItems callback w :
  settles w (Legacy.trackBulk this eventItems callback w).
Proof.
  destruct eventItems as [[|l items]|];
    [apply rejected_here; [apply io_unchanged_refl | auto]| |
     apply rejected_here; [apply io_unchanged_refl | auto]].
  rewrite Legacy_trackBulk_items.
  destruct (mapM_bulk_fragment_outcome (Legacy.siteId this) (l :: items) w)
    as [Hio He].
  destruct (mapM (bulk_fragment (Legacy.siteId this)) (l :: items) w)
    as [[frags|e] w1] eqn:E; simpl in Hio, He.
  - erewrite bind_normal by done.
    apply dispatch_resolves; [done| |]; intros.
    + apply text_callback_fetched.
    + apply text_callback_subscribers.
  - erewrite bind_throw by done. rewrite (He e eq_refl).
    apply rejected_here; auto.
Qed.

(** X6. Every call of every operation of both files, whatever its
    argument and whatever the network does, ends in one of two ways:
    rejected with an argument error (or the type error of a property
    access on a non-object) before anything was sent, emitted or called
    back; or resolved after exactly one request.  No call sends two
    requests, none rejects after a request was sent, and none changes the
    listener table. *)
Theorem every_call_settles :
  (∀ (this : Legacy.Tracker) options w, settles w (Legacy.track this options w))
  ∧ (∀ (this : Legacy.Tracker) eventItems callback w,
       settles w (Legacy.trackBulk this eventItems callback w))
  ∧ (∀ (this : Sdk.Tracker) options w, settles w (Sdk.track this options w))
  ∧ (∀ (this : Sdk.Tracker) options w, settles w (Sdk.trackUrl this options w))
  ∧ (∀ (this : Sdk.Tracker) options w, settles w (Sdk.trackEvent this options w))
  ∧ (∀ (this : Sdk.Tracker) options w, settles w (Sdk.trackContent this options w))
  ∧ (∀ (this : Sdk.Tracker) eventItems w,
       settles w (Sdk.trackBulk this eventItems w)).
Proof.
  split_and!.
  - apply Legacy_track_settles.
  - apply Legacy_trackBulk_settles.
  - intros. apply Sdk_track_settles_from, io_unchanged_refl.
  - apply Sdk_trackUrl_settles.
  - apply Sdk_trackEvent_settles.
  - apply Sdk_trackContent_settles.
  - apply Sdk_trackBulk_settles.
Qed.

(** ** [trackEvent] and [trackContent] work on a copy *)

Lemma Sdk_track_heap this l (o : object) w :
  heap w !! l = Some o →
  heap (Sdk.track this (ARef l) w).2 = <[l := with_site (Sdk.siteId this) o]> (heap w).
Proof.
  intros H. rewrite (Sdk_track_run this l o) by done. by rewrite dispatch_heap.
Qed.

Lemma Sdk_track_fetched this l (o : object) w :
  heap w !! l = Some o →
  fetched (Sdk.track this (ARef l) w).2
  = fetched w ++ [track_request (Sdk.trackerUrl this) (with_site (Sdk.siteId this) o)].
Proof.
  intros H. rewrite (Sdk_track_run this l o) by done.
  by rewrite track_dispatch_fetched.
Qed.

Lemma delegated_run this l (o : object) w :
  heap w !! l = Some o →
  let delegated := obj_set "ca" (VNumber (Num 1)) o in
  let run := Sdk.track this (ARef (length (heap w)))
               (set_heap (heap w ++ [delegated]) w) in
  heap run.2 = heap w ++ [with_site (Sdk.siteId this) delegated]
  ∧ heap run.2 !! l = Some o
  ∧ fetched run.2
    = fetched w ++
      [track_request (Sdk.trackerUrl this) (with_site (Sdk.siteId this) delegated)].
Proof.
  intros H delegated run. subst run.
  assert ((set_heap (heap w ++ [delegated]) w).(heap) !! length (heap w)
          = Some delegated) as Hl.
  { simpl. rewrite lookup_app_r by lia. by rewrite Nat.sub_diag. }
  rewrite (Sdk_track_heap this _ _ _ Hl), (Sdk_track_fetched this _ _ _ Hl).
  simpl heap. rewrite insert_fresh_slot. split_and!; [done| |done].
  by rewrite lookup_app_l by (by eapply lookup_lt_Some).
Qed.

(** X7. [trackEvent] and [trackContent], given a mapping whose required
    fields are truthy, work on a copy: the caller's mapping is left exactly
    as it was (unlike [track], they inject nothing into it); one object is
    added to the heap, the copy with [ca], [idsite] and [rec] set; and the
    one request sent is built from that copy, so a [ca] the caller supplied
    is overridden by 1. *)
Theorem trackEvent_leaves_caller_mapping
    (this : Sdk.Tracker) (l : loc) (o : object) (w : World) :
  heap w !! l = Some o →
  let sent := with_site (Sdk.siteId this) (obj_set "ca" (VNumber (Num 1)) o) in
  obj_lookup "ca" sent = Some (VNumber (Num 1))
  ∧ (truthy (obj_get "e_c" o) && truthy (obj_get "e_a" o) = true →
     heap (Sdk.trackEvent this (ARef l) w).2 = heap w ++ [sent]
     ∧ heap (Sdk.trackEvent this (ARef l) w).2 !! l = Some o
     ∧ fetched (Sdk.trackEvent this (ARef l) w).2
       = fetched w ++ [track_request (Sdk.trackerUrl this) sent])
  ∧ (truthy (obj_get "c_n" o) && truthy (obj_get "c_p" o) = true →
     heap (Sdk.trackContent this (ARef l) w).2 = heap w ++ [sent]
     ∧ heap (Sdk.trackContent this (ARef l) w).2 !! l = Some o
     ∧ fetched (Sdk.trackContent this (ARef l) w).2
       = fetched w ++ [track_request (Sdk.trackerUrl this) sent]).
Proof.
  intros H sent. split_and!.
  - subst sent. rewrite with_site_other by done. apply obj_lookup_set_eq.
  - intros Ht. rewrite (Sdk_trackEvent_cases this l o), Ht by done.
    by apply delegated_run.
  - intros Ht. rewrite (Sdk_trackContent_cases this l o), Ht by done.
    by apply delegated_run.
Qed.

Lemma trackEvent_leaves_caller_mapping_witness :
  let o := [("e_c", VString "Videos"); ("ca", VNumber (Num 0));
            ("e_a", VString "Play")] in
  let w := set_heap [o] (quiet_world 200) in
  heap (Sdk.trackEvent sdk_example (ARef 0%nat) w).2
  = [o; [("e_c", VString "Videos"); ("ca", VNumber (Num 1)); ("e_a", VString "Play");
         ("idsite", VNumber (Num 1)); ("rec", VNumber (Num 1))]]
  ∧ fetched (Sdk.trackEvent sdk_example (ARef 0%nat) w).2
    = [fetch_get
         "http://example.com/matomo.php?e_c=Videos&ca=1&e_a=Play&idsite=1&rec=1"].
Proof.
  intros o w.
  destruct (trackEvent_leaves_caller_mapping sdk_example 0%nat o w eq_refl)
    as (_ & Hevent & _).
  destruct (Hevent eq_refl) as (Hheap & _ & Hfetched).
  exact (conj Hheap Hfetched).
Defined.

(** X8. Called without a mapping, [trackEvent] and [trackContent]
    reject with their own message and leave the world as it was: without
    an argument, and with any string in its place (a string has none of
    the required fields). *)
Theorem trackEvent_rejects_without_mapping (this : Sdk.Tracker) (w : World) :
  Sdk.trackEvent this AUndefined w = (Throw (Error InvalidArgument event_required), w)
  ∧ Sdk.trackContent this AUndefined w
    = (Throw (Error InvalidArgument content_required), w)
  ∧ (∀ s, Sdk.trackEvent this (AString s) w
          = (Throw (Error InvalidArgument event_required), w))
  ∧ (∀ s, Sdk.trackContent this (AString s) w
          = (Throw (Error InvalidArgument content_required), w)).
Proof.
  split_and!; [reflexivity..| |].
  - intros s. unfold Sdk.trackEvent.
    by erewrite bind_normal by apply both_present_string.
  - intros s. unfold Sdk.trackContent.
    by erewrite bind_normal by apply both_present_string.
Qed.

(** ** Calling twice *)

Lemma obj_get_with_site site (o : object) k :
  k ≠ "idsite" → k ≠ "rec" → obj_get k (with_site site o) = obj_get k o.
Proof. intros ??. unfold obj_get. by rewrite with_site_other. Qed.

Lemma Legacy_track_heap this l (o : object) w :
  heap w !! l = Some o → truthy (obj_get "url" o) = true →
  heap (Legacy.track this (ARef l) w).2
  = <[l := with_site (Legacy.siteId this) o]> (heap w).
Proof.
  intros H Hurl. rewrite (Legacy_track_run this l o) by done.
  by rewrite dispatch_heap.
Qed.

Lemma Legacy_track_fetched this l (o : object) w :
  heap w !! l = Some o → truthy (obj_get "url" o) = true →
  fetched (Legacy.track this (ARef l) w).2
  = fetched w ++
    [track_request (Legacy.trackerUrl this) (with_site (Legacy.siteId this) o)].
Proof.
  intros H Hurl. rewrite (Legacy_track_run this l o) by done.
  by rewrite track_dispatch_fetched.
Qed.

(** X9. Tracking the same mapping twice sends the same request twice:
    there is no caching and no deduplication, and the fields injected by
    the first call do not change what the second one sends; after the
    second call the mapping is as it was after the first. *)
Theorem track_twice_sends_twice :
  (∀ (this : Sdk.Tracker) l (o : object) w,
     heap w !! l = Some o →
     let w1 := (Sdk.track this (ARef l) w).2 in
     let w2 := (Sdk.track this (ARef l) w1).2 in
     let r := track_request (Sdk.trackerUrl this) (with_site (Sdk.siteId this) o) in
     fetched w2 = fetched w ++ [r; r] ∧ heap w2 = heap w1)
  ∧ (∀ (this : Legacy.Tracker) l (o : object) w,
       heap w !! l = Some o → truthy (obj_get "url" o) = true →
       let w1 := (Legacy.track this (ARef l) w).2 in
       let w2 := (Legacy.track this (ARef l) w1).2 in
       let r := track_request (Legacy.trackerUrl this)
                  (with_site (Legacy.siteId this) o) in
       fetched w2 = fetched w ++ [r; r] ∧ heap w2 = heap w1).
Proof.
  split.
  - intros this l o w H w1 w2 r. subst w1 w2 r.
    pose proof (lookup_lt_Some _ _ _ H) as Hlt.
    assert (heap (Sdk.track this (ARef l) w).2 !! l
            = Some (with_site (Sdk.siteId this) o)) as H1.
    { rewrite (Sdk_track_heap this l o) by done. by apply list_lookup_insert_eq. }
    rewrite (Sdk_track_fetched this l _ _ H1), (Sdk_track_heap this l _ _ H1).
    rewrite (Sdk_track_fetched this l o), (Sdk_track_heap this l o) by done.
    rewrite with_site_idemp, list_insert_insert_eq, <- app_assoc. done.
  - intros this l o w H Hurl w1 w2 r. subst w1 w2 r.
    pose proof (lookup_lt_Some _ _ _ H) as Hlt.
    assert (heap (Legacy.track this (ARef l) w).2 !! l
            = Some (with_site (Legacy.siteId this) o)) as H1.
    { rewrite (Legacy_track_heap this l o) by done. by apply list_lookup_insert_eq. }
    assert (truthy (obj_get "url" (with_site (Legacy.siteId this) o)) = true) as Hurl1
        by (by rewrite obj_get_with_site).
    rewrite (Legacy_track_fetched this l _ _ H1 Hurl1),
      (Legacy_track_heap this l _ _ H1 Hurl1).
    rewrite (Legacy_track_fetched this l o), (Legacy_track_heap this l o) by done.
    rewrite with_site_idemp, list_insert_insert_eq, <- app_assoc. done.
Qed.

Lemma track_twice_sends_twice_witness :
  let w := set_heap [[("url", VString "http://a.b/")]] (quiet_world 200) in
  let r := fetch_get "http://example.com/matomo.php?url=http%3A%2F%2Fa.b%2F&idsite=1&rec=1" in
  fetched (Sdk.track sdk_example (ARef 0%nat)
             (Sdk.track sdk_example (ARef 0%nat) w).2).2 = [r; r]
  ∧ fetched (Legacy.track legacy_example (ARef 0%nat)
               (Legacy.track legacy_example (ARef 0%nat) w).2).2 = [r; r].
Proof.
  intros w r.
  destruct track_twice_sends_twice as [Hsdk Hlegacy].
  exact (conj (proj1 (Hsdk sdk_example 0%nat _ w eq_refl))
              (proj1 (Hlegacy legacy_example 0%nat _ w eq_refl eq_refl))).
Defined.

(** ** What is sent *)

Lemma obj_lookup_defined_entries_full (o : object) k :
  NoDup (keys o) →
  obj_lookup k (defined_entries o) = obj_lookup k o ≫= stringified.
Proof.
  intros Hnd. destruct (obj_lookup k o) as [v|] eqn:Hk; simpl.
  - destruct v as [|n|s]; simpl.
    + destruct (obj_lookup k (defined_entries o)) as [s|] eqn:Hs; [|done].
      apply obj_lookup_elem in Hs.
      apply (defined_entries_lookup o k s Hnd) in Hs as (v & Hv & Hdef & _).
      congruence.
    + by apply (obj_lookup_defined_entries o k (VNumber n)).
    + by apply (obj_lookup_defined_entries o k (VString s)).
  - apply obj_lookup_None. apply obj_lookup_None in Hk.
    intros Hin. apply Hk. by apply keys_defined_entries_subseteq.
Qed.

(** X10. The parameters of every request of [track] and of every
    fragment of [trackBulk] (the mapping's keys being distinct) hold
    [idsite], with the string form of the client's site id, and [rec],
    with "1", each once; every other parameter is the caller's entry of
    that name, in string form, and an entry that is [undefined] is no
    parameter. *)
Theorem request_parameters_carry_site_and_rec (site : number) (o : object) :
  NoDup (keys o) →
  let params := URLSearchParams (optionValuesToString (with_site site o)) in
  obj_lookup "idsite" params = Some (number_to_string site)
  ∧ obj_lookup "rec" params = Some "1"
  ∧ NoDup (keys params)
  ∧ ∀ k, k ≠ "idsite" → k ≠ "rec" →
         obj_lookup k params = obj_lookup k o ≫= stringified.
Proof.
  intros Hnd params. subst params. unfold URLSearchParams.
  pose proof (NoDup_keys_with_site site o Hnd) as Hnd'.
  rewrite (optionValuesToString_defined_entries _ Hnd').
  split_and!.
  - rewrite obj_lookup_defined_entries_full by done. by rewrite with_site_idsite.
  - rewrite obj_lookup_defined_entries_full by done. by rewrite with_site_rec.
  - by apply NoDup_keys_defined_entries.
  - intros k H1 H2. rewrite obj_lookup_defined_entries_full by done.
    by rewrite with_site_other.
Qed.

Lemma request_parameters_carry_site_and_rec_witness :
  let o := [("url", VString "http://a.b/"); ("idsite", VNumber (Num 99));
            ("uid", VUndefined)] in
  let params := URLSearchParams (optionValuesToString (with_site (Num 3) o)) in
  obj_lookup "idsite" params = Some "3"
  ∧ obj_lookup "rec" params = Some "1"
  ∧ obj_lookup "uid" params = None
  ∧ obj_lookup "url" params = Some "http://a.b/".
Proof.
  intros o params.
  assert (NoDup (keys o)) as Hnd
      by (unfold keys; simpl; repeat constructor; set_solver).
  destruct (request_parameters_carry_site_and_rec (Num 3) o Hnd)
    as (Hid & Hrec & _ & Hother).
  exact (conj Hid (conj Hrec (conj (Hother "uid" ltac:(discriminate) ltac:(discriminate))
                                   (Hother "url" ltac:(discriminate) ltac:(discriminate))))).
Defined.

(** ** The bytes of a query string *)

Lemma string_app_assoc (s1 s2 s3 : string) :
  (s1 +:+ s2) +:+ s3 = s1 +:+ (s2 +:+ s3).
Proof.
  induction s1 as [|c s1 IH]; [done|].
  change (String c ((s1 +:+ s2) +:+ s3) = String c (s1 +:+ (s2 +:+ s3))).
  by rewrite IH.
Qed.

Lemma string_forallb_app p (s1 s2 : string) :
  string_forallb p (s1 +:+ s2) = string_forallb p s1 && string_forallb p s2.
Proof.
  induction s1 as [|c s1 IH]; [done|].
  change (p c && string_forallb p (s1 +:+ s2)
          = p c && string_forallb p s1 && string_forallb p s2).
  rewrite IH. by rewrite andb_assoc.
Qed.

Lemma string_forallb_concat p (sep : string) (l : list string) :
  string_forallb p sep = true →
  Forall (fun s => string_forallb p s = true) l →
  string_forallb p (String.concat sep l) = true.
Proof.
  intros Hsep. induction 1 as [|s l Hs Hl IH]; [done|].
  destruct l as [|s' l]; [done|].
  change (String.concat sep (s :: s' :: l))
    with (s +:+ sep +:+ String.concat sep (s' :: l)).
  rewrite !string_forallb_app, Hs, Hsep. by rewrite IH.
Qed.

Lemma urlencoded_byte_query_chars c :
  string_forallb query_char (urlencoded_byte c) = true.
Proof. destruct c as [[] [] [] [] [] [] [] []]; reflexivity. Qed.

Lemma urlencoded_query_chars (s : string) :
  string_forallb query_char (urlencoded s) = true.
Proof.
  induction s as [|c s IH]; [done|].
  change (urlencoded (String c s)) with (urlencoded_byte c +:+ urlencoded s).
  by rewrite string_forallb_app, urlencoded_byte_query_chars, IH.
Qed.

Lemma URLSearchParams_toString_query_chars (params : list (string * string)) :
  string_forallb query_char (URLSearchParams_toString params) = true.
Proof.
  unfold URLSearchParams_toString. apply string_forallb_concat; [done|].
  apply Forall_forall. intros s Hin. apply list_elem_of_In, in_map_iff in Hin as ([k v] & <- & _).
  by rewrite !string_forallb_app, !urlencoded_query_chars.
Qed.

Lemma json_escape_byte_fragment_char c :
  fragment_char c = true → json_escape_byte c = String c EmptyString.
Proof.
  destruct c as [[] [] [] [] [] [] [] []]; intros H;
    first [reflexivity | discriminate H].
Qed.

Lemma json_escape_fragment_chars (s : string) :
  string_forallb fragment_char s = true → json_escape s = s.
Proof.
  induction s as [|c s IH]; [done|]. simpl string_forallb.
  intros [Hc Hs]%andb_true_iff.
  change (json_escape (String c s)) with (json_escape_byte c +:+ json_escape s).
  by rewrite json_escape_byte_fragment_char, IH.
Qed.

Lemma string_forallb_impl (p q : ascii → bool) (s : string) :
  (∀ c, p c = true → q c = true) →
  string_forallb p s = true → string_forallb q s = true.
Proof.
  intros Hpq. induction s as [|c s IH]; [done|]. simpl.
  intros [Hc Hs]%andb_true_iff. by rewrite (Hpq c Hc), IH.
Qed.

Lemma json_escape_fragment (o : object) :
  json_escape ("?" +:+ query_string o) = "?" +:+ query_string o.
Proof.
  apply json_escape_fragment_chars.
  change (string_forallb fragment_char (String "?" (query_string o)) = true).
  simpl. apply (string_forallb_impl query_char).
  - intros c Hc. unfold fragment_char. by rewrite Hc.
  - apply URLSearchParams_toString_query_chars.
Qed.

(** X11. A query string built from a mapping consists only of the bytes
    [* - . _ 0-9 A-Z a-z % & + =], whatever the keys and values hold: no
    space, quote, [#] or [?] of the caller's reaches the request URL.  The
    fragments of [trackBulk] therefore need no JSON escaping, and the body
    is the fragments verbatim, each between double quotes, separated by
    commas, as the array of the one field [requests]. *)
Theorem query_strings_are_plain :
  (∀ o : object, string_forallb query_char (query_string o) = true)
  ∧ (∀ (site : number) (objs : list object),
       JSON_stringify
         (JsonObject
            [("requests",
              JsonArray
                (map JsonString
                   (map (fun o => "?" +:+ query_string (with_site site o)) objs)))])
       = ("{" +:+ dquote +:+ "requests" +:+ dquote +:+ ":[") +:+
         String.concat ","
           (map (fun o => dquote +:+ ("?" +:+ query_string (with_site site o)) +:+ dquote)
                objs)
         +:+ "]}").
Proof.
  split.
  - intros o. apply URLSearchParams_toString_query_chars.
  - intros site objs.
    cbn [JSON_stringify map String.concat].
    rewrite !map_map.
    rewrite (map_ext (fun o => JSON_stringify
                                 (JsonString ("?" +:+ query_string (with_site site o))))
               (fun o => dquote +:+ ("?" +:+ query_string (with_site site o)) +:+ dquote)).
    2:{ intros o. cbn [JSON_stringify]. unfold QuoteJSONString.
        by rewrite json_escape_fragment. }
    unfold QuoteJSONString.
    change (json_escape "requests") with "requests".
    rewrite !string_app_assoc. reflexivity.
Qed.

(** ** The two files side by side *)





(** ** [trackBulk]: which mappings it touches, and when it rejects *)

Lemma injected_heap_other site items (h : list object) l :
  l ∉ items → injected_heap site items h !! l = h !! l.
Proof.
  intros Hout. rewrite injected_heap_lookup.
  destruct (h !! l) as [o|]; simpl; [|done].
  by rewrite bool_decide_eq_false_2.
Qed.

(** X13. [trackBulk], given a non-empty sequence of mappings, touches
    only those: every mapping of the caller that is not in the sequence is
    after the call what it was before, and no object is added. *)
Theorem trackBulk_touches_only_its_items :
  (∀ (this : Sdk.Tracker) items w,
     items ≠ [] → Forall (fun l => is_Some (heap w !! l)) items →
     length (heap (Sdk.trackBulk this (Some items) w).2) = length (heap w)
     ∧ ∀ l, l ∉ items →
            heap (Sdk.trackBulk this (Some items) w).2 !! l = heap w !! l)
  ∧ (∀ (this : Legacy.Tracker) items callback w,
       items ≠ [] → Forall (fun l => is_Some (heap w !! l)) items →
       length (heap (Legacy.trackBulk this (Some items) callback w).2)
       = length (heap w)
       ∧ ∀ l, l ∉ items →
              heap (Legacy.trackBulk this (Some items) callback w).2 !! l
              = heap w !! l).
Proof.
  split.
  - intros this items w Hne Hall. rewrite Sdk_trackBulk_heap by done.
    split; [apply injected_heap_length|]. intros l Hl. by apply injected_heap_other.
  - intros this items callback w Hne Hall. rewrite Legacy_trackBulk_heap by done.
    split; [apply injected_heap_length|]. intros l Hl. by apply injected_heap_other.
Qed.

Lemma trackBulk_touches_only_its_items_witness :
  let w := set_heap readme_events (quiet_world 200) in
  heap (Sdk.trackBulk sdk_example (Some [1%nat]) w).2 !! 0%nat = heap w !! 0%nat
  ∧ heap (Legacy.trackBulk legacy_example (Some [1%nat]) None w).2 !! 0%nat
    = heap w !! 0%nat.
Proof.
  intros w.
  destruct trackBulk_touches_only_its_items as [Hsdk Hlegacy].
  assert (Forall (fun l => is_Some (heap w !! l)) [1%nat]) as Hall
      by (repeat constructor; by eexists).
  assert (0%nat ∉ [1%nat]) as Hout by (by intros ?%list_elem_of_singleton).
  exact (conj (proj2 (Hsdk sdk_example [1%nat] w ltac:(discriminate) Hall) 0%nat Hout)
              (proj2 (Hlegacy legacy_example [1%nat] None w ltac:(discriminate) Hall)
                 0%nat Hout)).
Defined.



(** ** Where the base fields go *)

Lemma defined_entries_app (o1 o2 : object) :
  defined_entries (o1 ++ o2) = defined_entries o1 ++ defined_entries o2.
Proof. unfold defined_entries. apply omap_app. Qed.

(** X15. Where [idsite] and [rec] end up among the parameters.  When the
    caller's mapping (its keys distinct) has neither, they are appended, in
    this order, after the caller's parameters: that is why the tracked URL
    comes first in the request of [track("...")].  When the caller supplied
    both, each keeps the place the caller gave it and only its value is
    replaced. *)
Theorem base_fields_are_appended (site : number) (o : object) :
  NoDup (keys o) →
  ("idsite" ∉ keys o → "rec" ∉ keys o →
   with_site site o = o ++ [("idsite", VNumber site); ("rec", VNumber (Num 1))]
   ∧ URLSearchParams (optionValuesToString (with_site site o))
     = URLSearchParams (optionValuesToString o)
       ++ [("idsite", number_to_string site); ("rec", "1")])
  ∧ ("idsite" ∈ keys o → "rec" ∈ keys o →
     keys (with_site site o) = keys o).
Proof.
  intros Hnd. split.
  - intros Hid Hrec.
    assert (with_site site o
            = o ++ [("idsite", VNumber site); ("rec", VNumber (Num 1))]) as Heq.
    { unfold with_site. rewrite (obj_set_fresh "idsite") by done.
      rewrite obj_set_fresh.
      - by rewrite <- app_assoc.
      - unfold keys in *. rewrite fmap_app. simpl. set_solver. }
    split; [done|]. unfold URLSearchParams.
    rewrite (optionValuesToString_defined_entries _ (NoDup_keys_with_site site o Hnd)).
    rewrite (optionValuesToString_defined_entries o Hnd).
    rewrite Heq, defined_entries_app. reflexivity.
  - intros Hid Hrec. unfold with_site.
    rewrite keys_obj_set_present; by rewrite keys_obj_set_present.
Qed.

Lemma base_fields_are_appended_witness :
  URLSearchParams
    (optionValuesToString
       (with_site (Num 1) [("url", VString "http://a.b/"); ("uid", VUndefined)]))
  = [("url", "http://a.b/"); ("idsite", "1"); ("rec", "1")]
  ∧ keys (with_site (Num 1)
            [("rec", VNumber (Num 0)); ("url", VString "http://a.b/");
             ("idsite", VNumber (Num 9))])
    = ["rec"; "url"; "idsite"].
Proof.
  assert (NoDup (keys [("url", VString "http://a.b/"); ("uid", VUndefined)])) as Hnd1
      by (unfold keys; simpl; repeat constructor; set_solver).
  assert (NoDup (keys [("rec", VNumber (Num 0)); ("url", VString "http://a.b/");
                       ("idsite", VNumber (Num 9))])) as Hnd2
      by (unfold keys; simpl; repeat constructor; set_solver).
  assert ("idsite" ∉ keys [("url", VString "http://a.b/"); ("uid", VUndefined)])
    as Hid by (unfold keys; simpl; set_solver).
  assert ("rec" ∉ keys [("url", VString "http://a.b/"); ("uid", VUndefined)])
    as Hrec by (unfold keys; simpl; set_solver).
  assert ("idsite" ∈ keys [("rec", VNumber (Num 0)); ("url", VString "http://a.b/");
                           ("idsite", VNumber (Num 9))])
    as Hid2 by (unfold keys; simpl; set_solver).
  assert ("rec" ∈ keys [("rec", VNumber (Num 0)); ("url", VString "http://a.b/");
                        ("idsite", VNumber (Num 9))])
    as Hrec2 by (unfold keys; simpl; set_solver).
  exact (conj (proj2 (proj1 (base_fields_are_appended (Num 1) _ Hnd1) Hid Hrec))
              (proj2 (base_fields_are_appended (Num 1) _ Hnd2) Hid2 Hrec2)).
Defined.

(** ** What [trackBulk] of index.ts returns *)

Lemma dispatch_none {A} r (k : Response → M (option A)) w a :
  (∀ resp w1 b, (k resp w1).1 = Normal b → b = None) →
  (dispatch r k w).1 = Normal a → a = None.
Proof.
  intros Hk.
  unfold dispatch, try_catch, fetch, mbind, M_bind, mret, M_ret.
  destruct (server w r) as [resp|e].
  - destruct (ok resp); simpl.
    + specialize (Hk resp (set_fetched (fetched w ++ [r]) w)).
      destruct (k resp _) as [[b|e] w2]; simpl in *.
      * intros [= <-]. by apply Hk.
      * rewrite emit_if_listened_run. by intros [= <-].
    + rewrite emit_if_listened_run. by intros [= <-].
  - rewrite emit_if_listened_run. by intros [= <-].
Qed.

Lemma text_callback_none callback (resp : Response) w b :
  ((responseData ← read_text resp;
    call_back callback responseData;;
    mret (M := M) (@None Response)) w).1 = Normal b → b = None.
Proof.
  unfold read_text, call_back, mbind, M_bind, mret, M_ret.
  destruct (text resp); [|done]. destruct callback; simpl; by intros [= <-].
Qed.

(** X16. [trackBulk] of index.ts never resolves with a value: whatever
    the argument and whatever the network answers, a call that is not
    rejected has no result; the response body reaches the caller through
    the callback only. *)
Theorem Legacy_trackBulk_has_no_result
    (this : Legacy.Tracker) eventItems callback w a :
  (Legacy.trackBulk this eventItems callback w).1 = Normal a → a = None.
Proof.
  destruct eventItems as [[|l items]|]; [done| |done].
  rewrite Legacy_trackBulk_items.
  destruct (mapM (bulk_fragment (Legacy.siteId this)) (l :: items) w)
    as [[frags|e] w1] eqn:E.
  - erewrite bind_normal by done. cbv beta.
    apply dispatch_none. intros. by eapply text_callback_none.
  - by erewrite bind_throw by done.
Qed.

Lemma Legacy_trackBulk_has_no_result_witness :
  (Legacy.trackBulk legacy_example (Some [0%nat]) (Some 3%nat)
     (set_heap readme_events (quiet_world 200))).1 = Normal None.
Proof.
  assert (∃ a, (Legacy.trackBulk legacy_example (Some [0%nat]) (Some 3%nat)
                  (set_heap readme_events (quiet_world 200))).1 = Normal a)
    as [a Ha] by (by eexists).
  rewrite Ha. f_equal.
  exact (Legacy_trackBulk_has_no_result legacy_example (Some [0%nat]) (Some 3%nat)
           (set_heap readme_events (quiet_world 200)) a Ha).
Defined.
